(** * ID-SMART: FUTO student ID card generator

    A shallow embedding of the two versions of [server.js] found in the
    repository: the original one, which keeps uploads and generated cards on
    the local disk (module [Disk]), and the later one, which keeps them in
    Cloudinary (module [Cloud]).  Helper functions that are textually the same
    in both versions are embedded once.

    JavaScript strings are sequences of UTF-16 code units and are embedded as
    [list N]; numbers that the program only uses as integers are [Z] or [N];
    point sizes are binary64 numbers, and the pixel coordinates computed from
    centimetres are exact rationals [Q]. *)

From Stdlib Require Import ZArith NArith QArith Qround Qpower Lqa String Ascii SpecFloat.
From stdpp Require Import base gmap strings list fin_maps.

(** ** JavaScript strings *)

Module JS.

(** The code units of an ASCII literal of the source. *)
Definition js (s : string) : list N :=
  (fun a => N_of_ascii a) <$> list_ascii_of_string s.

(** [WhiteSpace] and [LineTerminator] code points of ECMAScript, the ones
    [String.prototype.trim] strips. *)
Definition isWhiteSpace (c : N) : bool :=
  ((9 <=? c) && (c <=? 13) || (c =? 32) || (c =? 160) || (c =? 5760)
   || (8192 <=? c) && (c <=? 8202) || (c =? 8232) || (c =? 8233)
   || (c =? 8239) || (c =? 8287) || (c =? 12288) || (c =? 65279))%N.

Fixpoint trimStart (s : list N) : list N :=
  match s with
  | [] => []
  | c :: r => if isWhiteSpace c then trimStart r else s
  end.

Definition trimEnd (s : list N) : list N := rev (trimStart (rev s)).

Definition trim (s : list N) : list N := trimEnd (trimStart s).

(** Truthiness of a string value: only the empty string is falsy. *)
Definition truthy (s : list N) : bool :=
  match s with [] => false | _ :: _ => true end.

(** Truthiness of a property read, where [None] stands for [undefined]. *)
Definition truthy_prop (v : option (list N)) : bool :=
  match v with None => false | Some s => truthy s end.

Fixpoint startsWith (p s : list N) : bool :=
  match p, s with
  | [], _ => true
  | _ :: _, [] => false
  | a :: p', b :: s' => (a =? b)%N && startsWith p' s'
  end.

(** [includes p s]: [p] occurs in [s] as a contiguous substring; this is
    what an unanchored regular expression made of the literal [p] tests. *)
Fixpoint includes (p s : list N) : bool :=
  startsWith p s ||
  match s with
  | [] => false
  | _ :: s' => includes p s'
  end.

(** *** UTF-16 *)

Definition isHighSurrogate (u : N) : bool := ((55296 <=? u) && (u <=? 56319))%N.
Definition isLowSurrogate (u : N) : bool := ((56320 <=? u) && (u <=? 57343))%N.
Definition isSurrogate (u : N) : bool := ((55296 <=? u) && (u <=? 57343))%N.

Definition pairToCodePoint (h l : N) : N :=
  (65536 + (h - 55296) * 1024 + (l - 56320))%N.

(** The code points of a string: a high surrogate followed by a low one is
    one code point, every other code unit stands for itself. *)
Fixpoint codePoints (s : list N) : list N :=
  match s with
  | [] => []
  | u :: rest =>
      match rest with
      | l :: rest' =>
          if isHighSurrogate u && isLowSurrogate l
          then pairToCodePoint u l :: codePoints rest'
          else u :: codePoints rest
      | [] => [u]
      end
  end.

Definition codeUnits (cp : N) : list N :=
  (if cp <? 65536 then [cp]
   else [55296 + (cp - 65536) / 1024; 56320 + (cp - 65536) mod 1024])%N.

Definition fromCodePoints (cps : list N) : list N := flat_map codeUnits cps.

(** *** Case conversion

    [toUpperCase] and [toLowerCase] map every code point through the
    Unicode case mapping.  On Basic Latin the mapping is written out; for
    the other code points it is data of the Unicode Character Database,
    which is not part of the repository, and is taken as a table. *)
Record CaseTable := {
  upper_tbl : N -> list N;
  lower_tbl : N -> list N
}.

Definition asciiUpper (c : N) : N :=
  (if (97 <=? c) && (c <=? 122) then c - 32 else c)%N.
Definition asciiLower (c : N) : N :=
  (if (65 <=? c) && (c <=? 90) then c + 32 else c)%N.

Definition upperCodePoint (U : CaseTable) (c : N) : list N :=
  if (c <? 128)%N then [asciiUpper c] else upper_tbl U c.
Definition lowerCodePoint (U : CaseTable) (c : N) : list N :=
  if (c <? 128)%N then [asciiLower c] else lower_tbl U c.

Definition toUpperCase (U : CaseTable) (s : list N) : list N :=
  fromCodePoints (flat_map (upperCodePoint U) (codePoints s)).
Definition toLowerCase (U : CaseTable) (s : list N) : list N :=
  fromCodePoints (flat_map (lowerCodePoint U) (codePoints s)).

(** A table that leaves every code point outside Basic Latin alone. *)
Definition latinOnly : CaseTable :=
  {| upper_tbl := fun c => [c]; lower_tbl := fun c => [c] |}.

End JS.

(** ** Node's [path] module (POSIX flavour) *)

Module Path.

Definition SLASH : N := 47.
Definition DOT : N := 46.

Definition isDot (seg : list N) : bool :=
  match seg with [c] => (c =? DOT)%N | _ => false end.
Definition isDotDot (seg : list N) : bool :=
  match seg with [c; d] => (c =? DOT)%N && (d =? DOT)%N | _ => false end.

(** The segments between the separators of a path. *)
Fixpoint segments (p : list N) : list (list N) :=
  match p with
  | [] => [[]]
  | c :: r =>
      if (c =? SLASH)%N then [] :: segments r
      else match segments r with
           | seg :: segs => (c :: seg) :: segs
           | [] => [[c]]
           end
  end.

Fixpoint joinSegments (segs : list (list N)) : list N :=
  match segs with
  | [] => []
  | [seg] => seg
  | seg :: rest => seg ++ SLASH :: joinSegments rest
  end.

(** One segment of [normalizeString]; [stack] holds the segments kept so
    far, last one first. *)
Definition normalizeStep (allowAboveRoot : bool) (stack : list (list N))
    (seg : list N) : list (list N) :=
  match seg with
  | [] => stack
  | _ :: _ =>
      if isDot seg then stack
      else if isDotDot seg then
        match stack with
        | top :: below =>
            if isDotDot top
            then (if allowAboveRoot then seg :: stack else stack)
            else below
        | [] => if allowAboveRoot then [seg] else []
        end
      else seg :: stack
  end.

Definition normalizeString (p : list N) (allowAboveRoot : bool) : list N :=
  joinSegments (rev (fold_left (normalizeStep allowAboveRoot) (segments p) [])).

Definition normalize (p : list N) : list N :=
  match p with
  | [] => [DOT]
  | first :: _ =>
      let isAbsolute := (first =? SLASH)%N in
      let trailingSeparator := (List.last p 0 =? SLASH)%N in
      let q := normalizeString p (negb isAbsolute) in
      match q with
      | [] =>
          if isAbsolute then [SLASH]
          else if trailingSeparator then [DOT; SLASH] else [DOT]
      | _ :: _ =>
          let q' := if trailingSeparator then q ++ [SLASH] else q in
          if isAbsolute then SLASH :: q' else q'
      end
  end.

(** [path.join(...args)]: the non-empty arguments, separated by a slash,
    normalized. *)
Definition join (args : list (list N)) : list N :=
  match List.filter JS.truthy args with
  | [] => [DOT]
  | a :: rest => normalize (fold_left (fun acc x => acc ++ SLASH :: x) rest a)
  end.

(** [path.extname]: the backwards scan of Node's implementation. *)
Record ExtScan := {
  startDot : Z;
  startPart : Z;
  endPos : Z;
  matchedSlash : bool;
  preDotState : Z
}.

Definition extInit : ExtScan :=
  {| startDot := -1; startPart := 0; endPos := -1;
     matchedSlash := true; preDotState := 0 |}.

Fixpoint extScan (p : list N) (n : nat) (st : ExtScan) : ExtScan :=
  match n with
  | O => st
  | S i =>
      let code := nth i p 0%N in
      if (code =? SLASH)%N then
        if negb (matchedSlash st)
        then {| startDot := startDot st; startPart := Z.of_nat i + 1;
                endPos := endPos st; matchedSlash := matchedSlash st;
                preDotState := preDotState st |}
        else extScan p i st
      else
        let st1 :=
          if (endPos st =? -1)%Z
          then {| startDot := startDot st; startPart := startPart st;
                  endPos := Z.of_nat i + 1; matchedSlash := false;
                  preDotState := preDotState st |}
          else st in
        let st2 :=
          if (code =? DOT)%N then
            if (startDot st1 =? -1)%Z
            then {| startDot := Z.of_nat i; startPart := startPart st1;
                    endPos := endPos st1; matchedSlash := matchedSlash st1;
                    preDotState := preDotState st1 |}
            else if negb (preDotState st1 =? 1)%Z
            then {| startDot := startDot st1; startPart := startPart st1;
                    endPos := endPos st1; matchedSlash := matchedSlash st1;
                    preDotState := 1 |}
            else st1
          else if negb (startDot st1 =? -1)%Z
          then {| startDot := startDot st1; startPart := startPart st1;
                  endPos := endPos st1; matchedSlash := matchedSlash st1;
                  preDotState := -1 |}
          else st1 in
        extScan p i st2
  end.

Definition slice (p : list N) (from to : Z) : list N :=
  take (Z.to_nat (to - from)) (drop (Z.to_nat from) p).

Definition extname (p : list N) : list N :=
  let st := extScan p (length p) extInit in
  if ((startDot st =? -1) || (endPos st =? -1) || (preDotState st =? 0)
      || ((preDotState st =? 1) && (startDot st =? endPos st - 1)
          && (startDot st =? startPart st + 1)))%Z
  then []
  else slice p (startDot st) (endPos st).

End Path.

Import JS.

(** ** Constants and helpers common to both versions of [server.js] *)

Record Size := { width : Z; height : Z }.
Record Point := { x : Z; y : Z }.

Definition CM_TO_PX : Q := (300 / 2.54)%Q.
Definition CARD_WIDTH : Z := 1012.
Definition CARD_HEIGHT : Z := 638.
Definition QR_SIZE : Size := {| width := 150; height := 150 |}.
Definition QR_POSITION : Point := {| x := 470; y := 419 |}.
Definition PHOTO_SIZE : Size := {| width := 280; height := 280 |}.
Definition PHOTO_POSITION : Point := {| x := 640; y := 280 |}.

(** ** Point sizes

    [ptToPx] works on Numbers, that is in IEEE 754 binary64, with every
    operation rounded to nearest, ties to even.  The operations are those
    of the standard library's [SpecFloat], at precision 53 and maximal
    exponent 1024. *)

(** The Number of an integer literal, and of a decimal literal [num / den]
    with [den] a power of ten and both below [2 ^ 53]: the binary64 number
    nearest to it. *)
Definition binary64_of_Z (n : positive) : spec_float :=
  binary_normalize 53 1024 (Z.pos n) 0 false.

Definition binary64_literal (num den : positive) : spec_float :=
  SFdiv 53 1024 (binary64_of_Z num) (binary64_of_Z den).

(** The real number a finite Number stands for. *)
Definition Number_value (f : spec_float) : Q :=
  match f with
  | S754_finite s m e => ((if s then -1 else 1) * inject_Z (Z.pos m) * 2 ^ e)%Q
  | _ => 0%Q
  end.

(** The order of the Numbers, [NaN] apart. *)
Definition Number_le (x y : spec_float) : Prop :=
  match x, y with
  | S754_nan, _ | _, S754_nan => False
  | S754_infinity true, _ | _, S754_infinity false => True
  | S754_infinity false, _ | _, S754_infinity true => False
  | _, _ => (Number_value x <= Number_value y)%Q
  end.

(** A Number that is an integer, an infinity or [NaN]: the results of
    [Math.round]. *)
Inductive Integral :=
| Integer (n : Z)
| PlusInfinity
| MinusInfinity
| NotANumber.

Definition Integral_le (a b : Integral) : Prop :=
  match a, b with
  | NotANumber, _ | _, NotANumber => False
  | MinusInfinity, _ | _, PlusInfinity => True
  | PlusInfinity, _ | _, MinusInfinity => False
  | Integer n, Integer n' => (n <= n')%Z
  end.

(** [Math.round] of a real number: the nearest integer, a tie going up. *)
Definition Math_round (v : Q) : Z := Qfloor (v + (1 # 2))%Q.

(** [Math.round] of a Number. *)
Definition Number_round (v : spec_float) : Integral :=
  match v with
  | S754_nan => NotANumber
  | S754_infinity s => if s then MinusInfinity else PlusInfinity
  | _ => Integer (Math_round (Number_value v))
  end.

(** [Math.max(a, b)] for an integer [a]. *)
Definition Math_max (a : Z) (b : Integral) : Integral :=
  match b with
  | NotANumber => NotANumber
  | PlusInfinity => PlusInfinity
  | MinusInfinity => Integer a
  | Integer n => Integer (Z.max a n)
  end.

Definition DPI : spec_float := binary64_of_Z 300.

(** [ptToPx]: [Math.max(1, Math.round(pt * DPI / 72.0))], the product and
    then the quotient being those of binary64. *)
Definition ptToPx (pt : spec_float) : Integral :=
  Math_max 1 (Number_round (SFdiv 53 1024 (SFmul 53 1024 pt DPI) (binary64_of_Z 72))).

(** The formula of the specification, [max(1, round(pt * 300 / 72))], in
    exact arithmetic. *)
Definition ptToPx_exact (pt : Q) : Z := Z.max 1 (Math_round (pt * 300 / 72)%Q).

(** ** Rounding in binary64 *)

(** The place of a real number [y] between the integers [m] and [m + 1]:
    on [m], below, on or above the middle. *)
Definition Brackets (y : Q) (m : Z) (l : location) : Prop :=
  match l with
  | loc_Exact => (y == inject_Z m)%Q
  | loc_Inexact Lt => (inject_Z m < y ∧ y < inject_Z m + (1 # 2))%Q
  | loc_Inexact Eq => (y == inject_Z m + (1 # 2))%Q
  | loc_Inexact Gt => (inject_Z m + (1 # 2) < y ∧ y < inject_Z m + 1)%Q
  end.

(** The integer nearest to [y], the even one of two that are equally near. *)
Definition roundTiesToEven (y : Q) : Z :=
  let f := Qfloor y in
  match (y - inject_Z f ?= 1 # 2)%Q with
  | Lt => f
  | Eq => if Z.even f then f else (f + 1)%Z
  | Gt => (f + 1)%Z
  end.

(** [k] is the exponent of the binary64 numbers around the positive real
    number [x]: these are the multiples of [2 ^ k]. *)
Definition binade (x : Q) (k : Z) : Prop :=
  (-1074 <= k)%Z ∧ (x < 2 ^ (k + 53))%Q ∧ (k = (-1074)%Z ∨ (2 ^ (k + 52) <= x)%Q).

(** The multiple of [2 ^ k] nearest to [x]. *)
Definition rounded (x : Q) (k : Z) : Q :=
  (inject_Z (roundTiesToEven (x * 2 ^ (- k))) * 2 ^ k)%Q.

(** [r] is the Number of sign [s] whose magnitude is the positive real
    number [x] rounded to nearest, ties to even: an infinity from
    [2 ^ 1024] on. *)
Definition RoundedTo (s : bool) (x : Q) (r : spec_float) : Prop :=
  ∃ k, binade x k ∧
    match r with
    | S754_zero s' => s' = s ∧ (rounded x k == 0)%Q
    | S754_finite s' m e =>
        s' = s ∧ (inject_Z (Z.pos m) * 2 ^ e == rounded x k)%Q ∧ (rounded x k < 2 ^ 1024)%Q
    | S754_infinity s' => s' = s ∧ (2 ^ 1024 <= rounded x k)%Q
    | S754_nan => False
    end.

(** [r] is a Number of sign [s]. *)
Definition Signed (s : bool) (r : spec_float) : Prop :=
  match r with
  | S754_nan => False
  | S754_zero s' | S754_infinity s' | S754_finite s' _ _ => s' = s
  end.

(** The integer of a result that is one; [ptToPx] gives an integer at each
    of the three sizes the program uses. *)
Definition pixels (v : Integral) : Z :=
  match v with
  | Integer n => n
  | _ => 0%Z
  end.

(** [ptToPx(pt)] where the program reads it as a number of pixels. *)
Definition ptToPx_pixels (pt : spec_float) : Z := pixels (ptToPx pt).

(** The fields [validateFormInput] requires.  A parsed form is a map from
    field names to string values; a missing key reads as [undefined]. *)
Definition required : list string :=
  ["name"; "reg"; "dept"; "faculty"; "gender"; "expiry"]%string.

Inductive Validation :=
| Valid
| Invalid (error : string).

(** The regular expression [/^[A-Za-z0-9 ._/-]+$/]. *)
Definition regChar (c : N) : bool :=
  ((65 <=? c) && (c <=? 90) || (97 <=? c) && (c <=? 122)
   || (48 <=? c) && (c <=? 57)
   || (c =? 32) || (c =? 46) || (c =? 95) || (c =? 47) || (c =? 45))%N.

Definition regPattern_test (s : list N) : bool :=
  truthy s && forallb regChar s.

(** The loop over [required] of [validateFormInput]: the first field that is
    missing, empty or blank. *)
Fixpoint firstMissing (data : gmap string (list N)) (fields : list string)
  : option string :=
  match fields with
  | [] => None
  | field :: rest =>
      match data !! field with
      | None => Some field
      | Some v =>
          if negb (truthy v) || negb (truthy (trim v)) then Some field
          else firstMissing data rest
      end
  end.

(** A property read that the preceding checks have shown to be a string. *)
Definition prop (data : gmap string (list N)) (field : string) : list N :=
  default [] (data !! field).

Definition validateFormInput (data : gmap string (list N)) : Validation :=
  match firstMissing data required with
  | Some field => Invalid ("Missing field: " ++ field)
  | None =>
      if (100 <? length (prop data "name"))%nat
      then Invalid "Name too long (max 100 characters)"
      else if (50 <? length (prop data "reg"))%nat
      then Invalid "Registration number too long (max 50 characters)"
      else if negb (regPattern_test (prop data "reg"))
      then Invalid "Invalid characters in registration number"
      else Valid
  end.

(** [reg.replace(/[^a-z0-9_-]/gi, '_')].  The pattern has no [u] flag, so it
    works code unit by code unit, and its case-insensitive matching never
    identifies a code unit above 127 with a Basic Latin one. *)
Definition safeChar (c : N) : bool :=
  ((97 <=? c) && (c <=? 122) || (65 <=? c) && (c <=? 90)
   || (48 <=? c) && (c <=? 57) || (c =? 95) || (c =? 45))%N.

Definition sanitizeReg (reg : list N) : list N :=
  (fun c => if safeChar c then c else 95%N) <$> reg.

(** The options object handed to the QR library; a field the source does not
    set is [None] and the library uses its default. *)
Record QROptions := {
  qr_width : Z;
  qr_margin : Z;
  qr_errorCorrectionLevel : option string
}.

Definition qrOptions : QROptions :=
  {| qr_width := width QR_SIZE; qr_margin := 1;
     qr_errorCorrectionLevel := None |}.

Definition qrText (name reg dept : list N) : list N :=
  js "Name: " ++ name ++ 10%N :: js "Reg: " ++ reg ++ 10%N :: js "Dept: " ++ dept.

(** The uploaded file as multer presents it to [fileFilter]. *)
Record FilePart := {
  originalname : list N;
  mimetype : list N;
  content : list N
}.

Definition fileSize (f : FilePart) : N := N.of_nat (length (content f)).

Definition FILE_SIZE_LIMIT : N := 16 * 1024 * 1024.

(** The bytes of a part that the parser hands on before it cuts the stream
    at the limit. *)
Fixpoint firstBytes (limit : N) (bytes : list N) : list N :=
  match bytes with
  | [] => []
  | b :: rest => if (limit =? 0)%N then [] else b :: firstBytes (N.pred limit) rest
  end.

(** [/jpeg|jpg|png|gif/.test(s)]: the pattern is not anchored. *)
Definition allowedTypes_test (s : list N) : bool :=
  includes (js "jpeg") s || includes (js "jpg") s
  || includes (js "png") s || includes (js "gif") s.

Definition fileFilter (U : CaseTable) (file : FilePart) : bool :=
  let extname := allowedTypes_test (toLowerCase U (Path.extname (originalname file))) in
  let mimetype := allowedTypes_test (mimetype file) in
  mimetype && extname.

(** The six strings [generateIDCard] takes out of [formData].  The handlers
    call [generateIDCard] on validated forms only, and a validated form has
    all six. *)
Record CardData := {
  name : list N;
  reg : list N;
  dept : list N;
  faculty : list N;
  gender : list N;
  expiry : list N
}.

Definition cardData (data : gmap string (list N)) : option CardData :=
  n ← data !! "name"; r ← data !! "reg"; d ← data !! "dept";
  f ← data !! "faculty"; g ← data !! "gender"; e ← data !! "expiry";
  Some {| name := n; reg := r; dept := d; faculty := f; gender := g; expiry := e |}.

(** ** Canvas *)

Record Font := { font_px : Z; font_family : string }.

(** A decoded image, kept as the bytes it was decoded from. *)
Record Image := { image_bytes : list N }.

Inductive DrawOp :=
| DrawImage (img : Image) (dx dy dw dh : Z)
| FillText (text : list N) (tx ty : Q) (font : Font) (fillStyle : string).

(** A canvas together with the state of its 2D context. *)
Record Canvas := {
  canvas_width : Z;
  canvas_height : Z;
  drawn : list DrawOp;
  ctx_fillStyle : string;
  ctx_font : Font
}.

Definition createCanvas (w h : Z) : Canvas :=
  {| canvas_width := w; canvas_height := h; drawn := [];
     ctx_fillStyle := "#000000";
     ctx_font := {| font_px := 10; font_family := "sans-serif" |} |}.

Definition drawImage (img : Image) (dx dy dw dh : Z) (c : Canvas) : Canvas :=
  {| canvas_width := canvas_width c; canvas_height := canvas_height c;
     drawn := drawn c ++ [DrawImage img dx dy dw dh];
     ctx_fillStyle := ctx_fillStyle c; ctx_font := ctx_font c |}.

Definition set_fillStyle (s : string) (c : Canvas) : Canvas :=
  {| canvas_width := canvas_width c; canvas_height := canvas_height c;
     drawn := drawn c; ctx_fillStyle := s; ctx_font := ctx_font c |}.

Definition set_font (f : Font) (c : Canvas) : Canvas :=
  {| canvas_width := canvas_width c; canvas_height := canvas_height c;
     drawn := drawn c; ctx_fillStyle := ctx_fillStyle c; ctx_font := f |}.

Definition fillText (text : list N) (tx ty : Q) (c : Canvas) : Canvas :=
  {| canvas_width := canvas_width c; canvas_height := canvas_height c;
     drawn := drawn c ++ [FillText text tx ty (ctx_font c) (ctx_fillStyle c)];
     ctx_fillStyle := ctx_fillStyle c; ctx_font := ctx_font c |}.


(** *** PNG

    [canvas.toBuffer('image/png')].  Of the encoding only the start is fixed
    by the format: the signature and the head of the [IHDR] chunk with the
    width and the height as big-endian 32-bit numbers.  The remaining bytes
    are the encoder's. *)
Definition PNG_SIGNATURE : list N := [137; 80; 78; 71; 13; 10; 26; 10]%N.

Definition be32 (v : Z) : list N :=
  Z.to_N <$> [(v / 16777216) mod 256; (v / 65536) mod 256; (v / 256) mod 256; v mod 256]%Z.

Definition unbe32 (b3 b2 b1 b0 : N) : Z :=
  Z.of_N b3 * 16777216 + Z.of_N b2 * 65536 + Z.of_N b1 * 256 + Z.of_N b0.

Definition pngHeader (w h : Z) : list N :=
  PNG_SIGNATURE ++ [0; 0; 0; 13]%N ++ js "IHDR" ++ be32 w ++ be32 h.

(** The width and height announced by a PNG byte sequence. *)
Definition pngDimensions (b : list N) : option (Z * Z) :=
  match b with
  | 137 :: 80 :: 78 :: 71 :: 13 :: 10 :: 26 :: 10
    :: 0 :: 0 :: 0 :: 13 :: 73 :: 72 :: 68 :: 82
    :: w3 :: w2 :: w1 :: w0 :: h3 :: h2 :: h1 :: h0 :: _ =>
      Some (unbe32 w3 w2 w1 w0, unbe32 h3 h2 h1 h0)
  | _ => None
  end%N.

(** ** The environment of a server process *)

Inductive ImageSource :=
| FromPath (p : list N)
| FromBuffer (b : list N)
| FromUrl (u : list N).

Record CloudObject := {
  folder : list N;
  public_id : list N;
  transformation : option Size;
  data : list N
}.

(** What the process cannot decide by itself: where it is installed, which
    font it found at start-up, and how the libraries and services it calls
    answer. *)
Record Env := {
  dirname : list N;
  fontLoaded : bool;
  unicode : CaseTable;
  (** [QRCode.toBuffer]/[toFile]: the PNG of the symbol, or a failure *)
  qr_png : list N -> QROptions -> option (list N);
  (** whether [loadImage] can decode these bytes *)
  image_decodes : list N -> bool;
  (** the bytes served at a URL, if any *)
  fetch_url : list N -> option (list N);
  (** the bytes of a PNG that follow the width and height *)
  png_rest : Canvas -> list N;
  (** whether the local disk takes a write to this path *)
  fs_write_ok : list N -> bool;
  (** whether the local disk lets the file at this path be removed *)
  fs_unlink_ok : list N -> bool;
  (** whether Cloudinary accepts the n-th upload call of the process *)
  cloud_accepts : nat -> bool;
  (** the identifier Cloudinary gives an upload that names none *)
  cloud_random_id : nat -> list N;
  cloud_secure_url : CloudObject -> list N
}.

Definition toBuffer_png (E : Env) (c : Canvas) : list N :=
  pngHeader (canvas_width c) (canvas_height c) ++ png_rest E c.

(** ** Effects

    What a request can observe and change: the files of the local disk, the
    objects stored at Cloudinary, and the trace of the calls made to the
    rendering libraries, the disk and the storage provider. *)
Inductive Event :=
| EvQREncode (text : list N) (opts : QROptions)
| EvCreateCanvas (w h : Z)
| EvLoadImage (src : ImageSource)
| EvToBuffer (w h : Z)
| EvWriteFile (p : list N)
| EvUnlink (p : list N)
| EvUpload (dest : list N) (id : option (list N)).

Record World := {
  files : gmap (list N) (list N);
  cloud : list CloudObject;
  upload_calls : nat;
  events : list Event
}.

Inductive Error :=
| FrontTemplateNotFound (p : list N)
| BackTemplateNotFound (p : list N)
| QRCodeError
| LoadImageError (src : ImageSource)
| WriteError (p : list N)
| UploadError
| TypeError
| FileFilterError
| LimitFileSize.

Inductive Outcome (A : Type) :=
| Returned (a : A)
| Thrown (e : Error).
Arguments Returned {A} a.
Arguments Thrown {A} e.

Definition IO (A : Type) : Type := World -> Outcome A * World.

Definition ret {A} (a : A) : IO A := fun w => (Returned a, w).
Definition throw {A} (e : Error) : IO A := fun w => (Thrown e, w).
Definition bind {A B} (m : IO A) (k : A -> IO B) : IO B :=
  fun w => match m w with
           | (Returned a, w') => k a w'
           | (Thrown e, w') => (Thrown e, w')
           end.

Declare Scope io_scope.
Delimit Scope io_scope with io.
Notation "'await' x <- m ; k" := (bind m (fun x => k))
  (at level 10, x name, m at level 100, k at level 200) : io_scope.
Notation "'do' m ; k" := (bind m (fun _ => k))
  (at level 10, m at level 100, k at level 200) : io_scope.

(** The changes a call makes to the world. *)
Definition emit (ev : Event) (w : World) : World :=
  {| files := files w; cloud := cloud w; upload_calls := upload_calls w;
     events := events w ++ [ev] |}.

Definition written (p bytes : list N) (w : World) : World :=
  {| files := <[p := bytes]> (files w); cloud := cloud w;
     upload_calls := upload_calls w; events := events w ++ [EvWriteFile p] |}.

Definition unlinked (p : list N) (w : World) : World :=
  {| files := delete p (files w); cloud := cloud w;
     upload_calls := upload_calls w; events := events w ++ [EvUnlink p] |}.

Definition uploaded (id : option (list N)) (obj : CloudObject) (w : World) : World :=
  {| files := files w; cloud := cloud w ++ [obj]; upload_calls := S (upload_calls w);
     events := events w ++ [EvUpload (folder obj) id] |}.

Definition refused (dest : list N) (id : option (list N)) (w : World) : World :=
  {| files := files w; cloud := cloud w; upload_calls := S (upload_calls w);
     events := events w ++ [EvUpload dest id] |}.

Section Primitives.
Variable E : Env.

Definition existsSync (p : list N) : IO bool :=
  fun w => (Returned (bool_decide (is_Some (files w !! p))), w).

(** [fs.writeFile] and the write of a stream to a file. *)
Definition writeFile (p : list N) (bytes : list N) : IO unit :=
  fun w =>
    if fs_write_ok E p
    then (Returned tt, written p bytes w)
    else (Thrown (WriteError p), emit (EvWriteFile p) w).

(** [fs.unlink] as multer calls it to remove an upload: a failure is noted
    aside and does not change the error the request ends with. *)
Definition removeUploaded (p : list N) : IO unit :=
  fun w =>
    (Returned tt, if fs_unlink_ok E p then unlinked p w else emit (EvUnlink p) w).

Definition QRCode_toBuffer (text : list N) (opts : QROptions) : IO (list N) :=
  fun w =>
    match qr_png E text opts with
    | Some png => (Returned png, emit (EvQREncode text opts) w)
    | None => (Thrown QRCodeError, emit (EvQREncode text opts) w)
    end.

Definition QRCode_toFile (p : list N) (text : list N) (opts : QROptions) : IO unit :=
  (await png <- QRCode_toBuffer text opts; writeFile p png)%io.

Definition sourceBytes (src : ImageSource) (w : World) : option (list N) :=
  match src with
  | FromPath p => files w !! p
  | FromBuffer b => Some b
  | FromUrl u => fetch_url E u
  end.

Definition loadImage (src : ImageSource) : IO Image :=
  fun w =>
    match sourceBytes src w with
    | Some bytes =>
        if image_decodes E bytes
        then (Returned {| image_bytes := bytes |}, emit (EvLoadImage src) w)
        else (Thrown (LoadImageError src), emit (EvLoadImage src) w)
    | None => (Thrown (LoadImageError src), emit (EvLoadImage src) w)
    end.

Definition newCanvas (w h : Z) : IO Canvas :=
  fun wd => (Returned (createCanvas w h), emit (EvCreateCanvas w h) wd).

Definition toBuffer (c : Canvas) : IO (list N) :=
  fun w => (Returned (toBuffer_png E c),
            emit (EvToBuffer (canvas_width c) (canvas_height c)) w).

(** [cloudinary.uploader.upload_stream(options, callback)] followed by
    [uploadStream.end(buffer)], wrapped in a promise: one call, settled by
    the callback. *)
Definition upload_stream (dest : list N) (id : option (list N))
    (tr : option Size) (bytes : list N) : IO CloudObject :=
  fun w =>
    let n := upload_calls w in
    if cloud_accepts E n
    then
      let obj := {| folder := dest; public_id := default (cloud_random_id E n) id;
                    transformation := tr; data := bytes |} in
      (Returned obj, uploaded id obj w)
    else (Thrown UploadError, refused dest id w).

Definition TEMPLATES_FOLDER : list N := Path.join [dirname E; js "static"].

Definition fontFamily : string :=
  if fontLoaded E then "ArialBold" else "Arial, sans-serif".

(** The drawing of the front card, from [createCanvas] to the last
    [drawImage]; the same statements in both versions. *)
Definition drawFront (frontTemplatePath : list N) (qrSource photoSource : ImageSource)
  : IO Canvas :=
  (await frontCanvas <- newCanvas CARD_WIDTH CARD_HEIGHT;
   await frontTemplate <- loadImage (FromPath frontTemplatePath);
   let c1 := drawImage frontTemplate 0 0 CARD_WIDTH CARD_HEIGHT frontCanvas in
   await qrImage <- loadImage qrSource;
   let c2 := drawImage qrImage (x QR_POSITION) (y QR_POSITION)
               (width QR_SIZE) (height QR_SIZE) c1 in
   await photoImage <- loadImage photoSource;
   ret (drawImage photoImage (x PHOTO_POSITION) (y PHOTO_POSITION)
          (width PHOTO_SIZE) (height PHOTO_SIZE) c2))%io.

(** The text of the back card, drawn on a canvas that already shows the
    template. *)
Definition backText (d : CardData) (c0 : Canvas) : Canvas :=
  let c1 := set_fillStyle "#000000" c0 in
  let c2 := set_font {| font_px := ptToPx_pixels (binary64_of_Z 7);
                        font_family := fontFamily |} c1 in
  let c3 := fillText (toUpperCase (unicode E) (name d))
              (0.74 * CM_TO_PX)
              (0.60 * CM_TO_PX + inject_Z (ptToPx_pixels (binary64_of_Z 7))) c2 in
  let c4 := set_font {| font_px := ptToPx_pixels (binary64_literal 4319 1000);
                        font_family := fontFamily |} c3 in
  let blockX := (1.81 * CM_TO_PX)%Q in
  let c5 := fillText (faculty d) blockX
              (1.03 * CM_TO_PX + inject_Z (ptToPx_pixels (binary64_literal 4319 1000))) c4 in
  let c6 := fillText (dept d) blockX
              (1.38 * CM_TO_PX + inject_Z (ptToPx_pixels (binary64_literal 4319 1000))) c5 in
  let c7 := fillText (reg d) blockX
              (1.73 * CM_TO_PX + inject_Z (ptToPx_pixels (binary64_literal 4319 1000))) c6 in
  let c8 := fillText (gender d) blockX
              (2.08 * CM_TO_PX + inject_Z (ptToPx_pixels (binary64_literal 4319 1000))) c7 in
  let c9 := set_font {| font_px := ptToPx_pixels (binary64_of_Z 6);
                        font_family := fontFamily |} c8 in
  let expX := (0.74 * CM_TO_PX)%Q in
  let c10 := fillText (js "EXPIRY") expX
               (3.87 * CM_TO_PX + inject_Z (ptToPx_pixels (binary64_of_Z 6))) c9 in
  fillText (expiry d) expX
    (4.17 * CM_TO_PX + inject_Z (ptToPx_pixels (binary64_of_Z 6))) c10.

(** The drawing of the back card, from [createCanvas] to the last
    [fillText]. *)
Definition drawBack (backTemplatePath : list N) (d : CardData) : IO Canvas :=
  (await backCanvas <- newCanvas CARD_WIDTH CARD_HEIGHT;
   await backTemplate <- loadImage (FromPath backTemplatePath);
   ret (backText d (drawImage backTemplate 0 0 CARD_WIDTH CARD_HEIGHT backCanvas)))%io.

End Primitives.

(** ** HTTP *)

(** The requests to [/generate] that are modelled: multipart requests in
    which every text field arrives once, under a plain name without
    brackets, and which carry at most one file part, in the field [photo].
    For these every value of [req.body] is a string, as in the data model of
    the specification.  A request is the text fields that precede the file
    part, the file part if there is one, and the text fields that follow it.
    Requests that repeat a field name, write one with brackets, or carry
    other file parts reach the handler with arrays or objects in [req.body],
    or do not reach it at all; they are outside this model. *)
Record Request := {
  fields_before : gmap string (list N);
  photo : option FilePart;
  fields_after : gmap string (list N)
}.

(** [req.body] once the whole request has been parsed. *)
Definition body (r : Request) : gmap string (list N) :=
  fields_before r ∪ fields_after r.

Inductive ResponseBody :=
| JsonError (error : string)
| JsonException (e : Error)              (* the message of a caught error *)
| JsonSuccess (frontUrl backUrl : list N)
| File (p : list N).

Record Response := { status : Z; payload : ResponseBody }.

(** The error-handling middleware at the end of the chain. *)
Definition errorHandler (e : Error) : Response :=
  match e with
  | LimitFileSize => {| status := 413; payload := JsonError "File too large (max 16MB)" |}
  | _ => {| status := 500; payload := JsonException e |}
  end.

(** ** The version that stores on the local disk *)

Module Disk.
Section Server.
Variable E : Env.

Definition UPLOAD_FOLDER : list N := Path.join [dirname E; js "static"; js "uploads"].
Definition OUTPUT_FOLDER : list N := Path.join [dirname E; js "static"; js "id_cards"].

(** The [filename] callback of [multer.diskStorage]; [seen] is [req.body]
    as parsed when the file part arrives. *)
Definition filename (seen : gmap string (list N)) (file : FilePart) : list N :=
  let reg := if truthy_prop (seen !! "reg") then prop seen "reg" else js "temp" in
  let ext := Path.extname (originalname file) in
  let safeReg := sanitizeReg reg in
  safeReg ++ js "_photo" ++ ext.

(** [upload.single('photo')] with the disk storage engine.  The filter is
    asked when the file part begins.  An accepted part is streamed to its
    final path, the destination and the name being chosen at that moment: a
    part within the size limit is stored whole, and the result is
    [req.file.path].  A larger part is cut at the limit: what has been
    written is removed again and the request fails with [LIMIT_FILE_SIZE],
    so that a file that was at that path before is lost. *)
Definition upload_single (r : Request) : IO (option (list N)) :=
  match photo r with
  | None => ret None
  | Some file =>
      if negb (fileFilter (unicode E) file) then throw FileFilterError
      else
        let p := Path.join [UPLOAD_FOLDER; filename (fields_before r) file] in
        if (FILE_SIZE_LIMIT <? fileSize file)%N then
          (do writeFile E p (firstBytes FILE_SIZE_LIMIT (content file));
           do removeUploaded E p;
           throw LimitFileSize)%io
        else (do writeFile E p (content file); ret (Some p))%io
  end.

Definition generateQRCode (d : CardData) (outputPath : list N) : IO unit :=
  let qrText := qrText (name d) (reg d) (dept d) in
  QRCode_toFile E outputPath qrText qrOptions.

Definition qrFile (safeReg : list N) : list N := js "futo_" ++ safeReg ++ js "_qr.png".
Definition frontFile (safeReg : list N) : list N := js "futo_" ++ safeReg ++ js "_front.png".
Definition backFile (safeReg : list N) : list N := js "futo_" ++ safeReg ++ js "_back.png".

Definition generateIDCard (formData : CardData) (photoPath : list N)
  : IO (list N * list N) :=
  let safeReg := sanitizeReg (reg formData) in
  let qrPath := Path.join [OUTPUT_FOLDER; qrFile safeReg] in
  (do generateQRCode formData qrPath;
   let frontTemplatePath := Path.join [TEMPLATES_FOLDER E; js "front_template.png"] in
   let backTemplatePath := Path.join [TEMPLATES_FOLDER E; js "back_template.png"] in
   await frontExists <- existsSync frontTemplatePath;
   if negb frontExists then throw (FrontTemplateNotFound frontTemplatePath) else
   await backExists <- existsSync backTemplatePath;
   if negb backExists then throw (BackTemplateNotFound backTemplatePath) else
   await frontCanvas <- drawFront E frontTemplatePath (FromPath qrPath) (FromPath photoPath);
   let frontOutput := Path.join [OUTPUT_FOLDER; frontFile safeReg] in
   await frontBuffer <- toBuffer E frontCanvas;
   do writeFile E frontOutput frontBuffer;
   await backCanvas <- drawBack E backTemplatePath formData;
   let backOutput := Path.join [OUTPUT_FOLDER; backFile safeReg] in
   await backBuffer <- toBuffer E backCanvas;
   do writeFile E backOutput backBuffer;
   ret (frontOutput, backOutput))%io.

(** [app.post('/generate', upload.single('photo'), handler)] with the
    error-handling middleware behind it. *)
Definition generate (r : Request) (w : World) : Response * World :=
  match upload_single r w with
  | (Thrown e, w1) => (errorHandler e, w1)
  | (Returned file, w1) =>
      match validateFormInput (body r) with
      | Invalid error => ({| status := 400; payload := JsonError error |}, w1)
      | Valid =>
          match file with
          | None => ({| status := 400; payload := JsonError "No photo uploaded" |}, w1)
          | Some photoPath =>
              let run :=
                match cardData (body r) with
                | Some d => generateIDCard d photoPath
                | None => throw TypeError
                end in
              match run w1 with
              | (Returned (frontOutput, _), w2) =>
                  ({| status := 200; payload := File frontOutput |}, w2)
              | (Thrown e, w2) =>
                  ({| status := 500; payload := JsonException e |}, w2)
              end
          end
      end
  end.

(** [app.get('/download-back/:reg')]. *)
Definition backPath (reg : list N) : list N :=
  Path.join [OUTPUT_FOLDER; backFile (sanitizeReg reg)].

Definition download_back (reg : list N) (w : World) : Response :=
  if bool_decide (is_Some (files w !! backPath reg))
  then {| status := 200; payload := File (backPath reg) |}
  else {| status := 404; payload := JsonError "Back card not found" |}.

End Server.
End Disk.

(** ** The version that stores at Cloudinary *)

Module Cloud.
Section Server.
Variable E : Env.

(** [upload.single('photo')] with [multer.memoryStorage()]: the accepted
    file stays in memory as [req.file.buffer]. *)
Definition upload_single (r : Request) : IO (option (list N)) :=
  match photo r with
  | None => ret None
  | Some file =>
      if negb (fileFilter (unicode E) file) then throw FileFilterError
      else if (FILE_SIZE_LIMIT <? fileSize file)%N then throw LimitFileSize
      else ret (Some (content file))
  end.

Definition generateQRCode (d : CardData) : IO (list N) :=
  let qrText := qrText (name d) (reg d) (dept d) in
  QRCode_toBuffer E qrText qrOptions.

Definition GENERATED : list N := js "futo-id-cards/generated".
Definition UPLOADS : list N := js "futo-id-cards/uploads".

Definition frontId (safeReg : list N) : list N := js "futo_" ++ safeReg ++ js "_front".
Definition backId (safeReg : list N) : list N := js "futo_" ++ safeReg ++ js "_back".

Definition generateIDCard (formData : CardData) (photoUrl : list N)
  : IO (list N * list N) :=
  let safeReg := sanitizeReg (reg formData) in
  (await qrBuffer <- generateQRCode formData;
   let frontTemplatePath := Path.join [TEMPLATES_FOLDER E; js "front_template.png"] in
   let backTemplatePath := Path.join [TEMPLATES_FOLDER E; js "back_template.png"] in
   await frontExists <- existsSync frontTemplatePath;
   if negb frontExists then throw (FrontTemplateNotFound frontTemplatePath) else
   await backExists <- existsSync backTemplatePath;
   if negb backExists then throw (BackTemplateNotFound backTemplatePath) else
   await frontCanvas <- drawFront E frontTemplatePath (FromBuffer qrBuffer) (FromUrl photoUrl);
   await frontBuffer <- toBuffer E frontCanvas;
   await frontUploadResult <-
     upload_stream E GENERATED (Some (frontId safeReg)) None frontBuffer;
   await backCanvas <- drawBack E backTemplatePath formData;
   await backBuffer <- toBuffer E backCanvas;
   await backUploadResult <-
     upload_stream E GENERATED (Some (backId safeReg)) None backBuffer;
   ret (cloud_secure_url E frontUploadResult, cloud_secure_url E backUploadResult))%io.

(** The body of the [/generate] handler after the two early returns. *)
Definition uploadAndGenerate (formData : gmap string (list N)) (buffer : list N)
  : IO (list N * list N) :=
  (await uploadResult <-
     upload_stream E UPLOADS None (Some {| width := 280; height := 280 |}) buffer;
   let photoUrl := cloud_secure_url E uploadResult in
   match cardData formData with
   | Some d => generateIDCard d photoUrl
   | None => throw TypeError
   end)%io.

Definition generate (r : Request) (w : World) : Response * World :=
  match upload_single r w with
  | (Thrown e, w1) => (errorHandler e, w1)
  | (Returned file, w1) =>
      match validateFormInput (body r) with
      | Invalid error => ({| status := 400; payload := JsonError error |}, w1)
      | Valid =>
          match file with
          | None => ({| status := 400; payload := JsonError "No photo uploaded" |}, w1)
          | Some buffer =>
              match uploadAndGenerate (body r) buffer w1 with
              | (Returned (frontUrl, backUrl), w2) =>
                  ({| status := 200; payload := JsonSuccess frontUrl backUrl |}, w2)
              | (Thrown e, w2) =>
                  ({| status := 500; payload := JsonException e |}, w2)
              end
          end
      end
  end.

End Server.
End Cloud.

(** ** The specification's vocabulary

    Predicates that follow the words of the specification, to be compared
    with the functions above. *)

(** The character class [[A-Za-z0-9 ._/-]], letter by letter. *)
Definition regAlphabet : list N :=
  js "ABCDEFGHIJKLMNOPQRSTUVWXYZabcdefghijklmnopqrstuvwxyz0123456789 ._/-".

(** The character class [[A-Za-z0-9_-]]. *)
Definition safeAlphabet : list N :=
  js "ABCDEFGHIJKLMNOPQRSTUVWXYZabcdefghijklmnopqrstuvwxyz0123456789_-".

(** A field is present and non-empty after trimming. *)
Definition Present (data : gmap string (list N)) (field : string) : Prop :=
  ∃ v, data !! field = Some v ∧ trim v ≠ [].

(** The constraints on a form, as the data model lists them; lengths count
    UTF-16 code units, as [String.prototype.length] does. *)
Definition Acceptable (data : gmap string (list N)) : Prop :=
  (∀ field, field ∈ required → Present data field) ∧
  (∀ v, data !! "name" = Some v → length v ≤ 100) ∧
  (∀ v, data !! "reg" = Some v → length v ≤ 50 ∧ ∀ c, c ∈ v → c ∈ regAlphabet).





(** A plain file name: not empty, without a separator, and neither [.] nor
    [..]. *)
Definition plainName (seg : list N) : Prop :=
  seg ≠ [] ∧ (Path.SLASH ∉ seg) ∧ Path.isDot seg = false ∧ Path.isDotDot seg = false.

(** [p] names the entry [file] directly inside the folder [dir]. *)
Definition directlyInside (dir file p : list N) : Prop :=
  plainName file ∧ p = dir ++ Path.SLASH :: file.


(** The upload middleware lets the request through: it carries no photo, or
    a photo that passes the filter and the size limit. *)
Definition photoAccepted (U : CaseTable) (r : Request) : bool :=
  match photo r with
  | None => true
  | Some file => fileFilter U file && (fileSize file <=? FILE_SIZE_LIMIT)%N
  end.

(** The names that normalization keeps of an absolute installation
    directory. *)
Definition installSegments (E : Env) : list (list N) :=
  rev (fold_left (Path.normalizeStep false) (Path.segments (dirname E)) []).

(** A step from [w] to [w'] that leaves the disk and the provider's store
    alone and makes no upload call. *)
Definition sameStores (w w' : World) : Prop :=
  files w' = files w ∧ cloud w' = cloud w ∧ upload_calls w' = upload_calls w.

(** The number of image buffers that have been encoded from a canvas. *)
Definition buffersEncoded (w : World) : nat :=
  length (List.filter (fun ev => match ev with EvToBuffer _ _ => true | _ => false end)
            (events w)).

(** The file types the upload filter is meant to let through. *)
Definition allowList : list (list N) := [js "jpeg"; js "jpg"; js "png"; js "gif"].

(** ** Sample data

    The request of the specification's scenario and a small installation to
    run it in: the application lives in [/srv/app], both templates are on the
    disk, every image decodes, the disk takes every write, and the QR library
    encodes any text that fits a QR symbol (none holds more than 7089
    characters). *)

Definition janeDoe : CardData :=
  {| name := js "Jane Doe"; reg := js "2020/1234567"; dept := js "Computer Science";
     faculty := js "SICT"; gender := js "Female"; expiry := js "2024/2025" |}.

Definition janeForm : gmap string (list N) :=
  <["name" := js "Jane Doe"]> (<["reg" := js "2020/1234567"]>
  (<["dept" := js "Computer Science"]> (<["faculty" := js "SICT"]>
  (<["gender" := js "Female"]> (<["expiry" := js "2024/2025"]> ∅))))).

Definition samplePhoto : FilePart :=
  {| originalname := js "jane.png"; mimetype := js "image/png";
     content := [137; 80; 78; 71]%N |}.

(** A file that is no image by its name or by its declared type. *)
Definition notesFile : FilePart :=
  {| originalname := js "notes.jpgx"; mimetype := js "text/x-gif-notes";
     content := [104; 105]%N |}.

Definition bmpFile : FilePart :=
  {| originalname := js "jane.bmp"; mimetype := js "image/bmp";
     content := [66; 77]%N |}.


(** The scenario's request with a very long department name. *)
Definition longDept : list N := repeat 65%N (N.to_nat 8000).

Definition longForm : gmap string (list N) := <["dept" := longDept]> janeForm.

Definition longCard : CardData :=
  {| name := js "Jane Doe"; reg := js "2020/1234567"; dept := longDept;
     faculty := js "SICT"; gender := js "Female"; expiry := js "2024/2025" |}.

Definition sampleEnv (accepts : nat -> bool) : Env :=
  {| dirname := js "/srv/app";
     fontLoaded := true;
     unicode := latinOnly;
     qr_png := fun text _ =>
       if (7089 <? N.of_nat (length text))%N then None else Some (pngHeader 150 150);
     image_decodes := fun _ => true;
     fetch_url := fun u => Some (pngHeader 280 280);
     png_rest := fun _ => [];
     fs_write_ok := fun _ => true;
     fs_unlink_ok := fun _ => true;
     cloud_accepts := accepts;
     cloud_random_id := fun n => js "photo";
     cloud_secure_url := fun o =>
       js "https://res.cloudinary.com/demo/" ++ folder o ++ js "/" ++ public_id o |}.

Definition sampleWorld : World :=
  {| files := <[js "/srv/app/static/front_template.png" := pngHeader 1012 638]>
              (<[js "/srv/app/static/back_template.png" := pngHeader 1012 638]> ∅);
     cloud := []; upload_calls := 0; events := [] |}.

(** The same installation without its templates. *)
Definition bareWorld : World :=
  {| files := ∅; cloud := []; upload_calls := 0; events := [] |}.

(** * Further parts of the code *)

(** ** The scan of [path.extname]

    What the backwards scan knows once it has looked at the positions from
    [n] on: the path ends in slashes from [endPos] on (everywhere from [n]
    on while no other character has been seen), no slash lies between [n]
    and [endPos], and [startDot] is the last dot before [endPos], if one has
    been seen. *)
Definition scanned (p : list N) (n : nat) (st : Path.ExtScan) : Prop :=
  (Path.matchedSlash st = true ↔ Path.endPos st = (-1)%Z) ∧
  (Path.endPos st = (-1)%Z →
     Path.startDot st = (-1)%Z ∧
     ∀ j, n ≤ j < length p → nth j p 0%N = Path.SLASH) ∧
  (Path.endPos st ≠ (-1)%Z →
     (Z.of_nat n <= Path.endPos st <= Z.of_nat (length p))%Z ∧
     (∀ j, (Path.endPos st <= Z.of_nat j)%Z → j < length p → nth j p 0%N = Path.SLASH) ∧
     (∀ j, (Z.of_nat n <= Z.of_nat j < Path.endPos st)%Z → nth j p 0%N ≠ Path.SLASH) ∧
     (Path.startDot st = (-1)%Z →
        ∀ j, (Z.of_nat n <= Z.of_nat j < Path.endPos st)%Z → nth j p 0%N ≠ Path.DOT) ∧
     (Path.startDot st ≠ (-1)%Z →
        (Z.of_nat n <= Path.startDot st < Path.endPos st)%Z ∧
        nth (Z.to_nat (Path.startDot st)) p 0%N = Path.DOT ∧
        ∀ j, (Path.startDot st < Z.of_nat j < Path.endPos st)%Z →
             nth j p 0%N ≠ Path.DOT)).

(** The scan has found an extension: it starts at the dot [startDot], ends
    before [endPos], holds no slash and no second dot, and only slashes
    follow it. *)
Definition extensionAt (p : list N) (st : Path.ExtScan) : Prop :=
  (0 <= Path.startDot st < Path.endPos st)%Z ∧
  (Path.endPos st <= Z.of_nat (length p))%Z ∧
  nth (Z.to_nat (Path.startDot st)) p 0%N = Path.DOT ∧
  (∀ j, (Path.startDot st <= Z.of_nat j < Path.endPos st)%Z → nth j p 0%N ≠ Path.SLASH) ∧
  (∀ j, (Path.startDot st < Z.of_nat j < Path.endPos st)%Z → nth j p 0%N ≠ Path.DOT) ∧
  (∀ j, (Path.endPos st <= Z.of_nat j)%Z → j < length p → nth j p 0%N = Path.SLASH).

(** The scenario's request as a client sends it: the six fields, then the
    photo. *)
Definition janeRequest : Request :=
  {| fields_before := janeForm; photo := Some samplePhoto; fields_after := ∅ |}.

(** A photo of one byte more than the size limit, the request that carries
    it, and an installation in which an earlier request has stored a photo
    for the same registration number. *)
Definition largePhoto : FilePart :=
  {| originalname := js "jane.png"; mimetype := js "image/png";
     content := repeat 0%N (N.to_nat (FILE_SIZE_LIMIT + 1)) |}.

Definition largeRequest : Request :=
  {| fields_before := janeForm; photo := Some largePhoto; fields_after := ∅ |}.

Definition earlierUpload : World :=
  written (js "/srv/app/static/uploads/2020_1234567_photo.png") (content samplePhoto)
    sampleWorld.


(** ** Start-up: the font *)

(** The lines the start-up code prints about the font. *)
Inductive FontLog :=
| FontLoadedFrom (p : list N)
| FontFailed (p : list N)
| NoCustomFont.

Section Fonts.

Variable E : Env.

(** Whether registering the font file at a path goes through; [false]
    stands for a call that throws. *)
Variable register_ok : list N -> bool.

Definition fontPaths : list (list N) :=
  [Path.join [dirname E; js "fonts"; js "arialbd.ttf"];
   Path.join [dirname E; js "fonts"; js "Arial-Bold.ttf"];
   js "C:\Windows\Fonts\arialbd.ttf";
   js "/System/Library/Fonts/Supplemental/Arial Bold.ttf";
   js "/usr/share/fonts/truetype/dejavu/DejaVuSans-Bold.ttf"].

(** The [for] loop over the candidates: the registered path, if any, and the
    lines printed. *)
Fixpoint registerFonts (disk : gmap (list N) (list N)) (candidates : list (list N))
  : option (list N) * list FontLog :=
  match candidates with
  | [] => (None, [])
  | fontPath :: rest =>
      if bool_decide (is_Some (disk !! fontPath)) then
        if register_ok fontPath
        then (Some fontPath, [FontLoadedFrom fontPath])
        else let (loaded, log) := registerFonts disk rest in
             (loaded, FontFailed fontPath :: log)
      else registerFonts disk rest
  end.

(** The value of [fontLoaded] after the loop, and everything printed. *)
Definition loadFont (disk : gmap (list N) (list N)) : bool * list FontLog :=
  let (loaded, log) := registerFonts disk fontPaths in
  match loaded with
  | Some _ => (true, log)
  | None => (false, log ++ [NoCustomFont])
  end.

End Fonts.

(** A candidate the loop can use: the file is there and registers. *)
Definition usable (register_ok : list N -> bool) (disk : gmap (list N) (list N))
    (p : list N) : Prop :=
  is_Some (disk !! p) ∧ register_ok p = true.

(** ** The hourly cleanup of the disk version

    [cleanupOldFiles] looks at time stamps only, so the disk is taken here as
    the map from the paths of its files to their modification times, in
    milliseconds.  What [readdir] lists and whether [unlink] goes through are
    the file system's; [stat] fails on a path that holds no file.  Times are
    rationals: the clock gives whole milliseconds, and the difference of two
    time stamps of one era is computed without rounding. *)

Inductive CleanupLog :=
| CleanedUp (file : list N)
| CleanupError (folder : list N).

Definition maxAge : Q := 24 * 60 * 60 * 1000.

Section Cleanup.

Variable E : Env.
Variable readdir : list N -> option (list (list N)).
Variable unlink_ok : list N -> bool.

(** The inner loop over the entries of one folder; the first component is
    [false] when a call has thrown, which ends the loop. *)
Fixpoint cleanupFiles (folder : list N) (entries : list (list N)) (now : Q)
    (disk : gmap (list N) Q) : bool * gmap (list N) Q * list CleanupLog :=
  match entries with
  | [] => (true, disk, [])
  | file :: rest =>
      let filePath := Path.join [folder; file] in
      match disk !! filePath with
      | None => (false, disk, [])
      | Some mtimeMs =>
          if negb (Qle_bool (now - mtimeMs) maxAge) then
            if unlink_ok filePath then
              let '(ok, disk', log) := cleanupFiles folder rest now (delete filePath disk) in
              (ok, disk', CleanedUp file :: log)
            else (false, disk, [])
          else cleanupFiles folder rest now disk
      end
  end.

(** The body of the outer loop: one folder, with its [try] and [catch]. *)
Definition cleanupFolder (folder : list N) (now : Q) (disk : gmap (list N) Q)
  : gmap (list N) Q * list CleanupLog :=
  match readdir folder with
  | None => (disk, [CleanupError folder])
  | Some entries =>
      let '(ok, disk', log) := cleanupFiles folder entries now disk in
      (disk', if ok then log else log ++ [CleanupError folder])
  end.

Definition cleanupOldFiles (now : Q) (disk : gmap (list N) Q)
  : gmap (list N) Q * list CleanupLog :=
  fold_left (fun acc folder =>
               let (disk', log) := cleanupFolder folder now acc.1 in
               (disk', acc.2 ++ log))
            [Disk.UPLOAD_FOLDER E; Disk.OUTPUT_FOLDER E] (disk, []).

End Cleanup.

(** A file older than the cleanup's limit. *)
Definition expired (now mtimeMs : Q) : Prop := (maxAge < now - mtimeMs)%Q.

(** A disk for the cleanup: an old and a recent photo in the upload folder,
    an old template, and an output folder whose listing cannot be read. *)
Definition sampleReaddir (folder : list N) : option (list (list N)) :=
  if bool_decide (folder = js "/srv/app/static/uploads")
  then Some [js "a.png"; js "b.png"] else None.

Definition sampleTimes : gmap (list N) Q :=
  <[js "/srv/app/static/uploads/a.png" := 0%Q]>
  (<[js "/srv/app/static/uploads/b.png" := 90000000%Q]>
  (<[js "/srv/app/static/front_template.png" := 0%Q]> ∅)).

(** ** Start-up of the Cloudinary version: the credentials *)

(** The fields [parseCloudinaryUrl] reads of a parsed URL. *)
Record UrlParts := {
  hostname : list N;
  username : list N;
  password : list N
}.

(** An object with the three credentials; [None] stands for a property
    whose value is [undefined]. *)
Record Credentials := {
  cloud_name : option (list N);
  api_key : option (list N);
  api_secret : option (list N)
}.

Definition noCredentials : Credentials :=
  {| cloud_name := None; api_key := None; api_secret := None |}.

(** The lines [parseCloudinaryUrl] can print. *)
Inductive UrlLog :=
| WarnEmptyUrl         (* CLOUDINARY_URL is set but empty *)
| WarnInvalidFormat    (* CLOUDINARY_URL has invalid format *)
| ErrorParse.          (* Failed to parse CLOUDINARY_URL *)

Section CloudinaryCredentials.

(** [new URL(url)]: the parts of the URL, or [None] when the constructor
    throws. *)
Variable new_URL : list N -> option UrlParts.

Definition parseCloudinaryUrl (url : option (list N)) : Credentials * list UrlLog :=
  if negb (truthy_prop url) then (noCredentials, [])
  else if bool_decide (url = Some []) then (noCredentials, [WarnEmptyUrl])
  else
    let u := default [] url in
    if negb (startsWith (js "cloudinary://") u) then (noCredentials, [WarnInvalidFormat])
    else match new_URL u with
         | Some urlObj =>
             ({| cloud_name := Some (hostname urlObj);
                 api_key := Some (username urlObj);
                 api_secret := Some (password urlObj) |}, [])
         | None => (noCredentials, [ErrorParse])
         end.

(** [a || b] on property values. *)
Definition orElse (a b : option (list N)) : option (list N) :=
  if truthy_prop a then a else b.

(** The object handed to [cloudinary.config], from the environment of the
    process. *)
Definition cloudinaryOptions (env : gmap string (list N)) : Credentials * list UrlLog :=
  let (cloudinaryUrlConfig, log) := parseCloudinaryUrl (env !! "CLOUDINARY_URL") in
  ({| cloud_name := orElse (env !! "CLOUDINARY_CLOUD_NAME") (cloud_name cloudinaryUrlConfig);
      api_key := orElse (env !! "CLOUDINARY_API_KEY") (api_key cloudinaryUrlConfig);
      api_secret := orElse (env !! "CLOUDINARY_API_SECRET") (api_secret cloudinaryUrlConfig) |},
   log).

End CloudinaryCredentials.

(** ** Layout *)

(** A drawn image lies within the canvas. *)
Definition withinCanvas (c : Canvas) (op : DrawOp) : Prop :=
  match op with
  | DrawImage _ dx dy dw dh =>
      (0 <= dx ∧ 0 <= dy ∧ 0 < dw ∧ 0 < dh ∧
       dx + dw <= canvas_width c ∧ dy + dh <= canvas_height c)%Z
  | FillText _ tx ty _ _ =>
      (0 <= tx)%Q ∧ (tx < inject_Z (canvas_width c))%Q ∧
      (0 <= ty)%Q ∧ (ty <= inject_Z (canvas_height c))%Q
  end.

(** Two drawn images share no pixel. *)
Definition apart (a b : DrawOp) : Prop :=
  match a, b with
  | DrawImage _ ax ay aw ah, DrawImage _ bx by_ bw bh =>
      (ax + aw <= bx ∨ bx + bw <= ax ∨ ay + ah <= by_ ∨ by_ + bh <= ay)%Z
  | _, _ => True
  end.

(** The line of text [b], as high as its font size, stands below the
    baseline of the line [a]. *)
Definition below (a b : DrawOp) : Prop :=
  match a, b with
  | FillText _ _ ya _ _, FillText _ _ yb fb _ =>
      (ya + inject_Z (font_px fb) <= yb)%Q
  | _, _ => True
  end.

(** Every element of the list stands below the one before it. *)
Fixpoint stacked (ops : list DrawOp) : Prop :=
  match ops with
  | a :: (b :: _) as rest => below a b ∧ stacked rest
  | _ => True
  end.

(** * Properties *)

(** ** Sanity checks of the library models *)

Example extname_png : Path.extname (js "me.png") = js ".png".
Proof. reflexivity. Qed.
Example extname_hidden : Path.extname (js ".bashrc") = [].
Proof. reflexivity. Qed.
Example extname_dots : Path.extname (js "a/b.c/..") = [].
Proof. reflexivity. Qed.
Example extname_two : Path.extname (js "archive.tar.gz") = js ".gz".
Proof. reflexivity. Qed.
Example join_plain : Path.join [js "/srv/app"; js "static"; js "id_cards"] = js "/srv/app/static/id_cards".
Proof. reflexivity. Qed.
Example join_up : Path.join [js "/srv/app/static/id_cards"; js "../../x.png"] = js "/srv/app/x.png".
Proof. reflexivity. Qed.

(** ** Point sizes

    [ptToPx] multiplies and divides in binary64.  The multiplication and the
    division of [SpecFloat] are first shown to give the real product and the
    real quotient rounded to nearest, ties to even ([SFmul_spec],
    [SFdiv_spec]); the bound, the monotonicity and the distance of [ptToPx]
    to the exact formula follow from that. *)

Section Binary64.
Local Open Scope Q_scope.

(** *** Powers of two *)

Lemma pow2_pos (k : Z) : 0 < 2 ^ k.
Proof. by apply Qpower_0_lt. Qed.

Lemma pow2_plus (a b : Z) : 2 ^ (a + b) == 2 ^ a * 2 ^ b.
Proof. by apply Qpower_plus. Qed.

Lemma pow2_succ (a : Z) : 2 ^ (a + 1) == 2 * 2 ^ a.
Proof. rewrite pow2_plus. change (2 ^ 1) with 2. ring. Qed.

Lemma pow2_le (a b : Z) : (a <= b)%Z → 2 ^ a <= 2 ^ b.
Proof. intros H. by apply Qpower_le_compat_l. Qed.

Lemma pow2_lt (a b : Z) : (a < b)%Z → 2 ^ a < 2 ^ b.
Proof. intros H. by apply Qpower_lt_compat_l. Qed.

Lemma pow2_lt_inv (a b : Z) : 2 ^ a < 2 ^ b → (a < b)%Z.
Proof.
  intros H. destruct (Z.lt_ge_cases a b) as [|Hge]; [done|].
  apply pow2_le in Hge. lra.
Qed.

Lemma pow2_inv (k : Z) : 2 ^ (- k) * 2 ^ k == 1.
Proof. rewrite <- pow2_plus. by replace (- k + k)%Z with 0%Z by lia. Qed.

Lemma pow2_inject (n : Z) : (0 <= n)%Z → inject_Z (2 ^ n) == 2 ^ n.
Proof. intros H. by rewrite Zpower_Qpower. Qed.

(** The scaled value [x * 2 ^ (- k)] against an integer. *)
Lemma scaled_lt (x : Q) (k n : Z) : x < 2 ^ (k + n) → x * 2 ^ (- k) < 2 ^ n.
Proof.
  intros H. pose proof (pow2_pos (- k)) as Hp. pose proof (pow2_inv k) as Hi.
  rewrite pow2_plus in H.
  assert (x * 2 ^ (- k) < 2 ^ k * 2 ^ n * 2 ^ (- k)) by nra.
  assert (2 ^ k * 2 ^ n * 2 ^ (- k) == 2 ^ n) as Heq
    by (transitivity (2 ^ n * (2 ^ (- k) * 2 ^ k)); [ring | rewrite Hi; ring]).
  lra.
Qed.

Lemma scaled_ge (x : Q) (k n : Z) : 2 ^ (k + n) <= x → 2 ^ n <= x * 2 ^ (- k).
Proof.
  intros H. pose proof (pow2_pos (- k)) as Hp. pose proof (pow2_inv k) as Hi.
  rewrite pow2_plus in H.
  assert (2 ^ k * 2 ^ n * 2 ^ (- k) <= x * 2 ^ (- k)) by nra.
  assert (2 ^ k * 2 ^ n * 2 ^ (- k) == 2 ^ n) as Heq
    by (transitivity (2 ^ n * (2 ^ (- k) * 2 ^ k)); [ring | rewrite Hi; ring]).
  lra.
Qed.

Lemma unscaled (x : Q) (k : Z) : x * 2 ^ (- k) * 2 ^ k == x.
Proof. rewrite <- Qmult_assoc, pow2_inv. ring. Qed.


Lemma unscaled_lt (x c : Q) (e : Z) : x * 2 ^ (- e) < c → x < c * 2 ^ e.
Proof.
  intros H. rewrite <- (unscaled x e) at 1.
  apply Qmult_lt_compat_r; [apply pow2_pos | done].
Qed.

Lemma unscaled_le (x c : Q) (e : Z) : c <= x * 2 ^ (- e) → c * 2 ^ e <= x.
Proof.
  intros H. rewrite <- (unscaled x e) at 1.
  apply Qmult_le_compat_r; [done | apply Qlt_le_weak, pow2_pos].
Qed.

(** *** Digits *)

Lemma digits2_pos_bounds (p : positive) :
  (2 ^ (Z.pos (digits2_pos p) - 1) <= Z.pos p < 2 ^ Z.pos (digits2_pos p))%Z.
Proof.
  induction p as [p IH|p IH|]; cbn [digits2_pos]; [| |by vm_compute].
  - rewrite Pos2Z.inj_succ.
    replace (Z.succ (Z.pos (digits2_pos p)) - 1)%Z with (Z.succ (Z.pos (digits2_pos p) - 1))%Z
      by lia.
    rewrite !Z.pow_succ_r by lia. lia.
  - rewrite Pos2Z.inj_succ.
    replace (Z.succ (Z.pos (digits2_pos p)) - 1)%Z with (Z.succ (Z.pos (digits2_pos p) - 1))%Z
      by lia.
    rewrite !Z.pow_succ_r by lia. lia.
Qed.

Lemma Zdigits2_bounds (m : Z) :
  (0 < m)%Z → (0 < Zdigits2 m)%Z ∧ (2 ^ (Zdigits2 m - 1) <= m < 2 ^ Zdigits2 m)%Z.
Proof.
  destruct m as [|p|p]; [lia| |lia]. intros _. split; [done|]. apply digits2_pos_bounds.
Qed.

(** The digits of an integer from its bounds. *)
Lemma Zdigits2_unique (m d : Z) :
  (2 ^ (d - 1) <= m < 2 ^ d)%Z → (0 < d)%Z → Zdigits2 m = d.
Proof.
  intros [Hlo Hhi] Hd.
  assert (0 < m)%Z as Hm by (pose proof (Z.pow_pos_nonneg 2 (d - 1)); lia).
  destruct (Zdigits2_bounds m Hm) as (Hpos & Hlo' & Hhi').
  destruct (Z.lt_trichotomy (Zdigits2 m) d) as [Hlt|[Heq|Hgt]]; [|done|].
  - assert (2 ^ Zdigits2 m <= 2 ^ (d - 1))%Z by (apply Z.pow_le_mono_r; lia). lia.
  - assert (2 ^ d <= 2 ^ (Zdigits2 m - 1))%Z by (apply Z.pow_le_mono_r; lia). lia.
Qed.

(** *** Locations *)

Lemma Brackets_floor (y : Q) (m : Z) (l : location) :
  Brackets y m l → inject_Z m <= y ∧ y < inject_Z m + 1.
Proof. destruct l as [|[| |]]; unfold Brackets; lra. Qed.

Lemma Brackets_ext (y y' : Q) (m : Z) (l : location) :
  y == y' → Brackets y m l → Brackets y' m l.
Proof. intros Heq. destruct l as [|[| |]]; unfold Brackets; lra. Qed.

Lemma Brackets_integer (m m' : Z) (l : location) :
  Brackets (inject_Z m) m' l → m' = m.
Proof.
  intros [Hlo Hhi]%Brackets_floor.
  change (inject_Z m' + 1) with (inject_Z m' + inject_Z 1) in Hhi.
  rewrite <- inject_Z_plus in Hhi. rewrite <- Zle_Qle in Hlo. rewrite <- Zlt_Qlt in Hhi. lia.
Qed.

Lemma inject_Z_xO (p : positive) : inject_Z (Z.pos p~0) == 2 * inject_Z (Z.pos p).
Proof. by rewrite Pos2Z.inj_xO, inject_Z_mult. Qed.

Lemma inject_Z_xI (p : positive) : inject_Z (Z.pos p~1) == 2 * inject_Z (Z.pos p) + 1.
Proof. by rewrite Pos2Z.inj_xI, inject_Z_plus, inject_Z_mult. Qed.

(** One step to the right halves the scaled value and keeps its location. *)
Lemma shr_1_brackets (y : Q) (mrs : shr_record) :
  (0 <= shr_m mrs)%Z → Brackets y (shr_m mrs) (loc_of_shr_record mrs) →
  (0 <= shr_m (shr_1 mrs))%Z ∧
  Brackets (y * (1 # 2)) (shr_m (shr_1 mrs)) (loc_of_shr_record (shr_1 mrs)).
Proof.
  destruct mrs as [m r s]. cbn [shr_m]. intros Hm.
  destruct m as [|[p|p|]|p]; [| | | |lia].
  - destruct r, s; cbn; change (inject_Z 0) with 0; (split; [lia|]); lra.
  - pose proof (inject_Z_xI p). destruct r, s; cbn; (split; [lia|]); lra.
  - pose proof (inject_Z_xO p). destruct r, s; cbn; (split; [lia|]); lra.
  - destruct r, s; cbn; change (inject_Z 0) with 0; change (inject_Z 1) with 1;
      (split; [lia|]); lra.
Qed.

Lemma iter_pos_shr_1 (p : positive) (y : Q) (mrs : shr_record) :
  (0 <= shr_m mrs)%Z → Brackets y (shr_m mrs) (loc_of_shr_record mrs) →
  (0 <= shr_m (SpecFloat.iter_pos shr_1 p mrs))%Z ∧
  Brackets (y * 2 ^ (Z.neg p)) (shr_m (SpecFloat.iter_pos shr_1 p mrs))
    (loc_of_shr_record (SpecFloat.iter_pos shr_1 p mrs)).
Proof.
  revert y mrs. induction p as [p IH|p IH|]; intros y mrs Hm Hy; cbn [SpecFloat.iter_pos].
  - destruct (shr_1_brackets y mrs Hm Hy) as [Hm1 Hy1].
    destruct (IH _ _ Hm1 Hy1) as [Hm2 Hy2]. destruct (IH _ _ Hm2 Hy2) as [Hm3 Hy3].
    split; [done|]. eapply Brackets_ext; [|exact Hy3].
    replace (Z.neg p~1) with (-1 + (Z.neg p + Z.neg p))%Z by lia.
    rewrite !pow2_plus. change (2 ^ (-1)) with (1 # 2). ring.
  - destruct (IH _ _ Hm Hy) as [Hm2 Hy2]. destruct (IH _ _ Hm2 Hy2) as [Hm3 Hy3].
    split; [done|]. eapply Brackets_ext; [|exact Hy3].
    replace (Z.neg p~0) with (Z.neg p + Z.neg p)%Z by lia.
    rewrite !pow2_plus. ring.
  - destruct (shr_1_brackets y mrs Hm Hy) as [Hm1 Hy1]. split; [done|].
    eapply Brackets_ext; [|exact Hy1]. by change (2 ^ (-1)) with (1 # 2).
Qed.

Lemma loc_of_shr_record_of_loc (m : Z) (l : location) :
  shr_m (shr_record_of_loc m l) = m ∧ loc_of_shr_record (shr_record_of_loc m l) = l.
Proof. by destruct l as [|[| |]]. Qed.

(** The exponent [shr_fexp] aligns to is the one of the binade of the value. *)
Lemma fexp_binade (x : Q) (m e k : Z) (l : location) :
  0 < x → (0 <= m)%Z → Brackets (x * 2 ^ (- e)) m l → binade x k → (e <= k)%Z →
  fexp 53 1024 (Zdigits2 m + e) = k.
Proof.
  intros Hx Hm [Hlo Hhi]%Brackets_floor (Hmin & Hup & Hlow) Hek.
  apply unscaled_le in Hlo. apply unscaled_lt in Hhi.
  unfold fexp, emin. pose proof (pow2_pos e) as Hpe.
  destruct (Z.eq_dec m 0%Z) as [->|Hne].
  - cbn [Zdigits2]. change (inject_Z 0) with 0 in *.
    assert (x < 2 ^ e) as Hxlt by lra.
    destruct Hlow as [->|Hlow]; [lia|].
    assert (k + 52 < e)%Z by (apply pow2_lt_inv; lra). lia.
  - destruct (Zdigits2_bounds m ltac:(lia)) as (Hd & Hdlo & Hdhi).
    set (d := Zdigits2 m) in *.
    assert (2 ^ (d - 1 + e) <= x) as Hxlo.
    { rewrite pow2_plus, <- pow2_inject by lia.
      rewrite Zle_Qle in Hdlo. nra. }
    assert (x < 2 ^ (d + e)) as Hxhi.
    { rewrite pow2_plus, <- pow2_inject by lia.
      assert (m + 1 <= 2 ^ d)%Z as Hle by lia.
      rewrite Zle_Qle, inject_Z_plus in Hle. change (inject_Z 1) with 1 in Hle. nra. }
    assert (d - 1 + e < k + 53)%Z by (apply pow2_lt_inv; lra).
    destruct Hlow as [->|Hlow]; [lia|].
    assert (k + 52 < d + e)%Z by (apply pow2_lt_inv; lra). lia.
Qed.

(** [shr_fexp] aligns a positive value to the exponent of its binade and
    keeps its location. *)
Lemma shr_fexp_spec (x : Q) (m e k : Z) (l : location) :
  0 < x → (0 <= m)%Z → Brackets (x * 2 ^ (- e)) m l → binade x k → (e <= k)%Z →
  ∃ mrs, shr_fexp 53 1024 m e l = (mrs, k) ∧ (0 <= shr_m mrs)%Z ∧
         Brackets (x * 2 ^ (- k)) (shr_m mrs) (loc_of_shr_record mrs).
Proof.
  intros Hx Hm Hb Hk Hek. unfold shr_fexp.
  rewrite (fexp_binade x m e k l Hx Hm Hb Hk Hek). unfold shr.
  destruct (loc_of_shr_record_of_loc m l) as [Hrm Hrl].
  destruct (k - e)%Z as [|p|p] eqn:Hke; [| |lia].
  - assert (k = e) as -> by lia. eexists. split; [done|]. by rewrite Hrm, Hrl.
  - eexists. split; [f_equal; lia|].
    destruct (iter_pos_shr_1 p (x * 2 ^ (- e)) (shr_record_of_loc m l)) as [Hm' Hb'];
      [by rewrite Hrm | by rewrite Hrm, Hrl |].
    split; [done|]. eapply Brackets_ext; [|exact Hb'].
    rewrite <- Qmult_assoc, <- pow2_plus. by replace (- e + Z.neg p)%Z with (- k)%Z by lia.
Qed.

(** *** Rounding to nearest, ties to even *)

Lemma Qfloor_unique (y : Q) (m : Z) : inject_Z m <= y → y < inject_Z m + 1 → Qfloor y = m.
Proof.
  intros Hlo Hhi. pose proof (Qfloor_le y) as Hf. pose proof (Qlt_floor y) as Hf'.
  rewrite inject_Z_plus in Hf'. change (inject_Z 1) with 1 in Hf'.
  assert (inject_Z m < inject_Z (Qfloor y) + inject_Z 1) as H1
    by (change (inject_Z 1) with 1; lra).
  assert (inject_Z (Qfloor y) < inject_Z m + inject_Z 1) as H2
    by (change (inject_Z 1) with 1; lra).
  rewrite <- inject_Z_plus, <- Zlt_Qlt in H1, H2. lia.
Qed.

Lemma roundTiesToEven_brackets (y : Q) (m : Z) (l : location) :
  Brackets y m l → round_nearest_even m l = roundTiesToEven y.
Proof.
  intros Hb. destruct (Brackets_floor y m l Hb) as [Hlo Hhi].
  unfold roundTiesToEven. rewrite (Qfloor_unique y m Hlo Hhi). cbv zeta.
  destruct (Qcompare_spec (y - inject_Z m) (1 # 2)) as [Heq|Hlt|Hgt];
    destruct l as [|[| |]]; unfold Brackets in Hb; cbn [round_nearest_even];
    try done; lra.
Qed.

Lemma roundTiesToEven_floor (y : Q) :
  (Qfloor y <= roundTiesToEven y <= Qfloor y + 1)%Z.
Proof.
  unfold roundTiesToEven. cbv zeta.
  destruct (y - inject_Z (Qfloor y) ?= 1 # 2); [destruct (Z.even (Qfloor y))| |]; lia.
Qed.

Lemma roundTiesToEven_integer (n : Z) : roundTiesToEven (inject_Z n) = n.
Proof.
  unfold roundTiesToEven. rewrite Qfloor_Z. cbv zeta.
  destruct (Qcompare_spec (inject_Z n - inject_Z n) (1 # 2)) as [Heq|Hlt|Hgt]; [lra|done|lra].
Qed.

Lemma roundTiesToEven_mono (y y' : Q) :
  y <= y' → (roundTiesToEven y <= roundTiesToEven y')%Z.
Proof.
  intros Hle. pose proof (Qfloor_resp_le y y' Hle) as Hf.
  pose proof (roundTiesToEven_floor y) as Hy. pose proof (roundTiesToEven_floor y') as Hy'.
  destruct (Z.eq_dec (Qfloor y) (Qfloor y')) as [Heq|Hne]; [|lia].
  unfold roundTiesToEven in *. cbv zeta in *. rewrite <- Heq in *.
  destruct (Qcompare_spec (y - inject_Z (Qfloor y)) (1 # 2)) as [H1|H1|H1];
    destruct (Qcompare_spec (y' - inject_Z (Qfloor y)) (1 # 2)) as [H2|H2|H2];
    try lia; try lra; destruct (Z.even (Qfloor y)); lia.
Qed.

Lemma roundTiesToEven_ge (y : Q) (n : Z) : inject_Z n <= y → (n <= roundTiesToEven y)%Z.
Proof. intros H%roundTiesToEven_mono. by rewrite roundTiesToEven_integer in H. Qed.

Lemma roundTiesToEven_le (y : Q) (n : Z) : y <= inject_Z n → (roundTiesToEven y <= n)%Z.
Proof. intros H%roundTiesToEven_mono. by rewrite roundTiesToEven_integer in H. Qed.

(** The rounded scaled value of a number of the binade [k]. *)
Lemma roundTiesToEven_binade (x : Q) (k : Z) :
  0 < x → binade x k →
  let n := roundTiesToEven (x * 2 ^ (- k)) in
  (0 <= n <= 2 ^ 53)%Z ∧ (k = (-1074)%Z ∨ (2 ^ 52 <= n)%Z).
Proof.
  intros Hx (Hmin & Hup & Hlow) n. subst n. split; [split|].
  - apply roundTiesToEven_ge. change (inject_Z 0) with 0.
    pose proof (pow2_pos (- k)). nra.
  - apply roundTiesToEven_le. rewrite pow2_inject by lia.
    apply Qlt_le_weak, scaled_lt. done.
  - destruct Hlow as [->|Hlow]; [by left|right].
    apply roundTiesToEven_ge. rewrite pow2_inject by lia. by apply scaled_ge.
Qed.

(** *** The rounding of the library *)

Lemma binary_round_aux_spec (s : bool) (x : Q) (m e k : Z) (l : location) :
  0 < x → (0 <= m)%Z → Brackets (x * 2 ^ (- e)) m l → binade x k → (e <= k)%Z →
  RoundedTo s x (binary_round_aux 53 1024 s m e l).
Proof.
  intros Hx Hm Hb Hk Hek. exists k. split; [done|]. unfold binary_round_aux.
  destruct (shr_fexp_spec x m e k l Hx Hm Hb Hk Hek) as (mrs & -> & Hm' & Hb').
  rewrite (roundTiesToEven_brackets _ _ _ Hb'). unfold rounded.
  destruct (roundTiesToEven_binade x k Hx Hk) as [[Hn0 Hn53] Hn52]. cbv zeta in *.
  set (n := roundTiesToEven (x * 2 ^ (- k))) in *.
  pose proof Hk as (Hmin & _ & _). pose proof (pow2_pos k) as Hpk.
  destruct (Z.eq_dec n 0%Z) as [Hz|Hnz].
  - (* the value rounds to zero *)
    assert (k = (-1074)%Z) as -> by (destruct Hn52 as [|H52]; [done|lia]).
    rewrite Hz. by cbn.
  - set (k' := if Z.eq_dec n (2 ^ 53)%Z then (k + 1)%Z else k).
    assert (0 < inject_Z n) as Hnpos.
    { change 0 with (inject_Z 0). rewrite <- Zlt_Qlt. lia. }
    assert (inject_Z n <= 2 ^ 53) as Hn53q.
    { rewrite <- pow2_inject by lia. by rewrite <- Zle_Qle. }
    assert (binade (inject_Z n * 2 ^ k) k') as Hk'.
    { subst k'. destruct (Z.eq_dec n (2 ^ 53)%Z) as [Heq|Hne].
      - split; [lia|]. rewrite Heq, pow2_inject by lia. split; [|right].
        + rewrite <- pow2_plus. apply pow2_lt. lia.
        + rewrite <- pow2_plus. apply pow2_le. lia.
      - split; [lia|]. split.
        + rewrite (Z.add_comm k 53), pow2_plus.
          assert (n + 1 <= 2 ^ 53)%Z as Hlt by lia.
          rewrite Zle_Qle, inject_Z_plus, pow2_inject in Hlt by lia.
          change (inject_Z 1) with 1 in Hlt. nra.
        + destruct Hn52 as [->|H52]; [by left|right].
          rewrite (Z.add_comm k 52), pow2_plus.
          rewrite Zle_Qle, pow2_inject in H52 by lia. nra. }
    destruct (shr_fexp_spec (inject_Z n * 2 ^ k) n k k' loc_Exact) as (mrs' & -> & Hm'' & Hb'');
      [nra | lia | | done | subst k'; destruct (Z.eq_dec n (2 ^ 53)%Z); lia |].
    { cbn [Brackets]. rewrite <- Qmult_assoc, (Qmult_comm (2 ^ k)), pow2_inv. ring. }
    assert (inject_Z (shr_m mrs') * 2 ^ k' == inject_Z n * 2 ^ k ∧
            (0 < shr_m mrs' < 2 ^ 53)%Z ∧ (k' = (-1074)%Z ∨ (2 ^ 52 <= shr_m mrs')%Z))
      as (Hval & Hrange & Hnormal).
    { subst k'. destruct (Z.eq_dec n (2 ^ 53)%Z) as [Heq|Hne].
      - assert (shr_m mrs' = (2 ^ 52)%Z) as ->.
        { eapply Brackets_integer, Brackets_ext; [|exact Hb''].
          rewrite Heq, !pow2_inject by lia.
          transitivity (2 ^ 53 * (2 ^ k * 2 ^ (- (k + 1)))); [ring|].
          rewrite <- !pow2_plus. f_equiv. lia. }
        split; [|split; [lia|by right]].
        rewrite Heq, !pow2_inject by lia. rewrite <- !pow2_plus. f_equiv. lia.
      - assert (shr_m mrs' = n) as ->.
        { eapply Brackets_integer, Brackets_ext; [|exact Hb''].
          rewrite <- Qmult_assoc, (Qmult_comm (2 ^ k)), pow2_inv. ring. }
        split; [done|]. split; [lia|done]. }
    destruct (shr_m mrs') as [|m''|m''] eqn:Hm3; [lia| |lia].
    assert (inject_Z (Z.pos m'') < 2 ^ 53) as Hlt53.
    { rewrite <- pow2_inject by lia. rewrite <- Zlt_Qlt. lia. }
    pose proof (pow2_pos k') as Hpk'.
    destruct (Z.leb_spec k' (1024 - 53)) as [Hfit|Hover].
    + split; [done|]. split; [done|]. rewrite <- Hval.
      assert (2 ^ 53 * 2 ^ k' <= 2 ^ 1024) as Hle
        by (rewrite <- pow2_plus; apply pow2_le; lia).
      nra.
    + split; [done|]. rewrite <- Hval.
      destruct Hnormal as [->|H52]; [lia|].
      assert (2 ^ 1024 <= 2 ^ 52 * 2 ^ k') as Hle
        by (rewrite <- pow2_plus; apply pow2_le; lia).
      rewrite Zle_Qle, pow2_inject in H52 by lia. nra.
Qed.

(** *** Binades *)

Lemma mag_binade (x : Q) (M : Z) :
  2 ^ (M - 1) <= x → x < 2 ^ M → binade x (fexp 53 1024 M).
Proof.
  intros Hlo Hhi. unfold binade, fexp, emin. split; [lia|]. split.
  - eapply Qlt_le_trans; [exact Hhi|]. apply pow2_le. lia.
  - destruct (Z.le_gt_cases (-1074) (M - 53)) as [Hn|Hs]; [right | left; lia].
    eapply Qle_trans; [|exact Hlo]. apply pow2_le. lia.
Qed.

Lemma binade_unique (x x' : Q) (k k' : Z) :
  x <= x' → binade x k → binade x' k' → (k <= k')%Z.
Proof.
  intros Hle (Hmin & Hup & Hlow) (Hmin' & Hup' & Hlow').
  destruct Hlow as [->|Hlow]; [done|].
  assert (k + 52 < k' + 53)%Z by (apply pow2_lt_inv; lra). lia.
Qed.

Lemma rounded_nonneg (x : Q) (k : Z) : 0 < x → 0 <= rounded x k.
Proof.
  intros Hx. unfold rounded. pose proof (pow2_pos k). pose proof (pow2_pos (- k)).
  assert (0 <= roundTiesToEven (x * 2 ^ (- k)))%Z as Hn.
  { apply roundTiesToEven_ge. change (inject_Z 0) with 0. nra. }
  rewrite Zle_Qle in Hn. change (inject_Z 0) with 0 in Hn. nra.
Qed.

(** Rounding is monotone, also from one binade to the next. *)
Lemma rounded_mono (x x' : Q) (k k' : Z) :
  0 < x → x <= x' → binade x k → binade x' k' → rounded x k <= rounded x' k'.
Proof.
  intros Hx Hle Hk Hk'. pose proof (binade_unique x x' k k' Hle Hk Hk') as Hkk.
  assert (0 < x') as Hx' by lra.
  destruct (roundTiesToEven_binade x k Hx Hk) as [[Hn0 Hn53] _].
  destruct (roundTiesToEven_binade x' k' Hx' Hk') as [_ Hn52]. cbv zeta in *.
  unfold rounded. pose proof (pow2_pos k) as Hpk. pose proof (pow2_pos (- k)) as Hpk'.
  destruct (Z.eq_dec k k') as [<-|Hne].
  - apply Qmult_le_compat_r; [|lra]. rewrite <- Zle_Qle.
    apply roundTiesToEven_mono. nra.
  - destruct Hn52 as [->|Hn52]; [destruct Hk as (? & _); lia|].
    rewrite Zle_Qle, pow2_inject in Hn53 by lia.
    rewrite Zle_Qle, pow2_inject in Hn52 by lia.
    pose proof (pow2_pos k') as Hpk2.
    assert (2 ^ 53 * 2 ^ k <= 2 ^ 52 * 2 ^ k') as Hstep
      by (rewrite <- !pow2_plus; apply pow2_le; lia).
    nra.
Qed.

(** *** The operations *)

Lemma inject_Z_pos (p : positive) : 0 < inject_Z (Z.pos p).
Proof. change 0 with (inject_Z 0). by rewrite <- Zlt_Qlt. Qed.

(** The product of two finite Numbers, the second one with 53 digits. *)
Lemma SFmul_spec (s1 s2 : bool) (m1 m2 : positive) (e1 e2 : Z) :
  (53 <= Z.pos (digits2_pos m2))%Z →
  RoundedTo (xorb s1 s2) (inject_Z (Z.pos m1) * 2 ^ e1 * (inject_Z (Z.pos m2) * 2 ^ e2))
    (SFmul 53 1024 (S754_finite s1 m1 e1) (S754_finite s2 m2 e2)).
Proof.
  intros Hd2. cbn [SFmul].
  set (x := inject_Z (Z.pos m1) * 2 ^ e1 * (inject_Z (Z.pos m2) * 2 ^ e2)).
  assert (x == inject_Z (Z.pos (m1 * m2)) * 2 ^ (e1 + e2)) as Hxeq.
  { subst x. rewrite Pos2Z.inj_mul, inject_Z_mult, pow2_plus. ring. }
  pose proof (inject_Z_pos (m1 * m2)) as Hmpos. pose proof (pow2_pos (e1 + e2)) as Hpe.
  assert (0 < x) as Hx by (rewrite Hxeq; nra).
  destruct (digits2_pos_bounds (m1 * m2)) as [Hlo Hhi].
  set (d := Z.pos (digits2_pos (m1 * m2))) in *.
  assert (53 <= d)%Z as Hd.
  { destruct (digits2_pos_bounds m2) as [Hlo2 _].
    assert (2 ^ 52 <= 2 ^ (Z.pos (digits2_pos m2) - 1))%Z by (apply Z.pow_le_mono_r; lia).
    assert (2 ^ 52 < 2 ^ d)%Z as Hlt by nia.
    apply Z.pow_lt_mono_r_iff in Hlt; lia. }
  apply (binary_round_aux_spec _ x _ _ (fexp 53 1024 (d + (e1 + e2)))).
  - done.
  - done.
  - cbn [Brackets]. rewrite Hxeq, <- Qmult_assoc, (Qmult_comm (2 ^ _)), pow2_inv. ring.
  - apply mag_binade; rewrite Hxeq.
    + replace (d + (e1 + e2) - 1)%Z with (d - 1 + (e1 + e2))%Z by lia.
      rewrite (pow2_plus (d - 1)), <- (pow2_inject (d - 1)) by lia.
      rewrite Zle_Qle in Hlo. nra.
    + rewrite (pow2_plus d), <- (pow2_inject d) by lia. rewrite Zlt_Qlt in Hhi. nra.
  - unfold fexp, emin. lia.
Qed.

Lemma fraction_cases (y q r m : Q) :
  0 < m → (y - q) * m == r →
  (r == 0 → y == q) ∧
  (0 < r → 2 * r < m → q < y ∧ y < q + (1 # 2)) ∧
  (2 * r == m → y == q + (1 # 2)) ∧
  (m < 2 * r → r < m → q + (1 # 2) < y ∧ y < q + 1).
Proof.
  intros Hm Hfrac. split; [|split; [|split]].
  - intros Hr. nra.
  - intros H1 H2. split; nra.
  - intros H. nra.
  - intros H1 H2. split; nra.
Qed.

(** The location of a quotient from its remainder. *)
Lemma new_location_brackets (y : Q) (q r m : Z) :
  (0 <= r < m)%Z → y * inject_Z m == inject_Z (q * m + r) →
  Brackets y q (new_location m r).
Proof.
  intros [Hr0 Hrm] Hy. rewrite inject_Z_plus, inject_Z_mult in Hy.
  assert (0 < inject_Z m) as Hm.
  { change 0 with (inject_Z 0). rewrite <- Zlt_Qlt. lia. }
  assert ((y - inject_Z q) * inject_Z m == inject_Z r) as Hfrac by lra.
  destruct (fraction_cases y (inject_Z q) (inject_Z r) (inject_Z m) Hm Hfrac)
    as (Hexact & Hbelow & Hmiddle & Habove).
  assert (inject_Z r < inject_Z m) as Hrmq by (rewrite <- Zlt_Qlt; lia).
  assert (r ≠ 0%Z → ∀ c, (2 * r ?= m)%Z = c → Brackets y q (loc_Inexact c)) as Hcmp.
  { intros Hne c <-.
    assert (0 < inject_Z r) as Hrpos.
    { change 0 with (inject_Z 0). rewrite <- Zlt_Qlt. lia. }
    destruct (Z.compare_spec (2 * r) m) as [Hc|Hc|Hc]; cbn [Brackets].
    - apply Hmiddle. rewrite <- Hc, inject_Z_mult. reflexivity.
    - rewrite Zlt_Qlt, inject_Z_mult in Hc. by apply Hbelow.
    - rewrite Zlt_Qlt, inject_Z_mult in Hc. by apply Habove. }
  unfold new_location.
  destruct (Z.even m) eqn:Heven; unfold new_location_even, new_location_odd;
    (destruct (Z.eqb_spec r 0) as [Hz|Hne]; [by apply Hexact; rewrite Hz|]);
    [by apply Hcmp|].
  destruct (Z.compare_spec (2 * r + 1) m) as [Heq|Hlt|Hgt].
  - apply Hcmp, Z.compare_lt_iff; [done|lia].
  - apply Hcmp, Z.compare_lt_iff; [done|lia].
  - apply Hcmp, Z.compare_gt_iff; [done|].
    assert (2 * r ≠ m)%Z; [|lia].
    intros <-. rewrite Z.even_mul in Heven. discriminate Heven.
Qed.

Lemma quotient_pos (x a b : Q) : 0 < a → 0 < b → x * a == b → 0 < x.
Proof. intros Ha Hb Hx. nra. Qed.

Lemma quotient_bounds (x A B L U BL BU t1 t2 : Q) :
  0 < L → L <= A → A < U → 0 < BL → BL <= B → B < BU → 0 < t1 → 0 < t2 →
  x * A == B → t1 * U == BL → t2 * L == BU → t1 <= x ∧ x < t2.
Proof.
  intros HL HLA HAU HBL HBLB HBBU Ht1 Ht2 Hx H1 H2.
  assert (0 < x) as Hx0 by nra.
  split.
  - destruct (Qlt_le_dec x t1) as [Hc|Hc]; [exfalso|done].
    assert (x * A < t1 * A) by nra. assert (t1 * A < t1 * U) by nra. lra.
  - destruct (Qlt_le_dec x t2) as [Hc|Hc]; [done|exfalso].
    assert (t2 * A <= x * A) by nra. assert (t2 * L <= t2 * A) by nra. lra.
Qed.

(** The quotient of two finite Numbers. *)
Lemma SFdiv_spec (s1 s2 : bool) (m1 m2 : positive) (e1 e2 : Z) (x : Q) :
  x * (inject_Z (Z.pos m2) * 2 ^ e2) == inject_Z (Z.pos m1) * 2 ^ e1 →
  RoundedTo (xorb s1 s2) x (SFdiv 53 1024 (S754_finite s1 m1 e1) (S754_finite s2 m2 e2)).
Proof.
  intros Hxdef. cbn [SFdiv]. unfold SFdiv_core_binary. cbn [Zdigits2].
  set (d1 := Z.pos (digits2_pos m1)). set (d2 := Z.pos (digits2_pos m2)).
  set (D := (d1 + e1 - (d2 + e2))%Z).
  set (e' := Z.min (fexp 53 1024 D) (e1 - e2)).
  set (sh := (e1 - e2 - e')%Z).
  assert (0 <= sh)%Z as Hsh by (subst sh e'; lia).
  set (m' := match sh with Z.pos _ => Z.shiftl (Z.pos m1) sh | Z0 => Z.pos m1
             | Z.neg _ => 0%Z end).
  assert (m' = (Z.pos m1 * 2 ^ sh)%Z) as Hm'.
  { subst m'. destruct sh as [|p|p] eqn:Hs; [by rewrite Z.mul_1_r| |lia].
    by rewrite Z.shiftl_mul_pow2. }
  pose proof (Z.div_eucl_eq m' (Z.pos m2) ltac:(done)) as Hdiv.
  pose proof (Z.mod_pos_bound m' (Z.pos m2) ltac:(done)) as Hmod.
  unfold Z.modulo in Hmod.
  destruct (Z.div_eucl m' (Z.pos m2)) as [q r].
  pose proof (inject_Z_pos m1) as H1. pose proof (inject_Z_pos m2) as H2.
  pose proof (pow2_pos e1) as Hp1. pose proof (pow2_pos e2) as Hp2.
  assert (0 < x) as Hx.
  { eapply quotient_pos; [| |exact Hxdef]; nra. }
  assert (0 <= q)%Z as Hq.
  { assert (0 <= m')%Z by (rewrite Hm'; apply Z.mul_nonneg_nonneg; [lia|apply Z.pow_nonneg; lia]).
    nia. }
  (* the scaled quotient *)
  assert (x * 2 ^ (- e') * inject_Z (Z.pos m2) == inject_Z m') as Hscaled.
  { rewrite Hm', inject_Z_mult. rewrite (pow2_inject sh Hsh).
    assert (2 ^ sh * 2 ^ e2 * 2 ^ e' == 2 ^ e1) as Hpow.
    { rewrite <- !pow2_plus. f_equiv. lia. }
    pose proof (pow2_inv e') as Hinv. pose proof (pow2_pos e') as Hpe'.
    pose proof (pow2_pos (- e')) as Hpne'. pose proof (pow2_pos sh) as Hpsh.
    assert (x * 2 ^ (- e') * inject_Z (Z.pos m2) * (2 ^ e2 * 2 ^ e')
            == inject_Z (Z.pos m1) * 2 ^ sh * (2 ^ e2 * 2 ^ e')) as Heq.
    { transitivity (x * (inject_Z (Z.pos m2) * 2 ^ e2) * (2 ^ (- e') * 2 ^ e')); [ring|].
      rewrite Hxdef, Hinv, <- Hpow. ring. }
    assert (0 < 2 ^ e2 * 2 ^ e') as Hpos by nra.
    nra. }
  (* the binade of the quotient *)
  destruct (digits2_pos_bounds m1) as [Hlo1 Hhi1]. destruct (digits2_pos_bounds m2) as [Hlo2 Hhi2].
  fold d1 in Hlo1, Hhi1. fold d2 in Hlo2, Hhi2.
  assert (2 ^ (D - 1) <= x ∧ x < 2 ^ (D + 1)) as [HxD HxD'].
  { rewrite Zle_Qle, pow2_inject in Hlo1, Hlo2 by (subst d1 d2; lia).
    rewrite Zlt_Qlt, pow2_inject in Hhi1, Hhi2 by (subst d1 d2; lia).
    pose proof (pow2_pos (d2 - 1)) as Hpd2. pose proof (pow2_pos (d1 - 1)) as Hpd1.
    apply (quotient_bounds x (inject_Z (Z.pos m2) * 2 ^ e2) (inject_Z (Z.pos m1) * 2 ^ e1)
             (2 ^ (d2 - 1) * 2 ^ e2) (2 ^ d2 * 2 ^ e2)
             (2 ^ (d1 - 1) * 2 ^ e1) (2 ^ d1 * 2 ^ e1)); try apply pow2_pos; try nra.
    - rewrite <- !pow2_plus. f_equiv. lia.
    - rewrite <- !pow2_plus. f_equiv. lia. }
  assert (∃ k, binade x k ∧ (e' <= k)%Z) as (k & Hk & Hek).
  { destruct (Qlt_le_dec x (2 ^ D)) as [Hc|Hc].
    - exists (fexp 53 1024 D). split; [by apply mag_binade|]. subst e'. lia.
    - exists (fexp 53 1024 (D + 1)). split.
      + apply mag_binade; [by replace (D + 1 - 1)%Z with D by lia | done].
      + subst e'. unfold fexp. lia. }
  apply (binary_round_aux_spec _ x q e' k); try done.
  apply new_location_brackets; [lia|]. rewrite Hscaled. f_equiv. lia.
Qed.

Lemma roundTiesToEven_ext (y y' : Q) : y == y' → roundTiesToEven y = roundTiesToEven y'.
Proof.
  intros Heq. unfold roundTiesToEven. cbv zeta.
  assert (Qfloor y = Qfloor y') as <- by (by apply Qfloor_comp).
  assert ((y - inject_Z (Qfloor y) ?= 1 # 2) = (y' - inject_Z (Qfloor y) ?= 1 # 2)) as <-
    by (apply Qcompare_comp; [lra | reflexivity]).
  done.
Qed.

Lemma RoundedTo_ext (s : bool) (x x' : Q) (r : spec_float) :
  x == x' → RoundedTo s x r → RoundedTo s x' r.
Proof.
  intros Heq (k & (Hmin & Hup & Hlow) & Hr). exists k. split.
  - split; [done|]. split; [lra|]. destruct Hlow as [->|Hlow]; [by left | right; lra].
  - assert (rounded x' k == rounded x k) as Hrounded.
    { unfold rounded. rewrite (roundTiesToEven_ext (x' * 2 ^ (- k)) (x * 2 ^ (- k))); [done|].
      by rewrite Heq. }
    destruct r as [s'|s'| |s' m e]; [| |done|].
    + destruct Hr as [-> Hr]. split; [done|lra].
    + destruct Hr as [-> Hr]. split; [done|lra].
    + destruct Hr as (-> & Hv & Hlt). split; [done|]. split; lra.
Qed.

(** *** The Numbers of [ptToPx] *)

Lemma DPI_eq : DPI = S754_finite false 5277655813324800 (-44).
Proof. by vm_compute. Qed.

Lemma seventy_two_eq : binary64_of_Z 72 = S754_finite false 5066549580791808 (-46).
Proof. by vm_compute. Qed.

Lemma RoundedTo_Signed (s : bool) (x : Q) (r : spec_float) : RoundedTo s x r → Signed s r.
Proof. intros (k & _ & Hr). destruct r; cbn [Signed]; tauto. Qed.

Lemma Number_value_pos (m : positive) (e : Z) : 0 < Number_value (S754_finite false m e).
Proof.
  cbn [Number_value]. pose proof (inject_Z_pos m). pose proof (pow2_pos e). nra.
Qed.

Lemma Number_value_neg (m : positive) (e : Z) : Number_value (S754_finite true m e) < 0.
Proof.
  cbn [Number_value]. pose proof (inject_Z_pos m). pose proof (pow2_pos e). nra.
Qed.

(** Rounding keeps the order of positive numbers. *)
Lemma RoundedTo_le (x x' : Q) (r r' : spec_float) :
  0 < x → x <= x' → RoundedTo false x r → RoundedTo false x' r' → Number_le r r'.
Proof.
  intros Hx Hle (k & Hk & Hr) (k' & Hk' & Hr').
  pose proof (rounded_mono x x' k k' Hx Hle Hk Hk') as Hmono.
  pose proof (rounded_nonneg x k Hx) as Hnn.
  destruct r as [s|s| |s m e]; [| | done|]; destruct r' as [s'|s'| |s' m' e']; try done;
    repeat match goal with H : _ ∧ _ |- _ => destruct H as [-> H] end;
    cbn [Number_le Number_value]; try done;
    repeat match goal with H : _ ∧ _ |- _ => destruct H as [? H] end;
    try (pose proof (inject_Z_pos m); pose proof (pow2_pos e));
    try (pose proof (inject_Z_pos m'); pose proof (pow2_pos e')); nra.
Qed.

Lemma SFmul_DPI_spec (s : bool) (m : positive) (e : Z) :
  RoundedTo s (inject_Z (Z.pos m) * 2 ^ e * (inject_Z 5277655813324800 * 2 ^ (-44)))
    (SFmul 53 1024 (S754_finite s m e) DPI).
Proof.
  rewrite DPI_eq. rewrite <- (xorb_false_r s) at 1. by apply SFmul_spec.
Qed.

Lemma SFdiv_72_spec (s : bool) (m : positive) (e : Z) :
  RoundedTo s (inject_Z (Z.pos m) * 2 ^ e * (1 # 72))
    (SFdiv 53 1024 (S754_finite s m e) (binary64_of_Z 72)).
Proof.
  rewrite seventy_two_eq. rewrite <- (xorb_false_r s) at 1. apply SFdiv_spec.
  assert (inject_Z 5066549580791808 * 2 ^ (-46) == 72) as -> by (by vm_compute).
  ring.
Qed.

Lemma SFmul_DPI_Signed (s : bool) (pt : spec_float) :
  Signed s pt → Signed s (SFmul 53 1024 pt DPI).
Proof.
  destruct pt as [s'|s'| |s' m e]; cbn [Signed]; [| |done|]; intros ->.
  - rewrite DPI_eq. cbn. apply xorb_false_r.
  - rewrite DPI_eq. cbn. apply xorb_false_r.
  - eapply RoundedTo_Signed, SFmul_DPI_spec.
Qed.

Lemma SFdiv_72_Signed (s : bool) (r : spec_float) :
  Signed s r → Signed s (SFdiv 53 1024 r (binary64_of_Z 72)).
Proof.
  destruct r as [s'|s'| |s' m e]; cbn [Signed]; [| |done|]; intros ->.
  - rewrite seventy_two_eq. cbn. apply xorb_false_r.
  - rewrite seventy_two_eq. cbn. apply xorb_false_r.
  - eapply RoundedTo_Signed, SFdiv_72_spec.
Qed.

Lemma Math_round_mono (a b : Q) : a <= b → (Math_round a <= Math_round b)%Z.
Proof. intros Hab. unfold Math_round. apply Qfloor_resp_le. lra. Qed.

Lemma Math_round_nonpositive (a : Q) : a <= 0 → (Math_round a <= 0)%Z.
Proof. intros Ha. by apply (Math_round_mono a 0). Qed.

(** [Math.max(1, Math.round(r))] of a Number. *)
Lemma max_round_bound (s : bool) (r : spec_float) :
  Signed s r →
  Math_max 1 (Number_round r) = PlusInfinity ∨
  ∃ n, Math_max 1 (Number_round r) = Integer n ∧ (1 <= n)%Z.
Proof.
  destruct r as [s'|s'| |s' m e]; cbn [Signed Number_round Math_max]; [| |done|]; intros _.
  - right. eexists. split; [done|]. lia.
  - destruct s'; [right; by exists 1%Z | by left].
  - right. eexists. split; [done|]. lia.
Qed.

Lemma max_round_negative (r : spec_float) :
  Signed true r → Math_max 1 (Number_round r) = Integer 1.
Proof.
  destruct r as [s'|s'| |s' m e]; cbn [Signed Number_round Math_max]; [| |done|]; intros ->.
  - done.
  - done.
  - f_equal.
    pose proof (Math_round_nonpositive _ (Qlt_le_weak _ _ (Number_value_neg m e))). lia.
Qed.

Lemma max_round_mono (a b : spec_float) :
  Number_le a b →
  Integral_le (Math_max 1 (Number_round a)) (Math_max 1 (Number_round b)).
Proof.
  destruct a as [sa|[|]| |sa ma ea], b as [sb|[|]| |sb mb eb];
    cbn [Number_le Number_round Math_max Integral_le]; try done; try lia;
    intros H%Math_round_mono; lia.
Qed.

(** The division by 72 keeps the order of the Numbers that are not negative. *)
Lemma SFdiv_72_mono (r r' : spec_float) :
  Signed false r → Signed false r' → Number_le r r' →
  Number_le (SFdiv 53 1024 r (binary64_of_Z 72)) (SFdiv 53 1024 r' (binary64_of_Z 72)).
Proof.
  intros Hs Hs' Hle.
  pose proof (SFdiv_72_Signed false r' Hs') as Hq'.
  destruct r as [s|s| |s m e]; cbn [Signed] in Hs; [| |done|]; subst s.
  - (* zero *)
    assert (SFdiv 53 1024 (S754_zero false) (binary64_of_Z 72) = S754_zero false) as ->
      by (by rewrite seventy_two_eq).
    destruct (SFdiv 53 1024 r' (binary64_of_Z 72)) as [s|s| |s m e];
      cbn [Signed] in Hq'; [| |done|]; subst s; cbn [Number_le Number_value];
      try done; try lra.
    pose proof (inject_Z_pos m). pose proof (pow2_pos e). nra.
  - (* infinity *)
    destruct r' as [s|s| |s m e]; cbn [Signed] in Hs'; [| |done|]; subst s; try done;
      by rewrite seventy_two_eq.
  - destruct r' as [s|s| |s m' e']; cbn [Signed] in Hs'; [| |done|]; subst s.
    + exfalso. cbn [Number_le] in Hle. pose proof (Number_value_pos m e).
      cbn [Number_value] in Hle |- *. cbn [Number_value] in H. lra.
    + assert (SFdiv 53 1024 (S754_infinity false) (binary64_of_Z 72) = S754_infinity false)
        as -> by (by rewrite seventy_two_eq).
      pose proof (SFdiv_72_Signed false (S754_finite false m e) eq_refl) as Hq.
      by destruct (SFdiv 53 1024 (S754_finite false m e) (binary64_of_Z 72)) as [| [|] | |].
    + cbn [Number_le Number_value] in Hle.
      pose proof (inject_Z_pos m). pose proof (pow2_pos e).
      eapply RoundedTo_le; [| |apply SFdiv_72_spec|apply SFdiv_72_spec]; nra.
Qed.

(** The multiplication by [DPI] keeps the order of the positive Numbers. *)
Lemma SFmul_DPI_mono (m m' : positive) (e e' : Z) :
  Number_le (S754_finite false m e) (S754_finite false m' e') →
  Number_le (SFmul 53 1024 (S754_finite false m e) DPI)
    (SFmul 53 1024 (S754_finite false m' e') DPI).
Proof.
  cbn [Number_le Number_value]. intros Hle.
  pose proof (inject_Z_pos m). pose proof (pow2_pos e).
  assert (0 < inject_Z 5277655813324800 * 2 ^ (-44)) by (by vm_compute).
  eapply RoundedTo_le; [| |apply SFmul_DPI_spec|apply SFmul_DPI_spec].
  - apply Qmult_lt_0_compat; [nra|done].
  - apply Qmult_le_compat_r; lra.
Qed.

Lemma ptToPx_bound (s : bool) (pt : spec_float) :
  Signed s pt →
  ptToPx pt = PlusInfinity ∨ ∃ n, ptToPx pt = Integer n ∧ (1 <= n)%Z.
Proof.
  intros Hs. unfold ptToPx.
  by eapply max_round_bound, SFdiv_72_Signed, SFmul_DPI_Signed.
Qed.

Lemma ptToPx_negative (pt : spec_float) : Signed true pt → ptToPx pt = Integer 1.
Proof.
  intros Hs. unfold ptToPx. by apply max_round_negative, SFdiv_72_Signed, SFmul_DPI_Signed.
Qed.

Lemma ptToPx_zero (s : bool) : ptToPx (S754_zero s) = Integer 1.
Proof. by destruct s; vm_compute. Qed.

Lemma Signed_not_NaN (pt : spec_float) : pt ≠ S754_nan → ∃ s, Signed s pt.
Proof. destruct pt as [s|s| |s m e]; [by exists s..|done|by exists s]. Qed.

Lemma Integral_le_one (pt : spec_float) (s : bool) :
  Signed s pt → Integral_le (Integer 1) (ptToPx pt).
Proof. intros [->|(n & -> & Hn)]%ptToPx_bound; by cbn. Qed.

Lemma ptToPx_mono (pt pt' : spec_float) :
  Number_le pt pt' → Integral_le (ptToPx pt) (ptToPx pt').
Proof.
  intros Hle.
  assert (∃ s', Signed s' pt') as [s' Hs'].
  { apply Signed_not_NaN. intros ->. by destruct pt as [|[|]| |]. }
  destruct pt as [s|[|]| |[|] m e]; [| | |done| |].
  - rewrite ptToPx_zero. by eapply Integral_le_one.
  - rewrite (ptToPx_negative (S754_infinity true)) by done. by eapply Integral_le_one.
  - by destruct pt' as [|[|]| |].
  - rewrite (ptToPx_negative (S754_finite true m e)) by done. by eapply Integral_le_one.
  - destruct pt' as [s1|[|]| |[|] m' e']; try done.
    + exfalso. cbn [Number_le] in Hle. pose proof (Number_value_pos m e).
      cbn [Number_value] in Hle, H. lra.
    + assert (ptToPx (S754_infinity false) = PlusInfinity) as -> by (by vm_compute).
      by destruct (ptToPx_bound false (S754_finite false m e) eq_refl)
        as [->|(n & -> & _)].
    + exfalso. cbn [Number_le] in Hle. pose proof (Number_value_pos m e).
      pose proof (Number_value_neg m' e'). lra.
    + unfold ptToPx. apply max_round_mono, SFdiv_72_mono.
      * by apply SFmul_DPI_Signed.
      * by apply SFmul_DPI_Signed.
      * by apply SFmul_DPI_mono.
Qed.

(** *** The distance to the exact value *)

Lemma roundTiesToEven_near (y : Q) :
  inject_Z (roundTiesToEven y) - y <= 1 # 2 ∧ y - inject_Z (roundTiesToEven y) <= 1 # 2.
Proof.
  pose proof (Qfloor_le y) as Hlo. pose proof (Qlt_floor y) as Hhi.
  rewrite inject_Z_plus in Hhi. change (inject_Z 1) with 1 in Hhi.
  unfold roundTiesToEven. cbv zeta.
  destruct (Qcompare_spec (y - inject_Z (Qfloor y)) (1 # 2)) as [Heq|Hlt|Hgt].
  - destruct (Z.even (Qfloor y)); [lra|].
    rewrite inject_Z_plus. change (inject_Z 1) with 1. lra.
  - lra.
  - rewrite inject_Z_plus. change (inject_Z 1) with 1. lra.
Qed.

Lemma rounded_near (x : Q) (k : Z) :
  rounded x k - x <= 2 ^ k * (1 # 2) ∧ x - rounded x k <= 2 ^ k * (1 # 2).
Proof.
  unfold rounded. pose proof (unscaled x k) as Hx. pose proof (pow2_pos k) as Hp.
  destruct (roundTiesToEven_near (x * 2 ^ (- k))) as [H1 H2].
  set (n := inject_Z (roundTiesToEven (x * 2 ^ (- k)))) in *.
  set (y := x * 2 ^ (- k)) in *. split; nra.
Qed.

Lemma binade_below (x : Q) (k N : Z) :
  binade x k → x < 2 ^ N → (-1021 <= N)%Z → (k <= N - 53)%Z.
Proof.
  intros (Hmin & _ & [->|Hlow]) Hx HN; [lia|].
  assert (k + 52 < N)%Z by (apply pow2_lt_inv; lra). lia.
Qed.

(** A positive number below [2 ^ N] rounds to a finite Number or to zero,
    at most half a unit of [2 ^ (N - 53)] away. *)
Lemma RoundedTo_near (x : Q) (r : spec_float) (N : Z) :
  0 < x → RoundedTo false x r → x < 2 ^ N → (-1021 <= N <= 1023)%Z →
  Number_round r = Integer (Math_round (Number_value r)) ∧ Signed false r ∧
  0 <= Number_value r ∧
  Number_value r - x <= 2 ^ (N - 54) ∧ x - Number_value r <= 2 ^ (N - 54).
Proof.
  intros Hx (k & Hk & Hr) HxN HN.
  pose proof (binade_below x k N Hk HxN ltac:(lia)) as HkN.
  destruct (rounded_near x k) as [H1 H2]. pose proof (rounded_nonneg x k Hx) as Hnn.
  assert (2 ^ k * (1 # 2) <= 2 ^ (N - 54)) as Hhalf.
  { assert (2 ^ k * (1 # 2) == 2 ^ (k - 1)) as ->.
    { replace (k - 1)%Z with (k + -1)%Z by lia. rewrite pow2_plus.
      by change (2 ^ (-1)) with (1 # 2). }
    apply pow2_le. lia. }
  destruct r as [s|s| |s m e]; [| |done|].
  - destruct Hr as [-> Hr]. cbn [Number_round Number_value Signed].
    do 2 (split; [done|]). split; lra.
  - exfalso. destruct Hr as [_ Hr].
    assert (2 ^ (N - 54) <= 2 ^ N) by (apply pow2_le; lia).
    assert (2 ^ N + 2 ^ N == 2 ^ (N + 1)) as Hdouble by (rewrite pow2_succ; ring).
    assert (2 ^ (N + 1) <= 2 ^ 1024) by (apply pow2_le; lia).
    lra.
  - destruct Hr as (-> & Hv & _). cbn [Number_round Number_value Signed].
    do 2 (split; [done|]). split; lra.
Qed.

Lemma Math_round_near (a b : Q) :
  a - b < 1 → b - a < 1 → (-1 <= Math_round a - Math_round b <= 1)%Z.
Proof.
  intros H1 H2. unfold Math_round.
  pose proof (Qfloor_le (a + (1 # 2))) as Ha. pose proof (Qlt_floor (a + (1 # 2))) as Ha'.
  pose proof (Qfloor_le (b + (1 # 2))) as Hb. pose proof (Qlt_floor (b + (1 # 2))) as Hb'.
  rewrite inject_Z_plus in Ha', Hb'. change (inject_Z 1) with 1 in Ha', Hb'.
  set (fa := Qfloor (a + (1 # 2))) in *. set (fb := Qfloor (b + (1 # 2))) in *.
  assert (inject_Z fa < inject_Z (fb + 2)) as Hab.
  { rewrite inject_Z_plus. change (inject_Z 2) with 2. lra. }
  assert (inject_Z fb < inject_Z (fa + 2)) as Hba.
  { rewrite inject_Z_plus. change (inject_Z 2) with 2. lra. }
  rewrite <- Zlt_Qlt in Hab, Hba. lia.
Qed.

(** Below [2 ^ 52] pixels [ptToPx] is at most one pixel away from the
    formula in exact arithmetic. *)
Lemma ptToPx_near_exact (s : bool) (m : positive) (e : Z) :
  let pt := S754_finite s m e in
  Number_value pt * 300 / 72 < 2 ^ 52 →
  ∃ n, ptToPx pt = Integer n ∧ (-1 <= n - ptToPx_exact (Number_value pt) <= 1)%Z.
Proof.
  intros pt Hsmall. destruct s.
  - (* a negative size *)
    exists 1%Z. split; [by apply ptToPx_negative|].
    pose proof (Number_value_neg m e) as Hneg. fold pt in Hneg.
    assert (Math_round (Number_value pt * 300 / 72) <= 0)%Z.
    { apply Math_round_nonpositive. unfold Qdiv.
      change (/ 72) with (1 # 72). lra. }
    unfold ptToPx_exact. lia.
  - pose proof (Number_value_pos m e) as Hpos. fold pt in Hpos.
    set (v := Number_value pt * 300 / 72) in *.
    assert (v == Number_value pt * 300 * (1 # 72)) as Hv by (by unfold v, Qdiv).
    set (X := inject_Z (Z.pos m) * 2 ^ e * 300).
    assert (X == Number_value pt * 300) as HX by (subst X pt; cbn [Number_value]; ring).
    assert (2 ^ 52 * 72 < 2 ^ 59) as Hconst by (by vm_compute).
    assert (0 < X ∧ X < 2 ^ 59) as [HX0 HX59] by (split; lra).
    assert (RoundedTo false X (SFmul 53 1024 pt DPI)) as Hproduct.
    { eapply RoundedTo_ext; [|apply SFmul_DPI_spec].
      assert (inject_Z 5277655813324800 * 2 ^ (-44) == 300) as -> by (by vm_compute).
      reflexivity. }
    destruct (RoundedTo_near X _ 59 HX0 Hproduct HX59 ltac:(lia))
      as (Hr1 & Hs1 & Hp0 & Hp1 & Hp2).
    assert (2 ^ (59 - 54) == 32) as Hc1 by (by vm_compute).
    assert (2 ^ (53 - 54) == 1 # 2) as Hc2 by (by vm_compute).
    assert (2 ^ 52 + 1 < 2 ^ 53) as Hc3 by (by vm_compute).
    unfold ptToPx, ptToPx_exact. fold v.
    assert (∃ q, Number_round (SFdiv 53 1024 (SFmul 53 1024 pt DPI) (binary64_of_Z 72))
                 = Integer (Math_round q) ∧ q - v < 1 ∧ v - q < 1) as (q & -> & Hq1 & Hq2).
    { destruct (SFmul 53 1024 pt DPI) as [s1|s1| |s1 m1 e1];
        cbn [Signed] in Hs1; [| |done|]; subst s1.
      - (* the product is zero *)
        exists 0. split; [by rewrite seventy_two_eq|].
        cbn [Number_value] in Hp1, Hp2. lra.
      - (* the product is no infinity *)
        discriminate Hr1.
      - set (P := Number_value (S754_finite false m1 e1)) in *.
        pose proof (Number_value_pos m1 e1) as HP0. fold P in HP0.
        set (x2 := inject_Z (Z.pos m1) * 2 ^ e1 * (1 # 72)).
        assert (x2 == P * (1 # 72)) as Hx2 by (subst x2 P; cbn [Number_value]; ring).
        destruct (RoundedTo_near x2 _ 53 ltac:(lra) (SFdiv_72_spec false m1 e1)
                    ltac:(lra) ltac:(lia)) as (-> & _ & _ & Hq1 & Hq2).
        eexists. split; [done|]. split; lra. }
    cbn [Math_max]. eexists. split; [done|].
    pose proof (Math_round_near q v Hq1 Hq2). lia.
Qed.

Lemma ptToPx_NaN (pt : spec_float) : ptToPx pt = NotANumber ↔ pt = S754_nan.
Proof.
  split; [|by intros ->].
  intros Hnan. destruct pt as [s|s| |s m e]; [exfalso|exfalso|done|exfalso].
  - destruct (ptToPx_bound s (S754_zero s) eq_refl) as [H|(n & H & _)]; congruence.
  - destruct (ptToPx_bound s (S754_infinity s) eq_refl) as [H|(n & H & _)]; congruence.
  - destruct (ptToPx_bound s (S754_finite s m e) eq_refl) as [H|(n & H & _)]; congruence.
Qed.

End Binary64.

(** C7, as the code has it.  [ptToPx(pt)] is [Math.max(1, Math.round(q))],
    where [q] is the quotient by 72 of the product of [pt] and 300, both
    taken in binary64: the product is the real product rounded to the
    nearest Number, ties to even, and the quotient is the real quotient of
    that rounded product, rounded in the same way.  As long as the exact
    value of [pt * 300 / 72] is below [2 ^ 52], the result is an integer at
    most 1 away from the formula in exact arithmetic.  The result is [NaN]
    only for [NaN]; for every other [pt] it is [+Infinity] or an integer
    that is at least 1; and [ptToPx] is monotonic: a larger [pt] never
    gives a smaller result.  At the three sizes the program uses, 7, 4.319
    and 6, the results are 29, 18 and 25, which are also the values of the
    formula in exact arithmetic. *)
Theorem ptToPx_formula_bound_monotone (pt : spec_float) :
  let product := SFmul 53 1024 pt DPI in
  let quotient := SFdiv 53 1024 product (binary64_of_Z 72) in
  ptToPx pt = Math_max 1 (Number_round quotient) ∧
  (∀ s m e, pt = S754_finite s m e →
     RoundedTo s (inject_Z (Z.pos m) * 2 ^ e * 300)%Q product) ∧
  (∀ s m e, product = S754_finite s m e →
     RoundedTo s (inject_Z (Z.pos m) * 2 ^ e / 72)%Q quotient) ∧
  (∀ s m e, pt = S754_finite s m e → (Number_value pt * 300 / 72 < 2 ^ 52)%Q →
     ∃ n, ptToPx pt = Integer n ∧ (-1 <= n - ptToPx_exact (Number_value pt) <= 1)%Z) ∧
  (ptToPx pt = NotANumber ↔ pt = S754_nan) ∧
  (pt ≠ S754_nan →
     ptToPx pt = PlusInfinity ∨ ∃ n, ptToPx pt = Integer n ∧ (1 <= n)%Z) ∧
  (∀ pt', Number_le pt pt' → Integral_le (ptToPx pt) (ptToPx pt')) ∧
  ptToPx (binary64_of_Z 7) = Integer (ptToPx_exact 7) ∧ ptToPx_exact 7 = 29%Z ∧
  ptToPx (binary64_literal 4319 1000) = Integer (ptToPx_exact 4.319) ∧
  ptToPx_exact 4.319 = 18%Z ∧
  ptToPx (binary64_of_Z 6) = Integer (ptToPx_exact 6) ∧ ptToPx_exact 6 = 25%Z.
Proof.
  intros product quotient. split; [done|].
  split; [|split; [|split; [|split; [|split; [|split]]]]].
  - intros s m e ->. subst product. eapply RoundedTo_ext; [|apply SFmul_DPI_spec].
    assert (inject_Z 5277655813324800 * 2 ^ (-44) == 300)%Q as -> by (by vm_compute).
    reflexivity.
  - intros s m e Hp. subst quotient. rewrite Hp.
    eapply RoundedTo_ext; [|apply SFdiv_72_spec]. by unfold Qdiv.
  - intros s m e -> Hsmall. by apply ptToPx_near_exact.
  - apply ptToPx_NaN.
  - intros [s Hs]%Signed_not_NaN. by apply (ptToPx_bound s).
  - apply ptToPx_mono.
  - by vm_compute.
Qed.

Lemma ptToPx_formula_bound_monotone_witness :
  Integral_le (ptToPx (binary64_literal 4319 1000)) (ptToPx (binary64_of_Z 6)) ∧
  RoundedTo false (inject_Z 7 * 2 ^ 0 * 300)%Q (SFmul 53 1024 (S754_finite false 7 0) DPI) ∧
  ∃ n, ptToPx (S754_finite false 6485183463413514 (-54)) = Integer n ∧
       (-1 <= n - ptToPx_exact (Number_value (S754_finite false 6485183463413514 (-54)))
        <= 1)%Z.
Proof.
  split; [|split].
  - destruct (ptToPx_formula_bound_monotone (binary64_literal 4319 1000))
      as (_ & _ & _ & _ & _ & _ & Hmono & _).
    apply Hmono. by vm_compute.
  - destruct (ptToPx_formula_bound_monotone (S754_finite false 7 0))
      as (_ & Hproduct & _).
    by apply Hproduct.
  - destruct (ptToPx_formula_bound_monotone (S754_finite false 6485183463413514 (-54)))
      as (_ & _ & _ & Hnear & _).
    apply (Hnear false 6485183463413514%positive (-54)%Z); [done | by vm_compute].
Defined.

(** C7, as stated, fails when its formula is read in exact arithmetic.  The
    Number nearest to 0.36 lies below 0.36: the formula gives 1 for it, and
    [ptToPx] gives 2, because the product rounds to 108 and the quotient to
    1.5.  The Number nearest to 2.28 lies below 2.28: [ptToPx] gives 9 for
    it, and the formula gives 10 for 2.28 itself. *)
Lemma ptToPx_differs_from_exact_formula :
  let pt := binary64_literal 36 100 in
  pt = S754_finite false 6485183463413514 (-54) ∧
  (Number_value pt < 0.36)%Q ∧
  SFmul 53 1024 pt DPI = binary64_of_Z 108 ∧
  ptToPx pt = Integer 2 ∧ ptToPx_exact (Number_value pt) = 1%Z ∧
  (Number_value (binary64_literal 228 100) < 2.28)%Q ∧
  ptToPx (binary64_literal 228 100) = Integer 9 ∧ ptToPx_exact 2.28 = 10%Z.
Proof. by vm_compute. Qed.

(** The three sizes of the back card, in pixels. *)
Example ptToPx_call_sites :
  (ptToPx_pixels (binary64_of_Z 7), ptToPx_pixels (binary64_literal 4319 1000),
   ptToPx_pixels (binary64_of_Z 6)) = (29, 18, 25)%Z.
Proof. by vm_compute. Qed.

(** ** The QR payload *)

(** C3. For every (name, reg, dept) triple the text handed to the QR library
    is ["Name: <name>\nReg: <reg>\nDept: <dept>"], with width 150, margin 1
    and no error-correction level set, so that the library's default applies;
    the text and the request depend on the triple only. *)
Theorem generateQRCode_payload (E : Env) (d d' : CardData) (p : list N) (w : World) :
  let text := js "Name: " ++ name d ++ [10%N] ++ js "Reg: " ++ reg d
              ++ [10%N] ++ js "Dept: " ++ dept d in
  let opts := {| qr_width := 150; qr_margin := 1; qr_errorCorrectionLevel := None |} in
  Cloud.generateQRCode E d = QRCode_toBuffer E text opts ∧
  Disk.generateQRCode E d p = QRCode_toFile E p text opts ∧
  events (Cloud.generateQRCode E d w).2 = events w ++ [EvQREncode text opts] ∧
  (name d' = name d → reg d' = reg d → dept d' = dept d →
   qrText (name d') (reg d') (dept d') = text ∧
   Cloud.generateQRCode E d' = Cloud.generateQRCode E d ∧
   Disk.generateQRCode E d' p = Disk.generateQRCode E d p).
Proof.
  intros text opts.
  split; [reflexivity|]. split; [reflexivity|]. split.
  - unfold Cloud.generateQRCode, QRCode_toBuffer, emit.
    change (qrText (name d) (reg d) (dept d)) with text.
    change qrOptions with opts.
    destruct (qr_png E text opts); reflexivity.
  - intros Hn Hr Hd. unfold Cloud.generateQRCode, Disk.generateQRCode.
    by rewrite Hn, Hr, Hd.
Qed.

Lemma generateQRCode_payload_witness :
  qrText (js "Jane Doe") (js "2020/1234567") (js "Computer Science")
  = js "Name: Jane Doe" ++ [10%N] ++ js "Reg: 2020/1234567" ++ [10%N]
    ++ js "Dept: Computer Science".
Proof.
  destruct (generateQRCode_payload (sampleEnv (fun _ => true)) janeDoe janeDoe []
              sampleWorld) as (_ & _ & _ & H).
  destruct (H eq_refl eq_refl eq_refl) as [Ht _]. exact Ht.
Defined.

(** ** Form validation *)

Lemma truthy_true (s : list N) : truthy s = true ↔ s ≠ [].
Proof. destruct s; simpl; split; congruence. Qed.

Lemma trim_nonempty (v : list N) : trim v ≠ [] → v ≠ [].
Proof. intros H ->. by apply H. Qed.

Lemma firstMissing_None (data : gmap string (list N)) (fields : list string) :
  firstMissing data fields = None ↔ ∀ f, f ∈ fields → Present data f.
Proof.
  induction fields as [|f fields IH]; simpl.
  - split; [intros _ f Hf; by apply not_elem_of_nil in Hf | done].
  - destruct (data !! f) as [v|] eqn:Hv.
    + destruct (truthy v) eqn:Htv; simpl.
      * destruct (truthy (trim v)) eqn:Htt; simpl.
        -- rewrite IH. split.
           ++ intros H g [->|Hg]%elem_of_cons; [|by apply H].
              exists v. split; [done|]. by apply truthy_true.
           ++ intros H g Hg. apply H. by right.
        -- split; [done|]. intros H. destruct (H f) as (v' & Hv' & Hne); [by left|].
           rewrite Hv in Hv'. injection Hv' as <-.
           apply truthy_true in Hne. congruence.
      * split; [done|]. intros H. destruct (H f) as (v' & Hv' & Hne); [by left|].
        rewrite Hv in Hv'. injection Hv' as <-.
        apply trim_nonempty, truthy_true in Hne. congruence.
    + split; [done|]. intros H. destruct (H f) as (v' & Hv' & _); [by left|].
      congruence.
Qed.

Lemma below_128 (P : N → bool) :
  forallb P (N.of_nat <$> seq 0 128) = true → ∀ c, (c < 128)%N → P c = true.
Proof.
  intros H c Hc. rewrite forallb_forall in H. apply H.
  apply list_elem_of_In, list_elem_of_fmap. exists (N.to_nat c).
  split; [lia|]. apply elem_of_seq. lia.
Qed.

Lemma existsb_eqb_elem_of (c : N) (l : list N) : existsb (N.eqb c) l = true ↔ c ∈ l.
Proof.
  rewrite existsb_exists. split.
  - intros (d & Hd%list_elem_of_In & ->%N.eqb_eq). done.
  - intros Hc. exists c. split; [by apply list_elem_of_In | apply N.eqb_refl].
Qed.

Lemma regChar_ascii (c : N) : regChar c = true → (c < 128)%N.
Proof.
  unfold regChar.
  rewrite !orb_true_iff, !andb_true_iff, !N.leb_le, !N.eqb_eq. lia.
Qed.

Lemma regChar_alphabet (c : N) : regChar c = true ↔ c ∈ regAlphabet.
Proof.
  rewrite <- existsb_eqb_elem_of. split.
  - intros Hc. pose proof (regChar_ascii c Hc) as Hlt. revert Hc.
    apply (below_128 (fun c => implb (regChar c) (existsb (N.eqb c) regAlphabet)))
      in Hlt; [|by vm_compute].
    destruct (regChar c); simpl in Hlt; [done | discriminate].
  - intros Hc. apply existsb_eqb_elem_of, list_elem_of_In in Hc. revert c Hc.
    apply forallb_forall. by vm_compute.
Qed.

Lemma regPattern_test_spec (s : list N) :
  regPattern_test s = true ↔ s ≠ [] ∧ ∀ c, c ∈ s → c ∈ regAlphabet.
Proof.
  unfold regPattern_test.
  rewrite andb_true_iff, truthy_true, forallb_forall.
  split; intros [Hne H]; (split; [done|]); intros c Hc.
  - by apply regChar_alphabet, H, list_elem_of_In.
  - by apply regChar_alphabet, H, list_elem_of_In.
Qed.

Lemma Present_lookup (data : gmap string (list N)) (f : string) :
  Present data f → ∃ v, data !! f = Some v ∧ prop data f = v ∧ v ≠ [].
Proof.
  intros (v & Hv & Hne). exists v. unfold prop. rewrite Hv.
  split; [done|]. split; [done|]. by apply trim_nonempty.
Qed.

(** C2. [validateFormInput] accepts a form if and only if each of the six
    fields is present and non-empty after trimming, the name has at most 100
    characters, the registration number has at most 50 and consists of
    characters of [[A-Za-z0-9 ._/-]] only; every other form is rejected with
    a validation error. *)
Theorem validateFormInput_accepts_iff (data : gmap string (list N)) :
  (validateFormInput data = Valid ↔ Acceptable data) ∧
  (¬ Acceptable data → ∃ error, validateFormInput data = Invalid error).
Proof.
  assert (validateFormInput data = Valid ↔ Acceptable data) as Hiff.
  { unfold validateFormInput, Acceptable.
    destruct (firstMissing data required) as [f|] eqn:Hmiss.
    - split; [discriminate|]. intros (Hall & _).
      apply firstMissing_None in Hall. congruence.
    - pose proof (proj1 (firstMissing_None _ _) Hmiss) as Hall.
      destruct (Present_lookup data "name") as (n & Hn & Hpn & _);
        [apply Hall; set_solver|].
      destruct (Present_lookup data "reg") as (r & Hr & Hpr & Hrne);
        [apply Hall; set_solver|].
      rewrite Hpn, Hpr.
      destruct (Nat.ltb_spec 100 (length n)) as [Hlen|Hlen].
      { split; [discriminate|]. intros (_ & Hname & _).
        specialize (Hname n Hn). lia. }
      destruct (Nat.ltb_spec 50 (length r)) as [Hlr|Hlr].
      { split; [discriminate|]. intros (_ & _ & Hreg).
        destruct (Hreg r Hr). lia. }
      destruct (regPattern_test r) eqn:Hpat; simpl.
      + apply regPattern_test_spec in Hpat as [_ Hpat].
        split; [intros _|done]. split; [done|]. split.
        * intros v Hv. rewrite Hn in Hv. injection Hv as <-. lia.
        * intros v Hv. rewrite Hr in Hv. injection Hv as <-. split; [lia|done].
      + split; [discriminate|]. intros (_ & _ & Hreg).
        destruct (Hreg r Hr) as [_ Hcls].
        assert (regPattern_test r = true) by (by apply regPattern_test_spec).
        congruence. }
  split; [exact Hiff|].
  intros Hno. destruct (validateFormInput data) as [|error] eqn:Hv.
  - exfalso. by apply Hno, Hiff.
  - by exists error.
Qed.

Example validate_jane : validateFormInput janeForm = Valid.
Proof. reflexivity. Qed.

Example validate_hash :
  validateFormInput (<["reg" := js "ABC#123"]> janeForm)
  = Invalid "Invalid characters in registration number".
Proof. reflexivity. Qed.

Example validate_blank_dept :
  validateFormInput (<["dept" := js "   "]> janeForm) = Invalid "Missing field: dept".
Proof. reflexivity. Qed.

Lemma validateFormInput_accepts_iff_witness :
  ∃ error, validateFormInput (<["reg" := js "ABC#123"]> janeForm) = Invalid error.
Proof.
  destruct (validateFormInput_accepts_iff (<["reg" := js "ABC#123"]> janeForm))
    as [Hiff Hrej].
  apply Hrej. intros Hacc. apply Hiff in Hacc. vm_compute in Hacc. discriminate Hacc.
Defined.

(** ** The upload filter *)

Lemma rejected_photo_stops_request (E : Env) (r : Request) (file : FilePart) (w : World) :
  photo r = Some file → fileFilter (unicode E) file = false →
  Cloud.generate E r w = ({| status := 500; payload := JsonException FileFilterError |}, w) ∧
  Disk.generate E r w = ({| status := 500; payload := JsonException FileFilterError |}, w).
Proof.
  intros Hp Hf.
  unfold Cloud.generate, Disk.generate, Cloud.upload_single, Disk.upload_single.
  by rewrite Hp, Hf.
Qed.

Lemma oversized_photo_stops_request (E : Env) (r : Request) (file : FilePart) (w : World) :
  photo r = Some file → (FILE_SIZE_LIMIT < fileSize file)%N →
  status (Cloud.generate E r w).1 ≠ 200%Z ∧ (Cloud.generate E r w).2 = w ∧
  status (Disk.generate E r w).1 ≠ 200%Z.
Proof.
  intros Hp Hs%N.ltb_lt.
  unfold Cloud.generate, Disk.generate, Cloud.upload_single, Disk.upload_single.
  rewrite Hp, Hs. destruct (fileFilter (unicode E) file); [|done]. simpl.
  split; [done|]. split; [done|].
  unfold bind, writeFile, removeUploaded. by destruct (fs_write_ok E _).
Qed.

(** What the disk storage does with a photo over the limit: the part is
    written up to the limit and removed again. *)
Lemma disk_upload_single_oversized (E : Env) (r : Request) (file : FilePart) (w : World) :
  let p := Path.join [Disk.UPLOAD_FOLDER E; Disk.filename (fields_before r) file] in
  photo r = Some file → fileFilter (unicode E) file = true →
  (FILE_SIZE_LIMIT <? fileSize file)%N = true →
  Disk.upload_single E r w
  = if fs_write_ok E p
    then (Thrown LimitFileSize,
          let w1 := written p (firstBytes FILE_SIZE_LIMIT (content file)) w in
          if fs_unlink_ok E p then unlinked p w1 else emit (EvUnlink p) w1)
    else (Thrown (WriteError p), emit (EvWriteFile p) w).
Proof.
  intros p Hp Hf Hs. unfold Disk.upload_single. rewrite Hp, Hf, Hs. simpl negb. cbv iota.
  fold p. unfold bind, writeFile, removeUploaded. by destruct (fs_write_ok E p).
Qed.

(** The answer of the disk version to a photo over the limit. *)
Lemma disk_generate_oversized (E : Env) (r : Request) (file : FilePart) (w : World) :
  let p := Path.join [Disk.UPLOAD_FOLDER E; Disk.filename (fields_before r) file] in
  photo r = Some file → fileFilter (unicode E) file = true →
  (FILE_SIZE_LIMIT < fileSize file)%N →
  Disk.generate E r w
  = if fs_write_ok E p
    then ({| status := 413; payload := JsonError "File too large (max 16MB)" |},
          let w1 := written p (firstBytes FILE_SIZE_LIMIT (content file)) w in
          if fs_unlink_ok E p then unlinked p w1 else emit (EvUnlink p) w1)
    else ({| status := 500; payload := JsonException (WriteError p) |},
          emit (EvWriteFile p) w).
Proof.
  intros p Hp Hf Hbig%N.ltb_lt. unfold Disk.generate.
  rewrite (disk_upload_single_oversized E r file w Hp Hf Hbig). fold p.
  by destruct (fs_write_ok E p).
Qed.

(** What the disk storage does with an accepted photo. *)
Lemma disk_upload_single_stored (E : Env) (r : Request) (file : FilePart) (w : World) :
  let p := Path.join [Disk.UPLOAD_FOLDER E; Disk.filename (fields_before r) file] in
  photo r = Some file → fileFilter (unicode E) file = true →
  (FILE_SIZE_LIMIT <? fileSize file)%N = false → fs_write_ok E p = true →
  Disk.upload_single E r w
  = (Returned (Some p), written p (content file) w).
Proof.
  intros p Hp Hf Hs Hok. unfold Disk.upload_single, bind, writeFile.
  rewrite Hp, Hf, Hs. simpl. fold p. by rewrite Hok.
Qed.

Example bmp_rejected (U : CaseTable) : fileFilter U bmpFile = false.
Proof. reflexivity. Qed.

Example png_accepted (U : CaseTable) : fileFilter U samplePhoto = true.
Proof. reflexivity. Qed.

(** C8. The filter is meant to accept a photo only if its extension and its
    declared type are among jpeg, jpg, png and gif.  The patterns are not
    anchored: a file named [notes.jpgx] and declared as [text/x-gif-notes]
    passes the filter under every case mapping, is handed on by the memory
    storage and is written to the uploads folder by the disk storage. *)
Theorem fileFilter_accepts_outside_allow_list (E : Env) (w : World) :
  let r := {| fields_before := ∅; photo := Some notesFile; fields_after := ∅ |} in
  Path.extname (originalname notesFile) = js ".jpgx" ∧
  (js "jpgx" ∉ allowList) ∧
  (mimetype notesFile ∉ (fun t => js "image/" ++ t) <$> allowList) ∧
  fileFilter (unicode E) notesFile = true ∧
  Cloud.upload_single E r w = (Returned (Some (content notesFile)), w) ∧
  (fs_write_ok E (Path.join [Disk.UPLOAD_FOLDER E; js "temp_photo.jpgx"]) = true →
   files (Disk.upload_single E r w).2
     !! Path.join [Disk.UPLOAD_FOLDER E; js "temp_photo.jpgx"]
   = Some (content notesFile)).
Proof.
  intros r. split; [reflexivity|].
  split; [by apply (bool_decide_eq_false_1 _); vm_compute|].
  split; [by apply (bool_decide_eq_false_1 _); vm_compute|].
  split; [reflexivity|]. split; [reflexivity|].
  intros Hok.
  rewrite (disk_upload_single_stored E r notesFile w); [apply lookup_insert_eq|..];
    try reflexivity.
  exact Hok.
Qed.

Lemma fileFilter_accepts_outside_allow_list_witness :
  files (Disk.upload_single (sampleEnv (fun _ => true))
           {| fields_before := ∅; photo := Some notesFile; fields_after := ∅ |}
           bareWorld).2
    !! js "/srv/app/static/uploads/temp_photo.jpgx"
  = Some (content notesFile).
Proof.
  destruct (fileFilter_accepts_outside_allow_list (sampleEnv (fun _ => true)) bareWorld)
    as (_ & _ & _ & _ & _ & Hdisk).
  apply Hdisk. reflexivity.
Defined.

(** ** Upper-casing *)

Section Utf16.

Local Open Scope N_scope.

Lemma codeUnits_nonempty (c : N) : codeUnits c ≠ [].
Proof. unfold codeUnits. by destruct (c <? 65536). Qed.








Lemma low_is_surrogate (c : N) : isLowSurrogate c = false → isSurrogate c = true →
  isHighSurrogate c = true.
Proof.
  unfold isSurrogate, isLowSurrogate, isHighSurrogate.
  rewrite andb_false_iff, !andb_true_iff, !N.leb_gt, !N.leb_le. lia.
Qed.








End Utf16.





Lemma drawBack_returns (E : Env) (p : list N) (d : CardData) (w w' : World) (c : Canvas) :
  drawBack E p d w = (Returned c, w') →
  ∃ img, c = backText E d (drawImage img 0 0 CARD_WIDTH CARD_HEIGHT
                             (createCanvas CARD_WIDTH CARD_HEIGHT)).
Proof.
  unfold drawBack, bind, newCanvas, loadImage, ret.
  destruct (sourceBytes _ _ _) as [bytes|]; [|discriminate].
  destruct (image_decodes E bytes); [|discriminate].
  intros [= <- _]. by eexists.
Qed.



(** ** Paths *)

Section Paths.

Import Path.

Lemma segments_nonempty (p : list N) : segments p ≠ [].
Proof.
  destruct p as [|c p]; [done|]. simpl.
  destruct (c =? SLASH)%N; [done|]. by destruct (segments p).
Qed.

Lemma segments_app (a b : list N) :
  segments (a ++ SLASH :: b) = segments a ++ segments b.
Proof.
  induction a as [|c a IH]; simpl.
  - done.
  - destruct (c =? SLASH)%N; [by rewrite IH|]. rewrite IH.
    pose proof (segments_nonempty a). by destruct (segments a).
Qed.

Lemma segments_plain (s : list N) : SLASH ∉ s → segments s = [s].
Proof.
  induction s as [|c s IH]; [done|].
  intros [Hc Hs]%not_elem_of_cons. simpl.
  destruct (N.eqb_spec c SLASH); [congruence|]. by rewrite IH.
Qed.

Lemma segments_joinSegments (G : list (list N)) :
  G ≠ [] → Forall plainName G → segments (joinSegments G) = G.
Proof.
  induction G as [|g G IH]; [done|]. intros _ HG.
  apply Forall_cons in HG as [(_ & Hg & _) HG].
  destruct G as [|g' G]; [by apply segments_plain|].
  change (joinSegments (g :: g' :: G)) with (g ++ SLASH :: joinSegments (g' :: G)).
  rewrite segments_app, segments_plain, IH; done.
Qed.

Lemma joinSegments_snoc (G : list (list N)) (f : list N) :
  G ≠ [] → joinSegments (G ++ [f]) = joinSegments G ++ SLASH :: f.
Proof.
  induction G as [|g G IH]; [done|]. intros _.
  destruct G as [|g' G]; [done|].
  change (joinSegments ((g :: g' :: G) ++ [f]))
    with (g ++ SLASH :: joinSegments ((g' :: G) ++ [f])).
  rewrite IH by done.
  change (joinSegments (g :: g' :: G)) with (g ++ SLASH :: joinSegments (g' :: G)).
  by rewrite <- app_assoc.
Qed.

Lemma joinSegments_nonempty (G : list (list N)) :
  G ≠ [] → Forall plainName G → joinSegments G ≠ [].
Proof.
  destruct G as [|g G]; [done|]. intros _ [(Hg & _) _]%Forall_cons.
  destruct G; simpl; [done|]. by destruct g.
Qed.

Lemma normalizeStep_plain (b : bool) (stack : list (list N)) (seg : list N) :
  plainName seg → normalizeStep b stack seg = seg :: stack.
Proof.
  intros (Hne & _ & Hd & Hdd). unfold normalizeStep.
  destruct seg; [done|]. by rewrite Hd, Hdd.
Qed.

Lemma fold_normalizeStep_plain (b : bool) (G stack : list (list N)) :
  Forall plainName G → fold_left (normalizeStep b) G stack = rev G ++ stack.
Proof.
  revert stack. induction G as [|g G IH]; [done|].
  intros stack [Hg HG]%Forall_cons. simpl.
  rewrite normalizeStep_plain, IH by done. by rewrite <- app_assoc.
Qed.

Lemma segments_no_slash (p : list N) : Forall (fun seg => SLASH ∉ seg) (segments p).
Proof.
  induction p as [|c p IH]; simpl.
  - apply Forall_cons. split; [apply not_elem_of_nil | done].
  - destruct (N.eqb_spec c SLASH) as [->|Hc].
    + apply Forall_cons. split; [apply not_elem_of_nil | done].
    + pose proof (segments_nonempty p). destruct (segments p) as [|seg segs]; [done|].
      apply Forall_cons in IH as [Hseg Hsegs]. apply Forall_cons. split; [|done].
      apply not_elem_of_cons. split; [congruence | done].
Qed.

(** Below the root, [normalizeString] keeps plain names only. *)
Lemma fold_normalizeStep_keeps_plain (segs stack : list (list N)) :
  Forall (fun seg => SLASH ∉ seg) segs → Forall plainName stack →
  Forall plainName (fold_left (normalizeStep false) segs stack).
Proof.
  revert stack. induction segs as [|seg segs IH]; [done|].
  intros stack [Hseg Hsegs]%Forall_cons Hstack. simpl. apply IH; [done|].
  unfold normalizeStep. destruct seg as [|c seg'] eqn:Hs; [done|]. rewrite <- Hs.
  destruct (isDot seg) eqn:Hd; [done|].
  destruct (isDotDot seg) eqn:Hdd.
  - destruct stack as [|top below]; [done|].
    pose proof Hstack as [_ Hbelow]%Forall_cons. by destruct (isDotDot top).
  - apply Forall_cons. split; [|done]. rewrite Hs in *. by repeat split.
Qed.

Lemma last_snoc_app (p : list N) (f : list N) (d : N) :
  f ≠ [] → List.last (p ++ f) d = List.last f d.
Proof.
  intros Hf. induction p as [|c p IH]; [done|].
  simpl. rewrite IH. destruct (p ++ f) eqn:Hpf; [|done].
  apply app_eq_nil in Hpf as [_ ?]. done.
Qed.

Lemma last_no_slash (f : list N) : f ≠ [] → SLASH ∉ f → (List.last f 0 =? SLASH)%N = false.
Proof.
  intros Hne Hf. apply N.eqb_neq. intros Heq. apply Hf.
  rewrite <- Heq. clear Heq Hf.
  induction f as [|c f IH]; [done|]. destruct f as [|c' f]; [by left|].
  right. by apply IH.
Qed.

(** Normalizing an absolute path that ends in a plain name. *)
Lemma normalize_absolute (p f : list N) (stack : list (list N)) :
  head p = Some SLASH → plainName f →
  fold_left (normalizeStep false) (segments p) [] = stack →
  normalize (p ++ SLASH :: f) = SLASH :: joinSegments (rev (f :: stack)).
Proof.
  intros Hp Hf Hstack. pose proof Hf as (Hne & Hslash & _).
  destruct p as [|c p]; [done|]. injection Hp as ->.
  assert (normalizeString ((SLASH :: p) ++ SLASH :: f) false
          = joinSegments (rev (f :: stack))) as Hq.
  { unfold normalizeString.
    rewrite segments_app, fold_left_app, Hstack, (segments_plain f Hslash).
    simpl fold_left. by rewrite normalizeStep_plain. }
  assert ((List.last ((SLASH :: p) ++ SLASH :: f) 0 =? SLASH)%N = false) as Hlast.
  { replace ((SLASH :: p) ++ SLASH :: f) with (((SLASH :: p) ++ [SLASH]) ++ f)
      by (by rewrite <- app_assoc).
    by rewrite last_snoc_app, last_no_slash. }
  unfold normalize. change ((SLASH :: p) ++ SLASH :: f) with (SLASH :: (p ++ SLASH :: f)) in *.
  cbv beta iota zeta. change (SLASH =? SLASH)%N with true. cbv iota. 
  change (negb true) with false. rewrite Hlast, Hq.
  destruct (joinSegments (rev (f :: stack))) eqn:Hj; [|done].
  exfalso. simpl in Hj. destruct (rev stack) as [|g G] eqn:Hrev.
  - simpl in Hj. done.
  - change ((g :: G) ++ [f]) with (g :: (G ++ [f])) in Hj.
    destruct (G ++ [f]) eqn:HGf; [by destruct G|].
    simpl in Hj. by destruct g.
Qed.

End Paths.

Section Folders.

Import Path.

Lemma join_two (a b : list N) :
  a ≠ [] → b ≠ [] → join [a; b] = normalize (a ++ SLASH :: b).
Proof. intros Ha Hb. unfold join. by destruct a, b. Qed.

Lemma join_three (a b c : list N) :
  a ≠ [] → b ≠ [] → c ≠ [] →
  join [a; b; c] = normalize ((a ++ SLASH :: b) ++ SLASH :: c).
Proof. intros Ha Hb Hc. unfold join. by destruct a, b, c. Qed.

Lemma join_inside (G : list (list N)) (file : list N) :
  G ≠ [] → Forall plainName G → plainName file →
  join [SLASH :: joinSegments G; file] = (SLASH :: joinSegments G) ++ SLASH :: file.
Proof.
  intros HG Hplain Hfile. pose proof Hfile as (Hne & _).
  rewrite join_two by done.
  rewrite (normalize_absolute _ file (rev G)); [|done|done|].
  - simpl rev. rewrite rev_involutive, joinSegments_snoc by done. done.
  - simpl. rewrite segments_joinSegments, fold_normalizeStep_plain by done.
    by rewrite app_nil_r.
Qed.

Lemma installSegments_plain (E : Env) : Forall plainName (installSegments E).
Proof.
  apply Forall_rev, fold_normalizeStep_keeps_plain; [apply segments_no_slash | done].
Qed.

Lemma literal_plain (s : string) :
  js s ≠ [] → bool_decide (SLASH ∈ js s) = false →
  isDot (js s) = false → isDotDot (js s) = false → plainName (js s).
Proof. intros ? ?%(bool_decide_eq_false_1 _) ? ?. by repeat split. Qed.

Lemma absolute_nonempty (p : list N) : head p = Some SLASH → p ≠ [].
Proof. by destruct p. Qed.

(** Joining plain names to an absolute installation directory. *)
Lemma join_below_install (E : Env) (a : list N) :
  head (dirname E) = Some SLASH → plainName a →
  join [dirname E; a] = SLASH :: joinSegments (installSegments E ++ [a]).
Proof.
  intros Habs Ha. pose proof Ha as (Hne & _).
  rewrite join_two by (done || by apply absolute_nonempty).
  by rewrite (normalize_absolute _ a _ Habs Ha eq_refl).
Qed.

Lemma join_below_install2 (E : Env) (a b : list N) :
  head (dirname E) = Some SLASH → plainName a → plainName b →
  join [dirname E; a; b] = SLASH :: joinSegments (installSegments E ++ [a; b]).
Proof.
  intros Habs Ha Hb. pose proof Ha as (Hna & Hsa & _). pose proof Hb as (Hnb & _).
  rewrite join_three by (done || by apply absolute_nonempty).
  erewrite (normalize_absolute _ b); [| |exact Hb|reflexivity].
  - rewrite segments_app, fold_left_app, (segments_plain a Hsa). simpl fold_left.
    rewrite normalizeStep_plain by done. unfold installSegments. simpl.
    by rewrite <- app_assoc.
  - by destruct (dirname E).
Qed.

Lemma static_plain : plainName (js "static").
Proof. by apply literal_plain. Qed.
Lemma id_cards_plain : plainName (js "id_cards").
Proof. by apply literal_plain. Qed.

Lemma output_folder_install (E : Env) :
  head (dirname E) = Some SLASH →
  Disk.OUTPUT_FOLDER E
  = SLASH :: joinSegments (installSegments E ++ [js "static"; js "id_cards"]).
Proof.
  intros Habs. apply join_below_install2;
    [done | apply static_plain | apply id_cards_plain].
Qed.

Lemma templates_folder_install (E : Env) :
  head (dirname E) = Some SLASH →
  TEMPLATES_FOLDER E = SLASH :: joinSegments (installSegments E ++ [js "static"]).
Proof. intros Habs. apply join_below_install; [done | apply static_plain]. Qed.

Lemma snoc_nonempty {A} (l : list A) (k : list A) : k ≠ [] → l ++ k ≠ [].
Proof. intros Hk H. by apply app_eq_nil in H as [_ ?]. Qed.

(** The folder of the generated cards, for an absolute installation
    directory: the kept segments of the directory, then [static], then
    [id_cards]. *)
Lemma output_folder_shape (E : Env) :
  head (dirname E) = Some SLASH →
  ∃ G, G ≠ [] ∧ Forall plainName G ∧ Disk.OUTPUT_FOLDER E = SLASH :: joinSegments G.
Proof.
  intros Habs. exists (installSegments E ++ [js "static"; js "id_cards"]).
  split; [by apply snoc_nonempty|].
  split; [|by apply output_folder_install].
  apply Forall_app. split; [apply installSegments_plain|].
  repeat (apply Forall_cons; split); [apply static_plain | apply id_cards_plain | done].
Qed.

Ltac plain_list :=
  apply Forall_app; split;
  [done | repeat (apply Forall_cons; split; [done|]); apply Forall_nil_2].

(** A generated file and a template never share a path. *)
Lemma generated_file_not_template (E : Env) (file template : list N) :
  head (dirname E) = Some SLASH → plainName file → plainName template →
  join [Disk.OUTPUT_FOLDER E; file] ≠ join [TEMPLATES_FOLDER E; template].
Proof.
  intros Habs Hfile Htpl.
  pose proof (installSegments_plain E) as Hinst.
  pose proof static_plain as Hst. pose proof id_cards_plain as Hid.
  assert (Forall plainName (installSegments E ++ [js "static"; js "id_cards"])) as H1
    by plain_list.
  assert (Forall plainName (installSegments E ++ [js "static"])) as H2
    by plain_list.
  rewrite output_folder_install, templates_folder_install by done.
  rewrite !join_inside by (done || by apply snoc_nonempty).
  change ((SLASH :: ?a) ++ ?b) with (SLASH :: (a ++ b)).
  rewrite <- !joinSegments_snoc by (by apply snoc_nonempty).
  intros [= Heq]. apply (f_equal segments) in Heq.
  rewrite !segments_joinSegments in Heq;
    [| by apply snoc_nonempty | plain_list | by apply snoc_nonempty | plain_list].
  apply (f_equal length) in Heq. rewrite !length_app in Heq. simpl in Heq. lia.
Qed.

Lemma sanitizeReg_safe (reg : list N) :
  Forall (fun c => safeChar c = true) (sanitizeReg reg).
Proof.
  unfold sanitizeReg. apply Forall_fmap, Forall_forall. intros c _. simpl.
  by destruct (safeChar c) eqn:Hc.
Qed.

Lemma safeChar_ascii (c : N) : safeChar c = true → (c < 128)%N.
Proof.
  unfold safeChar.
  rewrite !orb_true_iff, !andb_true_iff, !N.leb_le, !N.eqb_eq. lia.
Qed.

Lemma safeChar_alphabet (c : N) : safeChar c = true ↔ c ∈ safeAlphabet.
Proof.
  rewrite <- existsb_eqb_elem_of. split.
  - intros Hc. pose proof (safeChar_ascii c Hc) as Hlt. revert Hc.
    apply (below_128 (fun c => implb (safeChar c) (existsb (N.eqb c) safeAlphabet)))
      in Hlt; [|by vm_compute].
    destruct (safeChar c); simpl in Hlt; [done | discriminate].
  - intros Hc. apply existsb_eqb_elem_of, list_elem_of_In in Hc. revert c Hc.
    apply forallb_forall. by vm_compute.
Qed.

Lemma safeChar_no_separator (c : N) :
  safeChar c = true → c ≠ SLASH ∧ c ≠ DOT ∧ c ≠ 92%N.
Proof.
  unfold safeChar, SLASH, DOT.
  rewrite !orb_true_iff, !andb_true_iff, !N.leb_le, !N.eqb_eq. lia.
Qed.

Lemma safe_free (s : list N) (c : N) :
  Forall (fun c => safeChar c = true) s → safeChar c = false → c ∉ s.
Proof.
  intros Hs Hc Hin. rewrite Forall_forall in Hs. apply Hs in Hin. congruence.
Qed.

Lemma futo_name_free (s ending : list N) (c : N) :
  Forall (fun c => safeChar c = true) s → safeChar c = false →
  c ∉ js "futo_" → c ∉ ending → c ∉ js "futo_" ++ s ++ ending.
Proof.
  intros Hs Hc Hf He. rewrite !elem_of_app. intros [H|[H|H]]; [done | | done].
  revert H. by apply safe_free.
Qed.

(** A name made of [futo_], safe characters and a fixed ending. *)
Lemma futo_name_plain (s ending : list N) :
  Forall (fun c => safeChar c = true) s → SLASH ∉ ending →
  plainName (js "futo_" ++ s ++ ending).
Proof.
  intros Hs He. split; [done|]. split; [|done].
  rewrite !elem_of_app. intros [H|[H|H]].
  - revert H. by apply (bool_decide_eq_false_1 _); vm_compute.
  - revert H. by apply safe_free.
  - done.
Qed.

End Folders.

(** C10. The sanitized registration number consists of characters of
    [[A-Za-z0-9_-]] only, so it holds no slash, backslash or dot; the QR file,
    the front and the back card, and the path that [/download-back/:reg] looks
    up are entries directly inside the output folder, and the Cloudinary
    identifiers built from it hold no slash and no dot. *)
Theorem sanitized_reg_stays_in_folder (E : Env) (reg : list N) :
  head (dirname E) = Some Path.SLASH →
  let safeReg := sanitizeReg reg in
  (∀ c, c ∈ safeReg → c ∈ safeAlphabet) ∧
  (Path.SLASH ∉ safeReg) ∧ (Path.DOT ∉ safeReg) ∧ (92%N ∉ safeReg) ∧
  (∀ file, file ∈ [Disk.qrFile safeReg; Disk.frontFile safeReg; Disk.backFile safeReg] →
     directlyInside (Disk.OUTPUT_FOLDER E) file (Path.join [Disk.OUTPUT_FOLDER E; file])) ∧
  directlyInside (Disk.OUTPUT_FOLDER E) (Disk.backFile safeReg) (Disk.backPath E reg) ∧
  (∀ id, id ∈ [Cloud.frontId safeReg; Cloud.backId safeReg] →
     (Path.SLASH ∉ id) ∧ (Path.DOT ∉ id)).
Proof.
  intros Habs safeReg.
  pose proof (sanitizeReg_safe reg) as Hsafe. fold safeReg in Hsafe.
  destruct (output_folder_shape E Habs) as (G & HG & Hplain & Hout).
  assert (∀ ending, Path.SLASH ∉ ending →
            directlyInside (Disk.OUTPUT_FOLDER E) (js "futo_" ++ safeReg ++ ending)
              (Path.join [Disk.OUTPUT_FOLDER E; js "futo_" ++ safeReg ++ ending]))
    as Hinside.
  { intros ending He. split; [by apply futo_name_plain|].
    rewrite Hout. apply join_inside; [done | done | by apply futo_name_plain]. }
  split; [intros c Hc; rewrite Forall_forall in Hsafe; by apply safeChar_alphabet, Hsafe|].
  split; [by apply safe_free|]. split; [by apply safe_free|]. split; [by apply safe_free|].
  split; [|split].
  - intros file. rewrite !elem_of_cons, elem_of_nil.
    intros [->|[->|[->|[]]]]; apply Hinside;
      by apply (bool_decide_eq_false_1 _); vm_compute.
  - apply Hinside. by apply (bool_decide_eq_false_1 _); vm_compute.
  - intros id. rewrite !elem_of_cons, elem_of_nil.
    intros [->|[->|[]]]; split; apply futo_name_free; try done;
      by apply (bool_decide_eq_false_1 _); vm_compute.
Qed.

Lemma sanitized_reg_stays_in_folder_witness :
  Disk.backPath (sampleEnv (fun _ => true)) (js "../../etc/passwd")
  = js "/srv/app/static/id_cards/futo_______etc_passwd_back.png".
Proof.
  destruct (sanitized_reg_stays_in_folder (sampleEnv (fun _ => true))
              (js "../../etc/passwd") eq_refl) as (_ & _ & _ & _ & _ & [_ H] & _).
  rewrite H. reflexivity.
Defined.

(** ** Requests with a missing field *)



Lemma cloud_upload_single_accepted (E : Env) (r : Request) (w : World) :
  photoAccepted (unicode E) r = true →
  Cloud.upload_single E r w = (Returned (content <$> photo r), w).
Proof.
  unfold photoAccepted, Cloud.upload_single. destruct (photo r) as [file|]; [|done].
  intros [-> Hs%N.leb_le]%andb_true_iff. simpl.
  by assert ((FILE_SIZE_LIMIT <? fileSize file)%N = false) as -> by (apply N.ltb_ge; lia).
Qed.

Lemma errorHandler_status (e : Error) :
  status (errorHandler e) = 413%Z ∨ status (errorHandler e) = 500%Z.
Proof. destruct e; simpl; auto. Qed.

(** The disk storage: nothing happens without a photo that passes the
    filter; a photo within the limit is written to the uploads folder, or the
    write fails; a photo over the limit is written up to the limit and
    removed again. *)
Lemma disk_upload_single_cases (E : Env) (r : Request) (w : World) :
  (∃ out, Disk.upload_single E r w = (out, w) ∧
          (photo r = None ∧ out = Returned None ∨
           photoAccepted (unicode E) r = false ∧ out = Thrown FileFilterError ∧
           ∃ file, photo r = Some file ∧ fileFilter (unicode E) file = false)) ∨
  (∃ file, photo r = Some file ∧ photoAccepted (unicode E) r = true ∧
     let p := Path.join [Disk.UPLOAD_FOLDER E; Disk.filename (fields_before r) file] in
     (fs_write_ok E p = true ∧
      Disk.upload_single E r w
      = (Returned (Some p), written p (content file) w)
      ∨ fs_write_ok E p = false ∧
        Disk.upload_single E r w = (Thrown (WriteError p), emit (EvWriteFile p) w))) ∨
  (∃ file, photo r = Some file ∧ photoAccepted (unicode E) r = false ∧
     fileFilter (unicode E) file = true ∧ (FILE_SIZE_LIMIT < fileSize file)%N ∧
     let p := Path.join [Disk.UPLOAD_FOLDER E; Disk.filename (fields_before r) file] in
     let w1 := written p (firstBytes FILE_SIZE_LIMIT (content file)) w in
     (fs_write_ok E p = true ∧
      Disk.upload_single E r w
      = (Thrown LimitFileSize, if fs_unlink_ok E p then unlinked p w1 else emit (EvUnlink p) w1)
      ∨ fs_write_ok E p = false ∧
        Disk.upload_single E r w = (Thrown (WriteError p), emit (EvWriteFile p) w))).
Proof.
  unfold photoAccepted.
  destruct (photo r) as [file|] eqn:Hphoto;
    [|left; eexists; split; [by unfold Disk.upload_single; rewrite Hphoto|by left]].
  destruct (fileFilter (unicode E) file) eqn:Hf.
  2:{ left. eexists. split; [by unfold Disk.upload_single; rewrite Hphoto, Hf|].
      right. split; [done|]. split; [done|]. by exists file. }
  destruct (N.ltb_spec FILE_SIZE_LIMIT (fileSize file)) as [Hbig|Hok].
  - right. right. exists file. split; [done|]. split; [apply N.leb_gt; lia|].
    split; [done|]. split; [done|]. cbv zeta.
    pose proof (disk_upload_single_oversized E r file w Hphoto Hf
                  (proj2 (N.ltb_lt _ _) Hbig)) as Hrun.
    cbv zeta in Hrun.
    destruct (fs_write_ok E _); [left | right]; by split.
  - right. left. exists file. split; [done|]. split; [apply N.leb_le; lia|].
    cbv zeta. unfold Disk.upload_single. rewrite Hphoto, Hf. simpl negb. cbv iota zeta.
    rewrite (proj2 (N.ltb_ge _ _) Hok).
    unfold bind, writeFile.
    destruct (fs_write_ok E _); [left | right]; by split.
Qed.





(** ** Running the effects *)

Lemma bind_cases {A B} (m : IO A) (k : A → IO B) (w : World) :
  (∃ a w1, m w = (Returned a, w1) ∧ bind m k w = k a w1) ∨
  (∃ e w1, m w = (Thrown e, w1) ∧ bind m k w = (Thrown e, w1)).
Proof.
  unfold bind. destruct (m w) as [[a|e] w1]; [left | right]; by eexists _, _.
Qed.

Ltac step H :=
  match goal with
  | |- context [bind ?m ?k ?w] =>
      let a := fresh "a" in let e := fresh "e" in let w1 := fresh "w" in
      destruct (bind_cases m k w) as [(a & w1 & H & ->) | (e & w1 & H & ->)];
      cbv beta
  end.

Lemma sameStores_refl (w : World) : sameStores w w.
Proof. done. Qed.

Lemma sameStores_trans (w1 w2 w3 : World) :
  sameStores w1 w2 → sameStores w2 w3 → sameStores w1 w3.
Proof. intros (? & ? & ?) (? & ? & ?). repeat split; congruence. Qed.

Lemma sameStores_emit (ev : Event) (w : World) : sameStores w (emit ev w).
Proof. done. Qed.

Lemma existsSync_run (p : list N) (w : World) (b : bool) (w1 : World) :
  existsSync p w = (Returned b, w1) → b = bool_decide (is_Some (files w !! p)) ∧ w1 = w.
Proof. by intros [= <- <-]. Qed.

Lemma QRCode_toBuffer_run (E : Env) (text : list N) (opts : QROptions) (w : World) :
  QRCode_toBuffer E text opts w
  = (match qr_png E text opts with
     | Some png => Returned png
     | None => Thrown QRCodeError
     end, emit (EvQREncode text opts) w).
Proof. unfold QRCode_toBuffer. by destruct (qr_png E text opts). Qed.

Lemma loadImage_run (E : Env) (src : ImageSource) (w : World) :
  loadImage E src w
  = (match sourceBytes E src w with
     | Some bytes =>
         if image_decodes E bytes then Returned {| image_bytes := bytes |}
         else Thrown (LoadImageError src)
     | None => Thrown (LoadImageError src)
     end, emit (EvLoadImage src) w).
Proof.
  unfold loadImage. destruct (sourceBytes E src w) as [bytes|]; [|done].
  by destruct (image_decodes E bytes).
Qed.

Lemma sourceBytes_sameStores (E : Env) (src : ImageSource) (w w' : World) :
  sameStores w w' → sourceBytes E src w' = sourceBytes E src w.
Proof. intros (Hf & _). destruct src; simpl; [by rewrite Hf | done | done]. Qed.

Lemma loadImage_sameStores (E : Env) (src : ImageSource) (w : World) :
  sameStores w (loadImage E src w).2.
Proof. rewrite loadImage_run. apply sameStores_emit. Qed.

(** Drawing never touches the disk or the provider. *)
Lemma drawFront_sameStores (E : Env) (p : list N) (qr ph : ImageSource) (w : World) :
  sameStores w (drawFront E p qr ph w).2.
Proof.
  unfold drawFront.
  step H1; [|injection H1 as _ <-; apply sameStores_emit].
  injection H1 as <- <-.
  step H2; rewrite loadImage_run in H2; injection H2 as _ <-;
    [|by repeat (eapply sameStores_trans; [|apply sameStores_emit])].
  step H3; rewrite loadImage_run in H3; injection H3 as _ <-;
    [|by repeat (eapply sameStores_trans; [|apply sameStores_emit])].
  step H4; rewrite loadImage_run in H4; injection H4 as _ <-;
    by repeat (eapply sameStores_trans; [|apply sameStores_emit]).
Qed.

Lemma drawBack_sameStores (E : Env) (p : list N) (d : CardData) (w : World) :
  sameStores w (drawBack E p d w).2.
Proof.
  unfold drawBack.
  step H1; [|injection H1 as _ <-; apply sameStores_emit].
  injection H1 as <- <-.
  step H2; rewrite loadImage_run in H2; injection H2 as _ <-;
    by repeat (eapply sameStores_trans; [|apply sameStores_emit]).
Qed.

Lemma drawFront_canvas (E : Env) (p : list N) (qr ph : ImageSource) (w w' : World)
    (c : Canvas) :
  drawFront E p qr ph w = (Returned c, w') →
  canvas_width c = CARD_WIDTH ∧ canvas_height c = CARD_HEIGHT.
Proof.
  unfold drawFront.
  step H1; [|discriminate]. injection H1 as <- <-.
  step H2; [|discriminate]. step H3; [|discriminate]. step H4; [|discriminate].
  by intros [= <- _].
Qed.

Lemma backText_size (E : Env) (d : CardData) (c : Canvas) :
  canvas_width (backText E d c) = canvas_width c ∧
  canvas_height (backText E d c) = canvas_height c.
Proof. done. Qed.

Lemma drawBack_canvas (E : Env) (p : list N) (d : CardData) (w w' : World) (c : Canvas) :
  drawBack E p d w = (Returned c, w') →
  canvas_width c = CARD_WIDTH ∧ canvas_height c = CARD_HEIGHT.
Proof. intros [img ->]%drawBack_returns. apply backText_size. Qed.

(** ** Missing templates *)

Lemma template_names_plain :
  plainName (js "front_template.png") ∧ plainName (js "back_template.png").
Proof. split; by apply literal_plain. Qed.

Lemma qrFile_plain (reg : list N) : plainName (Disk.qrFile (sanitizeReg reg)).
Proof.
  apply futo_name_plain; [apply sanitizeReg_safe|].
  by apply (bool_decide_eq_false_1 _); vm_compute.
Qed.

(** C4, as the code has it. If a template is absent, [generateIDCard] fails
    before it creates a canvas: with the template-missing error when the QR
    step has succeeded, with the error of the QR step otherwise.  No card
    image is written or uploaded.  The Cloudinary version leaves the disk and
    the provider as they were; the disk version has written the QR image
    into the output folder before it looks for the templates, and leaves it
    there. *)
Theorem template_missing_fails_without_card (E : Env) (d : CardData) (photoRef : list N)
    (w : World) :
  let front := Path.join [TEMPLATES_FOLDER E; js "front_template.png"] in
  let back := Path.join [TEMPLATES_FOLDER E; js "back_template.png"] in
  let text := qrText (name d) (reg d) (dept d) in
  let qrPath := Path.join [Disk.OUTPUT_FOLDER E; Disk.qrFile (sanitizeReg (reg d))] in
  let missing := if bool_decide (is_Some (files w !! front))
                 then BackTemplateNotFound back else FrontTemplateNotFound front in
  let w1 := emit (EvQREncode text qrOptions) w in
  head (dirname E) = Some Path.SLASH →
  files w !! front = None ∨ files w !! back = None →
  (∀ qr, qr_png E text qrOptions = Some qr →
     Cloud.generateIDCard E d photoRef w = (Thrown missing, w1) ∧
     (fs_write_ok E qrPath = true →
        Disk.generateIDCard E d photoRef w = (Thrown missing, written qrPath qr w1)) ∧
     (fs_write_ok E qrPath = false →
        Disk.generateIDCard E d photoRef w
        = (Thrown (WriteError qrPath), emit (EvWriteFile qrPath) w1))) ∧
  (qr_png E text qrOptions = None →
     Cloud.generateIDCard E d photoRef w = (Thrown QRCodeError, w1) ∧
     Disk.generateIDCard E d photoRef w = (Thrown QRCodeError, w1)) ∧
  sameStores w (Cloud.generateIDCard E d photoRef w).2 ∧
  cloud (Disk.generateIDCard E d photoRef w).2 = cloud w ∧
  (∀ p, p ≠ qrPath →
     files (Disk.generateIDCard E d photoRef w).2 !! p = files w !! p).
Proof.
  intros front back text qrPath missing w1 Habs Hmiss.
  assert (qrPath ≠ front ∧ qrPath ≠ back) as [Hnf Hnb].
  { split; apply generated_file_not_template;
      (done || apply qrFile_plain || apply template_names_plain). }
  assert (∀ B (k : IO B) w2,
            files w2 !! front = files w !! front →
            files w2 !! back = files w !! back →
            (await frontExists <- existsSync front;
             if negb frontExists then throw (FrontTemplateNotFound front) else
             await backExists <- existsSync back;
             if negb backExists then throw (BackTemplateNotFound back) else k)%io w2
            = (Thrown missing, w2)) as Hgate.
  { intros B k w2 Hf2 Hb2. unfold bind, existsSync, throw. rewrite Hf2. subst missing.
    destruct (files w !! front) as [ft|] eqn:Hf; simpl; [|done].
    rewrite Hb2. destruct Hmiss as [?|Hb]; [done|]. by rewrite Hb. }
  assert (Cloud.generateIDCard E d photoRef w
          = match qr_png E text qrOptions with
            | Some _ => (Thrown missing, w1)
            | None => (Thrown QRCodeError, w1)
            end) as HC.
  { unfold Cloud.generateIDCard. step Hqr;
      unfold Cloud.generateQRCode in Hqr; rewrite QRCode_toBuffer_run in Hqr;
      fold text in Hqr; destruct (qr_png E text qrOptions); try discriminate;
      injection Hqr as <- <-; [|done].
    by apply Hgate. }
  assert (Disk.generateIDCard E d photoRef w
          = match qr_png E text qrOptions with
            | Some qr =>
                if fs_write_ok E qrPath then (Thrown missing, written qrPath qr w1)
                else (Thrown (WriteError qrPath), emit (EvWriteFile qrPath) w1)
            | None => (Thrown QRCodeError, w1)
            end) as HD.
  { unfold Disk.generateIDCard. fold qrPath. step Hqr;
      unfold Disk.generateQRCode, QRCode_toFile, bind, writeFile in Hqr;
      rewrite QRCode_toBuffer_run in Hqr; fold text w1 in Hqr;
      destruct (qr_png E text qrOptions); try discriminate;
      destruct (fs_write_ok E qrPath); try discriminate;
      injection Hqr as <- <-; try done.
    rewrite Hgate; [done|..]; simpl; by rewrite lookup_insert_ne. }
  split; [|split; [|split; [|split]]].
  - intros qr Hqr. rewrite HC, HD, Hqr. split; [done|].
    split; intros ->; done.
  - intros Hqr. by rewrite HC, HD, Hqr.
  - rewrite HC. destruct (qr_png E text qrOptions); apply sameStores_emit.
  - rewrite HD. destruct (qr_png E text qrOptions); [|done].
    by destruct (fs_write_ok E qrPath).
  - intros p Hp. rewrite HD. destruct (qr_png E text qrOptions); [|done].
    destruct (fs_write_ok E qrPath); [|done]. simpl. by rewrite lookup_insert_ne.
Qed.

Lemma template_missing_fails_without_card_witness :
  (Cloud.generateIDCard (sampleEnv (fun _ => true)) janeDoe
     (js "https://res.cloudinary.com/demo/photo") bareWorld).1
  = Thrown (FrontTemplateNotFound (js "/srv/app/static/front_template.png")).
Proof.
  destruct (template_missing_fails_without_card (sampleEnv (fun _ => true)) janeDoe
              (js "https://res.cloudinary.com/demo/photo") bareWorld eq_refl
              (or_introl eq_refl)) as (Hqr & _).
  destruct (Hqr (pngHeader 150 150) eq_refl) as (HC & _).
  rewrite HC. reflexivity.
Defined.

(** C4, as stated, fails.  On the disk version, without templates
    [generateIDCard] fails, yet the QR image of the request is in the output
    folder afterwards.  On both versions, when the QR library cannot encode
    the payload, the failure is the QR library's, not a missing template. *)
Lemma disk_template_missing_leaves_qr_file :
  let E := sampleEnv (fun _ => true) in
  let photoPath := js "/srv/app/static/uploads/2020_1234567_photo.png" in
  let out := Disk.generateIDCard E janeDoe photoPath bareWorld in
  files bareWorld = ∅ ∧
  out.1 = Thrown (FrontTemplateNotFound (js "/srv/app/static/front_template.png")) ∧
  files out.2 !! js "/srv/app/static/id_cards/futo_2020_1234567_qr.png"
  = Some (pngHeader 150 150) ∧
  (Disk.generateIDCard E longCard photoPath bareWorld).1 = Thrown QRCodeError ∧
  (Cloud.generateIDCard E longCard photoPath bareWorld).1 = Thrown QRCodeError.
Proof.
  intros E photoPath out. split; [done|].
  split; [by vm_compute|]. split; [by vm_compute|]. split; by vm_compute.
Qed.

(** ** Uploads *)

Ltac step_in Hrun H :=
  lazymatch type of Hrun with
  | context [bind ?m ?k ?w] =>
      let a := fresh "a" in let e := fresh "e" in let w1 := fresh "w" in
      let Heq := fresh "Heq" in
      destruct (bind_cases m k w) as [(a & w1 & H & Heq) | (e & w1 & H & Heq)];
      rewrite Heq in Hrun; clear Heq; cbv beta zeta in Hrun
  end.

Lemma upload_stream_run (E : Env) (dest : list N) (id : option (list N))
    (tr : option Size) (bytes : list N) (w : World) :
  let obj := {| folder := dest; public_id := default (cloud_random_id E (upload_calls w)) id;
                transformation := tr; data := bytes |} in
  upload_stream E dest id tr bytes w
  = if cloud_accepts E (upload_calls w)
    then (Returned obj, uploaded id obj w)
    else (Thrown UploadError, refused dest id w).
Proof. done. Qed.

Lemma drawBack_error (E : Env) (p : list N) (d : CardData) (w w' : World) (e : Error) :
  drawBack E p d w = (Thrown e, w') → e = LoadImageError (FromPath p).
Proof.
  intros Hrun. unfold drawBack in Hrun.
  step_in Hrun H1; [|discriminate]. injection H1 as <- <-.
  step_in Hrun H2; [discriminate|]. rewrite loadImage_run in H2.
  destruct (sourceBytes _ _ _) as [b|]; [destruct (image_decodes E b)|];
    try discriminate H2; injection H2 as <- <-; by injection Hrun as <- _.
Qed.

Lemma unbe32_be32 (v : Z) :
  (0 <= v < 4294967296)%Z →
  ∃ b3 b2 b1 b0, be32 v = [b3; b2; b1; b0] ∧ unbe32 b3 b2 b1 b0 = v.
Proof.
  intros Hv. unfold be32. cbn [fmap list_fmap]. eexists _, _, _, _.
  split; [reflexivity|]. unfold unbe32.
  rewrite !Z2N.id by (apply Z.mod_pos_bound; lia).
  Z.div_mod_to_equations. lia.
Qed.

(** The header of a PNG tells the size it was written with. *)
Lemma pngDimensions_pngHeader (w h : Z) (rest : list N) :
  (0 <= w < 4294967296)%Z → (0 <= h < 4294967296)%Z →
  pngDimensions (pngHeader w h ++ rest) = Some (w, h).
Proof.
  intros Hw Hh.
  destruct (unbe32_be32 w Hw) as (w3 & w2 & w1 & w0 & Hbw & <-).
  destruct (unbe32_be32 h Hh) as (h3 & h2 & h1 & h0 & Hbh & <-).
  unfold pngHeader. rewrite Hbw, Hbh. reflexivity.
Qed.

Lemma pngHeader_card (rest : list N) :
  pngDimensions (pngHeader CARD_WIDTH CARD_HEIGHT ++ rest) = Some (1012, 638)%Z.
Proof. reflexivity. Qed.

Lemma toBuffer_png_card (E : Env) (c : Canvas) :
  canvas_width c = CARD_WIDTH → canvas_height c = CARD_HEIGHT →
  pngDimensions (toBuffer_png E c) = Some (1012, 638)%Z ∧ toBuffer_png E c ≠ [].
Proof.
  intros Hw Hh. unfold toBuffer_png. rewrite Hw, Hh. split; [apply pngHeader_card | done].
Qed.

(** The way through [generateIDCard] up to the upload of the front card. *)
Lemma cloud_front_phase (E : Env) (d : CardData) (photoUrl : list N) (w w' : World)
    (out : Outcome (list N * list N)) :
  Cloud.generateIDCard E d photoUrl w = (out, w') →
  (∃ e, out = Thrown e ∧ sameStores w w') ∨
  ∃ fc w3,
    canvas_width fc = CARD_WIDTH ∧ canvas_height fc = CARD_HEIGHT ∧ sameStores w w3 ∧
    let safeReg := sanitizeReg (reg d) in
    let backTemplatePath := Path.join [TEMPLATES_FOLDER E; js "back_template.png"] in
    (await frontUploadResult <-
       upload_stream E Cloud.GENERATED (Some (Cloud.frontId safeReg)) None
         (toBuffer_png E fc);
     await backCanvas <- drawBack E backTemplatePath d;
     await backBuffer <- toBuffer E backCanvas;
     await backUploadResult <-
       upload_stream E Cloud.GENERATED (Some (Cloud.backId safeReg)) None backBuffer;
     ret (cloud_secure_url E frontUploadResult, cloud_secure_url E backUploadResult))%io w3
    = (out, w').
Proof.
  intros Hrun. unfold Cloud.generateIDCard in Hrun. cbv zeta in Hrun.
  step_in Hrun Hqr; unfold Cloud.generateQRCode in Hqr;
    rewrite QRCode_toBuffer_run in Hqr; injection Hqr as _ <-;
    [|left; injection Hrun as <- <-; eexists; split; [done | apply sameStores_emit]].
  step_in Hrun Hf; [|discriminate Hf]. apply existsSync_run in Hf as [-> ->].
  lazymatch type of Hrun with context [negb ?b] => destruct b end;
    cbn [negb] in Hrun;
    [|left; injection Hrun as <- <-; eexists; split; [done | apply sameStores_emit]].
  step_in Hrun Hb; [|discriminate Hb]. apply existsSync_run in Hb as [-> ->].
  lazymatch type of Hrun with context [negb ?b] => destruct b end;
    cbn [negb] in Hrun;
    [|left; injection Hrun as <- <-; eexists; split; [done | apply sameStores_emit]].
  match type of Hrun with
  | context [drawFront E ?p ?q ?ph] =>
      pose proof (drawFront_sameStores E p q ph
                    (emit (EvQREncode (qrText (name d) (reg d) (dept d)) qrOptions) w))
        as Hsame
  end.
  step_in Hrun Hd; rewrite Hd in Hsame; simpl in Hsame.
  - pose proof (drawFront_canvas _ _ _ _ _ _ _ Hd) as [Hcw Hch].
    step_in Hrun Hbuf; [|discriminate Hbuf]. injection Hbuf as <- <-.
    right. eexists _, _. split; [exact Hcw|]. split; [exact Hch|].
    split; [|exact Hrun].
    eapply sameStores_trans; [apply sameStores_emit|].
    eapply sameStores_trans; [exact Hsame | apply sameStores_emit].
  - left. injection Hrun as <- <-. eexists. split; [done|].
    eapply sameStores_trans; [apply sameStores_emit | exact Hsame].
Qed.

Lemma cloud_generate_answers (E : Env) (r : Request) (w : World) :
  match payload (Cloud.generate E r w).1 with
  | JsonSuccess _ _ => status (Cloud.generate E r w).1 = 200%Z
  | JsonError _ | JsonException _ => status (Cloud.generate E r w).1 ≠ 200%Z
  | File _ => False
  end.
Proof.
  unfold Cloud.generate.
  destruct (Cloud.upload_single E r w) as [[file|e] w1]; [|by destruct e].
  destruct (validateFormInput (body r)); [|done].
  destruct file as [buffer|]; [|done].
  by destruct (Cloud.uploadAndGenerate E (body r) buffer w1) as [[[f b]|e] w2].
Qed.

(** C5. In [generateIDCard] the front card is uploaded before the back card
    is drawn, each upload is tried once, and nothing is removed: if the
    upload of the front card has been accepted and [generateIDCard] fails
    afterwards, because the back card cannot be drawn or its upload is
    refused, the front image stays at the provider and the caller gets an
    error only.  A request is answered with both addresses or with an
    error. *)
Theorem front_upload_not_rolled_back (E : Env) (d : CardData) (photoUrl : list N)
    (w w' : World) (e : Error) :
  Cloud.generateIDCard E d photoUrl w = (Thrown e, w') →
  upload_calls w < upload_calls w' →
  cloud_accepts E (upload_calls w) = true →
  ∃ frontBuffer,
    let frontObj := {| folder := Cloud.GENERATED;
                       public_id := Cloud.frontId (sanitizeReg (reg d));
                       transformation := None; data := frontBuffer |} in
    let back := Path.join [TEMPLATES_FOLDER E; js "back_template.png"] in
    pngDimensions frontBuffer = Some (1012, 638)%Z ∧
    cloud w' = cloud w ++ [frontObj] ∧
    files w' = files w ∧
    (e = LoadImageError (FromPath back) ∧ upload_calls w' = S (upload_calls w) ∨
     e = UploadError ∧ cloud_accepts E (S (upload_calls w)) = false ∧
     upload_calls w' = S (S (upload_calls w))) ∧
    (∀ r w0 buffer photoObj,
       Cloud.upload_single E r w0 = (Returned (Some buffer), w0) →
       validateFormInput (body r) = Valid → cardData (body r) = Some d →
       upload_stream E Cloud.UPLOADS None (Some {| width := 280; height := 280 |})
         buffer w0 = (Returned photoObj, w) →
       photoUrl = cloud_secure_url E photoObj →
       Cloud.generate E r w0 = ({| status := 500; payload := JsonException e |}, w')) ∧
    (∀ r w0, match payload (Cloud.generate E r w0).1 with
             | JsonSuccess _ _ => status (Cloud.generate E r w0).1 = 200%Z
             | JsonError _ | JsonException _ => status (Cloud.generate E r w0).1 ≠ 200%Z
             | File _ => False
             end).
Proof.
  intros Hrun Hcalls Hacc.
  assert (∀ r w0 buffer photoObj,
       Cloud.upload_single E r w0 = (Returned (Some buffer), w0) →
       validateFormInput (body r) = Valid → cardData (body r) = Some d →
       upload_stream E Cloud.UPLOADS None (Some {| width := 280; height := 280 |})
         buffer w0 = (Returned photoObj, w) →
       photoUrl = cloud_secure_url E photoObj →
       Cloud.generate E r w0 = ({| status := 500; payload := JsonException e |}, w'))
    as Hhandler.
  { intros r w0 buffer photoObj Hsingle Hvalid Hcard Hphoto ->.
    unfold Cloud.generate, Cloud.uploadAndGenerate, bind.
    by rewrite Hsingle, Hvalid, Hphoto, Hcard, Hrun. }
  destruct (cloud_front_phase E d photoUrl w w' _ Hrun)
    as [(e' & _ & (_ & _ & Hn)) | (fc & w3 & Hcw & Hch & (Hf3 & Hc3 & Hn3) & Hrest)];
    [lia|].
  cbv zeta in Hrest. exists (toBuffer_png E fc). cbv zeta.
  split; [by apply toBuffer_png_card|].
  step_in Hrest Hup; rewrite upload_stream_run, Hn3, Hacc in Hup; [|discriminate Hup].
  injection Hup as <- <-.
  match type of Hrest with
  | context [bind (drawBack E ?p ?d') _ ?w5] =>
      pose proof (drawBack_sameStores E p d' w5) as (Hf5 & Hc5 & Hn5)
  end.
  step_in Hrest Hback; rewrite Hback in Hf5, Hc5, Hn5; simpl in Hf5, Hc5, Hn5.
  - step_in Hrest Hbuf; [|discriminate Hbuf]. injection Hbuf as <- <-.
    step_in Hrest Hup2; rewrite upload_stream_run in Hup2; simpl upload_calls in Hup2;
      rewrite Hn5, Hn3 in Hup2;
      destruct (cloud_accepts E (S (upload_calls w))) eqn:Hacc2;
      try discriminate Hup2; injection Hup2 as <- <-; [discriminate Hrest|].
    injection Hrest as <- <-. simpl.
    rewrite Hc5, Hc3, Hf5, Hf3, Hn5, Hn3. repeat split; try done;
      [by right | apply cloud_generate_answers].
  - injection Hrest as <- <-. apply drawBack_error in Hback as ->.
    rewrite Hc5, Hc3, Hf5, Hf3, Hn5, Hn3. repeat split; try done.
    + by left.
    + apply cloud_generate_answers.
Qed.

Lemma front_upload_not_rolled_back_witness :
  let E := sampleEnv (fun n => Nat.eqb n 0) in
  public_id <$> cloud (Cloud.generateIDCard E janeDoe
                         (js "https://res.cloudinary.com/demo/photo") sampleWorld).2
  = [js "futo_2020_1234567_front"].
Proof.
  intros E.
  destruct (front_upload_not_rolled_back E janeDoe
              (js "https://res.cloudinary.com/demo/photo") sampleWorld
              (Cloud.generateIDCard E janeDoe
                 (js "https://res.cloudinary.com/demo/photo") sampleWorld).2
              UploadError) as (frontBuffer & _ & Hcloud & _).
  - vm_compute. reflexivity.
  - vm_compute. lia.
  - reflexivity.
  - rewrite Hcloud. reflexivity.
Defined.

(** ** A complete run *)

Lemma bind_returned {A B} (m : IO A) (k : A → IO B) (w w1 : World) (a : A) :
  m w = (Returned a, w1) → bind m k w = k a w1.
Proof. intros H. unfold bind. by rewrite H. Qed.

Lemma loadImage_ok (E : Env) (src : ImageSource) (w : World) (bytes : list N) :
  sourceBytes E src w = Some bytes → image_decodes E bytes = true →
  loadImage E src w = (Returned {| image_bytes := bytes |}, emit (EvLoadImage src) w).
Proof. intros Hs Hd. by rewrite loadImage_run, Hs, Hd. Qed.

Lemma drawFront_ok (E : Env) (p : list N) (qr ph : ImageSource) (w : World)
    (tb qb pb : list N) :
  sourceBytes E (FromPath p) w = Some tb → image_decodes E tb = true →
  sourceBytes E qr w = Some qb → image_decodes E qb = true →
  sourceBytes E ph w = Some pb → image_decodes E pb = true →
  drawFront E p qr ph w
  = (Returned
       (drawImage {| image_bytes := pb |} 640 280 280 280
          (drawImage {| image_bytes := qb |} 470 419 150 150
             (drawImage {| image_bytes := tb |} 0 0 1012 638 (createCanvas 1012 638)))),
     emit (EvLoadImage ph) (emit (EvLoadImage qr) (emit (EvLoadImage (FromPath p))
       (emit (EvCreateCanvas 1012 638) w)))).
Proof.
  intros Ht Htd Hq Hqd Hp Hpd. unfold drawFront.
  erewrite bind_returned; [|reflexivity]. cbv beta.
  erewrite bind_returned; [|by apply loadImage_ok]. cbv beta zeta.
  erewrite bind_returned;
    [|apply loadImage_ok; [|exact Hqd]; by destruct qr]. cbv beta zeta.
  erewrite bind_returned;
    [|apply loadImage_ok; [|exact Hpd]; by destruct ph]. done.
Qed.

Lemma drawBack_ok (E : Env) (p : list N) (d : CardData) (w : World) (tb : list N) :
  files w !! p = Some tb → image_decodes E tb = true →
  drawBack E p d w
  = (Returned (backText E d (drawImage {| image_bytes := tb |} 0 0 1012 638
                               (createCanvas 1012 638))),
     emit (EvLoadImage (FromPath p)) (emit (EvCreateCanvas 1012 638) w)).
Proof.
  intros Ht Htd. unfold drawBack.
  erewrite bind_returned; [|reflexivity]. cbv beta.
  erewrite bind_returned; [|by apply loadImage_ok]. done.
Qed.

Lemma valid_cardData (form : gmap string (list N)) :
  validateFormInput form = Valid →
  ∃ d, cardData form = Some d ∧ name d = prop form "name" ∧ reg d = prop form "reg" ∧
       dept d = prop form "dept".
Proof.
  unfold validateFormInput.
  destruct (firstMissing form required) eqn:Hmiss; [discriminate|]. intros _.
  pose proof (proj1 (firstMissing_None _ _) Hmiss) as Hall.
  destruct (Hall "name"%string) as (n & Hn & _); [set_solver|].
  destruct (Hall "reg"%string) as (r & Hr & _); [set_solver|].
  destruct (Hall "dept"%string) as (dp & Hd & _); [set_solver|].
  destruct (Hall "faculty"%string) as (f & Hf & _); [set_solver|].
  destruct (Hall "gender"%string) as (g & Hg & _); [set_solver|].
  destruct (Hall "expiry"%string) as (x & Hx & _); [set_solver|].
  unfold cardData, prop. rewrite Hn, Hr, Hd, Hf, Hg, Hx. simpl. by eexists.
Qed.

(** C6, as the code has it. For every valid request whose templates and
    photo are available and decode, whose QR payload the QR library encodes
    (and whose QR image decodes), and whose two uploads Cloudinary accepts,
    [generateIDCard] produces exactly two non-empty PNG buffers, front and
    back, each of a canvas of 1012 by 638 pixels, and stores them. *)
Theorem valid_request_renders_two_cards (E : Env) (form : gmap string (list N))
    (photoUrl : list N) (w : World) (ft bt qr ph : list N) :
  let front := Path.join [TEMPLATES_FOLDER E; js "front_template.png"] in
  let back := Path.join [TEMPLATES_FOLDER E; js "back_template.png"] in
  let text := qrText (prop form "name") (prop form "reg") (prop form "dept") in
  let safeReg := sanitizeReg (prop form "reg") in
  validateFormInput form = Valid →
  files w !! front = Some ft → image_decodes E ft = true →
  files w !! back = Some bt → image_decodes E bt = true →
  fetch_url E photoUrl = Some ph → image_decodes E ph = true →
  qr_png E text qrOptions = Some qr → image_decodes E qr = true →
  cloud_accepts E (upload_calls w) = true →
  cloud_accepts E (S (upload_calls w)) = true →
  ∃ d frontCanvas backCanvas w',
    let frontObj := {| folder := Cloud.GENERATED; public_id := Cloud.frontId safeReg;
                       transformation := None; data := toBuffer_png E frontCanvas |} in
    let backObj := {| folder := Cloud.GENERATED; public_id := Cloud.backId safeReg;
                      transformation := None; data := toBuffer_png E backCanvas |} in
    cardData form = Some d ∧
    Cloud.generateIDCard E d photoUrl w
    = (Returned (cloud_secure_url E frontObj, cloud_secure_url E backObj), w') ∧
    (canvas_width frontCanvas, canvas_height frontCanvas) = (1012, 638)%Z ∧
    (canvas_width backCanvas, canvas_height backCanvas) = (1012, 638)%Z ∧
    pngDimensions (toBuffer_png E frontCanvas) = Some (1012, 638)%Z ∧
    pngDimensions (toBuffer_png E backCanvas) = Some (1012, 638)%Z ∧
    toBuffer_png E frontCanvas ≠ [] ∧ toBuffer_png E backCanvas ≠ [] ∧
    cloud w' = cloud w ++ [frontObj; backObj] ∧
    buffersEncoded w' = buffersEncoded w + 2 ∧
    events w' = events w ++
      [EvQREncode text qrOptions;
       EvCreateCanvas 1012 638; EvLoadImage (FromPath front);
       EvLoadImage (FromBuffer qr); EvLoadImage (FromUrl photoUrl);
       EvToBuffer 1012 638; EvUpload Cloud.GENERATED (Some (Cloud.frontId safeReg));
       EvCreateCanvas 1012 638; EvLoadImage (FromPath back);
       EvToBuffer 1012 638; EvUpload Cloud.GENERATED (Some (Cloud.backId safeReg))].
Proof.
  intros front back text safeReg Hvalid Hft Hftd Hbt Hbtd Hph Hphd Hqr Hqrd Hup1 Hup2.
  destruct (valid_cardData form Hvalid) as (d & Hd & Hname & Hreg & Hdept).
  exists d.
  set (fc := drawImage {| image_bytes := ph |} 640 280 280 280
               (drawImage {| image_bytes := qr |} 470 419 150 150
                  (drawImage {| image_bytes := ft |} 0 0 1012 638
                     (createCanvas 1012 638)))).
  set (bc := backText E d (drawImage {| image_bytes := bt |} 0 0 1012 638
                             (createCanvas 1012 638))).
  exists fc, bc. eexists. cbv zeta.
  split; [exact Hd|]. split.
  - unfold Cloud.generateIDCard. cbv zeta.
    erewrite bind_returned;
      [|unfold Cloud.generateQRCode; rewrite QRCode_toBuffer_run, Hname, Hreg, Hdept;
        fold text; by rewrite Hqr].
    cbv beta. fold front back.
    erewrite bind_returned; [|reflexivity]. cbv beta.
    cbn [files emit]. rewrite Hft. cbn [bool_decide decide_rel negb].
    replace (bool_decide (is_Some (Some ft))) with true by done. cbn [negb].
    erewrite bind_returned; [|reflexivity]. cbv beta.
    cbn [files emit]. rewrite Hbt.
    replace (bool_decide (is_Some (Some bt))) with true by done. cbn [negb].
    erewrite bind_returned; [|by apply (drawFront_ok E front _ _ _ ft qr ph)].
    cbv beta. fold fc.
    erewrite bind_returned; [|reflexivity]. cbv beta.
    erewrite bind_returned;
      [|rewrite upload_stream_run; cbn [upload_calls emit]; by rewrite Hup1].
    cbv beta.
    erewrite bind_returned; [|by apply (drawBack_ok E back d _ bt)].
    cbv beta. fold bc.
    erewrite bind_returned; [|reflexivity]. cbv beta.
    erewrite bind_returned;
      [|rewrite upload_stream_run; cbn [upload_calls emit uploaded]; by rewrite Hup2].
    cbv beta. unfold ret. rewrite Hreg. reflexivity.
  - split; [done|]. split; [done|].
    split; [by apply toBuffer_png_card|]. split; [by apply toBuffer_png_card|].
    split; [done|]. split; [done|].
    unfold buffersEncoded.
    cbn [cloud events uploaded emit folder]. rewrite <- !app_assoc.
    split; [reflexivity|]. split; [|reflexivity].
    by rewrite List.filter_app, length_app.
Qed.

Lemma valid_request_renders_two_cards_witness :
  length (cloud (Cloud.generateIDCard (sampleEnv (fun _ => true)) janeDoe
                   (js "https://res.cloudinary.com/demo/photo") sampleWorld).2) = 2.
Proof.
  destruct (valid_request_renders_two_cards (sampleEnv (fun _ => true)) janeForm
              (js "https://res.cloudinary.com/demo/photo") sampleWorld
              (pngHeader 1012 638) (pngHeader 1012 638) (pngHeader 150 150)
              (pngHeader 280 280))
    as (d & fc & bc & w' & Hd & Hrun & _ & _ & _ & _ & _ & _ & Hcloud & _);
    [reflexivity..|].
  assert (d = janeDoe) as -> by (vm_compute in Hd; injection Hd as Hd; symmetry; exact Hd).
  rewrite Hrun. simpl. rewrite Hcloud. reflexivity.
Defined.

(** C6, as stated, fails: validation puts no bound on the department, so a
    valid request can carry more text than a QR symbol holds, and then no
    buffer is produced at all; and when Cloudinary refuses the upload of the
    front card, the back card is never drawn. *)
Lemma valid_request_without_two_cards :
  let url := js "https://res.cloudinary.com/demo/photo" in
  let tooLong := Cloud.generateIDCard (sampleEnv (fun _ => true)) longCard url sampleWorld in
  let refused := Cloud.generateIDCard (sampleEnv (fun _ => false)) janeDoe url sampleWorld in
  validateFormInput longForm = Valid ∧ cardData longForm = Some longCard ∧
  files sampleWorld !! js "/srv/app/static/front_template.png"
  = Some (pngHeader 1012 638) ∧
  files sampleWorld !! js "/srv/app/static/back_template.png"
  = Some (pngHeader 1012 638) ∧
  tooLong.1 = Thrown QRCodeError ∧ buffersEncoded tooLong.2 = 0 ∧ cloud tooLong.2 = [] ∧
  validateFormInput janeForm = Valid ∧ cardData janeForm = Some janeDoe ∧
  refused.1 = Thrown UploadError ∧ buffersEncoded refused.2 = 1 ∧ cloud refused.2 = [].
Proof.
  intros url tooLong refused.
  split; [by vm_compute|]. split; [by vm_compute|].
  split; [by vm_compute|]. split; [by vm_compute|].
  split; [by vm_compute|]. split; [by vm_compute|]. split; [by vm_compute|].
  split; [by vm_compute|]. split; [by vm_compute|].
  split; [by vm_compute|]. split; by vm_compute.
Qed.

(** * Further properties of the code *)

(** ** Validation: which error is reported *)

Lemma firstMissing_first (data : gmap string (list N)) (before after : list string)
    (f : string) :
  (∀ g, g ∈ before → Present data g) → ¬ Present data f →
  firstMissing data (before ++ f :: after) = Some f.
Proof.
  intros Hbefore Hf. induction before as [|g before IH]; simpl.
  - destruct (data !! f) as [v|] eqn:Hv; [|done].
    destruct (truthy v) eqn:Htv; [|done]. simpl.
    destruct (truthy (trim v)) eqn:Htt; [|done].
    exfalso. apply Hf. exists v. split; [done|]. by apply truthy_true.
  - destruct (Hbefore g) as (v & Hv & Hne); [by left|]. rewrite Hv.
    assert (truthy v = true) as -> by (by apply truthy_true, trim_nonempty).
    assert (truthy (trim v) = true) as -> by (by apply truthy_true).
    simpl. apply IH. intros h Hh. apply Hbefore. by right.
Qed.

(** X1. The checks of [validateFormInput] run in a fixed order, and the first
    one that fails decides the message: the first of the six fields, in the
    order name, reg, dept, faculty, gender, expiry, that is missing or blank;
    then the length of the name; then the length of the registration number;
    then its characters. *)
Theorem validateFormInput_error_order (data : gmap string (list N)) :
  (∀ before f after,
     required = before ++ f :: after →
     (∀ g, g ∈ before → Present data g) → ¬ Present data f →
     validateFormInput data = Invalid ("Missing field: " ++ f)) ∧
  (∀ n r,
     (∀ g, g ∈ required → Present data g) →
     data !! "name" = Some n → data !! "reg" = Some r →
     (100 < length n →
      validateFormInput data = Invalid "Name too long (max 100 characters)") ∧
     (length n ≤ 100 → 50 < length r →
      validateFormInput data
      = Invalid "Registration number too long (max 50 characters)") ∧
     (length n ≤ 100 → length r ≤ 50 → (∃ c, c ∈ r ∧ c ∉ regAlphabet) →
      validateFormInput data = Invalid "Invalid characters in registration number")).
Proof.
  split.
  - intros before f after Hreq Hbefore Hf. unfold validateFormInput.
    by rewrite Hreq, (firstMissing_first data before after f).
  - intros n r Hall Hn Hr. unfold validateFormInput, prop.
    rewrite (proj2 (firstMissing_None data required) Hall), Hn, Hr. simpl.
    split; [|split].
    + intros Hlen. by destruct (Nat.ltb_spec 100 (length n)); [|lia].
    + intros Hlen Hlr. destruct (Nat.ltb_spec 100 (length n)); [lia|].
      by destruct (Nat.ltb_spec 50 (length r)); [|lia].
    + intros Hlen Hlr (c & Hc & Hbad).
      destruct (Nat.ltb_spec 100 (length n)); [lia|].
      destruct (Nat.ltb_spec 50 (length r)); [lia|].
      destruct (regPattern_test r) eqn:Hpat; [|done].
      apply regPattern_test_spec in Hpat as [_ Hpat]. exfalso. by apply Hbad, Hpat.
Qed.

Lemma validateFormInput_error_order_witness :
  validateFormInput (<["name" := js "  "]> (<["reg" := js "#"]> janeForm))
  = Invalid "Missing field: name".
Proof.
  destruct (validateFormInput_error_order
              (<["name" := js "  "]> (<["reg" := js "#"]> janeForm))) as [Hmiss _].
  apply (Hmiss [] "name"%string ["reg"; "dept"; "faculty"; "gender"; "expiry"]%string).
  - reflexivity.
  - intros g Hg. by apply elem_of_nil in Hg.
  - intros (v & Hv & Hne). vm_compute in Hv. injection Hv as <-. by apply Hne.
Defined.

(** ** Validation: what counts as a field *)

Lemma firstMissing_agree (data data' : gmap string (list N)) (fields : list string) :
  (∀ f, f ∈ fields → data !! f = data' !! f) →
  firstMissing data fields = firstMissing data' fields.
Proof.
  induction fields as [|f fields IH]; [done|]. intros Hag. simpl.
  rewrite <- (Hag f) by (by left). rewrite IH; [done|].
  intros g Hg. apply Hag. by right.
Qed.

(** X2. [validateFormInput] looks at the six required fields only: forms that
    agree on them get the same answer, whatever else they carry. *)
Theorem validateFormInput_only_required (data data' : gmap string (list N)) :
  (∀ f, f ∈ required → data !! f = data' !! f) →
  validateFormInput data = validateFormInput data'.
Proof.
  intros Hag. unfold validateFormInput, prop.
  rewrite (firstMissing_agree data data' required Hag).
  rewrite (Hag "name"%string), (Hag "reg"%string); [done | set_solver | set_solver].
Qed.

Lemma validateFormInput_only_required_witness :
  validateFormInput (<["role" := js "admin"]> janeForm) = Valid.
Proof.
  rewrite (validateFormInput_only_required (<["role" := js "admin"]> janeForm) janeForm).
  - reflexivity.
  - intros f Hf. apply lookup_insert_ne. intros <-.
    revert Hf. by apply (bool_decide_eq_false_1 _); vm_compute.
Defined.

Lemma trimStart_nil (s : list N) :
  trimStart s = [] ↔ Forall (fun c => isWhiteSpace c = true) s.
Proof.
  induction s as [|c s IH]; simpl; [by split|].
  destruct (isWhiteSpace c) eqn:Hc.
  - rewrite IH. split; [by constructor | by intros [_ ?]%Forall_cons].
  - split; [done|]. intros [? _]%Forall_cons. congruence.
Qed.

Lemma trimStart_head (s : list N) (c : N) (t : list N) :
  trimStart s = c :: t → isWhiteSpace c = false.
Proof.
  induction s as [|a s IH]; simpl; [done|].
  destruct (isWhiteSpace a) eqn:Ha; [done|]. by intros [= <- _].
Qed.

Lemma trimStart_suffix (s : list N) : ∃ l, s = l ++ trimStart s ∧
  Forall (fun c => isWhiteSpace c = true) l.
Proof.
  induction s as [|a s (l & Hl & Hws)]; simpl; [by exists []|].
  destruct (isWhiteSpace a) eqn:Ha; [|by exists []].
  exists (a :: l). split; [simpl; by f_equal | by constructor].
Qed.

(** [trim] gives the empty string exactly on strings of white space. *)
Lemma trim_nil (s : list N) :
  trim s = [] ↔ Forall (fun c => isWhiteSpace c = true) s.
Proof.
  unfold trim, trimEnd. split.
  - intros H. apply (f_equal (@rev N)) in H. rewrite rev_involutive in H. simpl in H.
    apply trimStart_nil, Forall_rev in H. rewrite rev_involutive in H.
    apply trimStart_nil. destruct (trimStart s) as [|c t] eqn:Ht; [done|].
    apply trimStart_head in Ht. apply Forall_cons in H as [? _]. congruence.
  - intros H. apply trimStart_nil in H. by rewrite H.
Qed.

Lemma firstMissing_Some (data : gmap string (list N)) (fields : list string) (g : string) :
  firstMissing data fields = Some g → g ∈ fields ∧ ¬ Present data g.
Proof.
  induction fields as [|f fields IH]; simpl; [done|].
  destruct (data !! f) as [v|] eqn:Hv.
  - destruct (negb (truthy v) || negb (truthy (trim v))) eqn:Hb.
    + intros [= <-]. split; [by left|]. intros (v' & Hv' & Hne).
      rewrite Hv in Hv'. injection Hv' as <-.
      pose proof (proj2 (truthy_true _) Hne) as Ht.
      pose proof (proj2 (truthy_true _) (trim_nonempty _ Hne)) as Ht'.
      by rewrite Ht, Ht' in Hb.
    + intros [Hin Hno]%IH. split; [by right | done].
  - intros [= <-]. split; [by left|]. intros (v' & Hv' & _). congruence.
Qed.

(** X3. A required field counts as missing exactly when the form has no value
    for it or the value consists of white space only, where white space is
    what [String.prototype.trim] strips: tab, line feed, vertical tab, form
    feed, carriage return, space, no-break space, the Unicode space
    separators, the line and paragraph separators and the byte order mark. *)
Theorem validateFormInput_blank_fields (data : gmap string (list N)) :
  (∃ f, validateFormInput data = Invalid ("Missing field: " ++ f)) ↔
  ∃ f, f ∈ required ∧
       (data !! f = None ∨
        ∃ v, data !! f = Some v ∧ Forall (fun c => isWhiteSpace c = true) v).
Proof.
  assert (∀ f, ¬ Present data f ↔
               data !! f = None ∨
               ∃ v, data !! f = Some v ∧ Forall (fun c => isWhiteSpace c = true) v)
    as Hblank.
  { intros f. unfold Present. destruct (data !! f) as [v|] eqn:Hv.
    - split.
      + intros Hno. right. exists v. split; [done|]. apply trim_nil.
        destruct (trim v) eqn:Ht; [done|]. exfalso. apply Hno. exists v.
        by rewrite Ht.
      + intros [?|(v' & [= <-] & Hws)] (v'' & [= <-] & Hne); [done|].
        by apply Hne, trim_nil.
    - split; [by left|]. by intros _ (v & ? & _). }
  split.
  - intros [f Hf]. unfold validateFormInput in Hf.
    destruct (firstMissing data required) as [g|] eqn:Hmiss.
    + apply firstMissing_Some in Hmiss as [Hin Hno].
      exists g. split; [done|]. by apply Hblank.
    + exfalso. revert Hf. repeat case_match; discriminate.
  - intros (f & Hf & Hno%Hblank). unfold validateFormInput.
    destruct (firstMissing data required) as [g|] eqn:Hmiss; [by exists g|].
    exfalso. apply Hno. by apply (proj1 (firstMissing_None data required)).
Qed.

(** ** Sanitized registration numbers *)

Lemma sanitizeReg_lookup (reg : list N) (i : nat) :
  sanitizeReg reg !! i = (fun c => if safeChar c then c else 95%N) <$> reg !! i.
Proof. unfold sanitizeReg. apply list_lookup_fmap. Qed.

(** X4. Sanitizing keeps the length and the safe characters, puts an underscore
    in place of every other code unit, and changes nothing when applied a
    second time; it leaves a string alone exactly when the string is safe
    already.  On a registration number that passed validation it changes
    spaces, dots and slashes only. *)
Theorem sanitizeReg_shape (reg : list N) :
  length (sanitizeReg reg) = length reg ∧
  (∀ i c, reg !! i = Some c →
     sanitizeReg reg !! i = Some (if safeChar c then c else 95%N)) ∧
  sanitizeReg (sanitizeReg reg) = sanitizeReg reg ∧
  (sanitizeReg reg = reg ↔ Forall (fun c => safeChar c = true) reg) ∧
  (regPattern_test reg = true →
   ∀ i c, reg !! i = Some c → sanitizeReg reg !! i ≠ Some c →
          c = 32%N ∨ c = 46%N ∨ c = 47%N).
Proof.
  split; [apply length_fmap|]. split.
  { intros i c Hc. by rewrite sanitizeReg_lookup, Hc. }
  split.
  { unfold sanitizeReg. rewrite <- list_fmap_compose. apply list_fmap_ext.
    intros i c _. simpl. destruct (safeChar c) eqn:Hc; [by rewrite Hc | done]. }
  split.
  { split.
    - intros Heq. rewrite <- Heq. apply sanitizeReg_safe.
    - intros Hsafe. unfold sanitizeReg. rewrite <- (list_fmap_id reg) at 2.
      apply list_fmap_ext. intros i c Hc. simpl.
      rewrite Forall_forall in Hsafe. rewrite Hsafe; [done|].
      by apply list_elem_of_lookup_2 in Hc. }
  intros Hpat i c Hc Hchanged.
  rewrite sanitizeReg_lookup, Hc in Hchanged. simpl in Hchanged.
  destruct (safeChar c) eqn:Hsafe; [done|].
  unfold regPattern_test in Hpat. apply andb_true_iff in Hpat as [_ Hall].
  rewrite forallb_forall in Hall.
  assert (regChar c = true) as Hreg
    by (apply Hall, list_elem_of_In; by apply list_elem_of_lookup_2 in Hc).
  clear -Hsafe Hreg. unfold regChar, safeChar in *.
  rewrite !orb_true_iff, !andb_true_iff, !N.leb_le, !N.eqb_eq in Hreg.
  rewrite !orb_false_iff, !andb_false_iff, !N.leb_gt, !N.eqb_neq in Hsafe. lia.
Qed.

Lemma sanitizeReg_shape_witness :
  sanitizeReg (js "2020/1234567") !! 4 = Some 95%N.
Proof.
  destruct (sanitizeReg_shape (js "2020/1234567")) as (_ & Hat & _).
  rewrite (Hat 4 47%N); reflexivity.
Defined.

(** ** The QR payload can be read back *)

Lemma split_at_first {A} (x : A) (a a' b b' : list A) :
  x ∉ a → x ∉ a' → a ++ x :: b = a' ++ x :: b' → a = a' ∧ b = b'.
Proof.
  revert a'. induction a as [|c a IH]; intros [|c' a'] Ha Ha'; simpl.
  - by intros [= ->].
  - intros [= <- _]. exfalso. apply Ha'. by left.
  - intros [= -> _]. exfalso. apply Ha. by left.
  - intros [= <- Heq]. apply not_elem_of_cons in Ha as [_ Ha].
    apply not_elem_of_cons in Ha' as [_ Ha'].
    destruct (IH a' Ha Ha' Heq) as [-> ->]. done.
Qed.

(** X5. Two requests whose names and registration numbers hold no line feed get
    the same QR text only if they agree on name, registration number and
    department. *)
Theorem qrText_injective (name reg dept name' reg' dept' : list N) :
  10%N ∉ name → 10%N ∉ name' → 10%N ∉ reg → 10%N ∉ reg' →
  qrText name reg dept = qrText name' reg' dept' →
  name = name' ∧ reg = reg' ∧ dept = dept'.
Proof.
  intros Hn Hn' Hr Hr' Heq. unfold qrText in Heq.
  apply app_inv_head in Heq.
  apply (split_at_first 10%N) in Heq as [-> Heq]; [|done..].
  apply app_inv_head in Heq.
  apply (split_at_first 10%N) in Heq as [-> Heq]; [|done..].
  apply app_inv_head in Heq. done.
Qed.

Lemma qrText_injective_witness :
  js "Jane Doe" = js "Jane Doe" ∧ js "2020/1234567" = js "2020/1234567" ∧
  js "Computer Science" = js "Computer Science".
Proof.
  apply (qrText_injective (js "Jane Doe") (js "2020/1234567") (js "Computer Science")
           (js "Jane Doe") (js "2020/1234567") (js "Computer Science"));
    [by apply (bool_decide_eq_false_1 _); vm_compute .. | reflexivity].
Defined.

(** A validated registration number holds no line feed. *)
Lemma regPattern_no_newline (reg : list N) : regPattern_test reg = true → 10%N ∉ reg.
Proof.
  intros [_ Hall]%regPattern_test_spec Hin. apply Hall in Hin.
  revert Hin. by apply (bool_decide_eq_false_1 _); vm_compute.
Qed.

(** ** Names in Basic Latin *)

Lemma codePoints_ascii (s : list N) :
  Forall (fun c => (c < 128)%N) s → codePoints s = s.
Proof.
  induction 1 as [|c s Hc Hs IH]; [done|].
  destruct s as [|l s]; [done|].
  change (codePoints (c :: l :: s)) with
    (if isHighSurrogate c && isLowSurrogate l
     then pairToCodePoint c l :: codePoints s
     else c :: codePoints (l :: s)).
  assert (isHighSurrogate c = false) as ->
    by (unfold isHighSurrogate; apply andb_false_iff; left; apply N.leb_gt; lia).
  simpl andb. cbv iota. by rewrite IH.
Qed.

Lemma asciiUpper_ascii (c : N) : (c < 128)%N → (asciiUpper c < 128)%N.
Proof. intros Hc. unfold asciiUpper. destruct ((97 <=? c) && (c <=? 122))%N; lia. Qed.

Lemma fromCodePoints_bmp (s : list N) :
  Forall (fun c => (c < 65536)%N) s → fromCodePoints s = s.
Proof.
  induction 1 as [|c s Hc Hs IH]; [done|].
  unfold fromCodePoints in *. simpl. rewrite IH. unfold codeUnits.
  by destruct (N.ltb_spec c 65536); [|lia].
Qed.

(** X6. On a name in Basic Latin, [toUpperCase] works letter by letter, whatever
    the case mapping does elsewhere: the result has the length of the name,
    holds the capital of every small letter and every other character
    unchanged, and holds no small letter. *)
Theorem toUpperCase_ascii (U : CaseTable) (s : list N) :
  Forall (fun c => (c < 128)%N) s →
  toUpperCase U s = asciiUpper <$> s ∧
  length (toUpperCase U s) = length s ∧
  Forall (fun c => ¬ (97 <= c <= 122)%N) (toUpperCase U s).
Proof.
  intros Hs.
  assert (toUpperCase U s = asciiUpper <$> s) as Heq.
  { unfold toUpperCase. rewrite (codePoints_ascii s Hs).
    assert (flat_map (upperCodePoint U) s = asciiUpper <$> s) as ->.
    { induction Hs as [|c s Hc Hs IH]; [done|]. simpl. rewrite IH.
      unfold upperCodePoint. by destruct (N.ltb_spec c 128); [|lia]. }
    apply fromCodePoints_bmp, Forall_fmap. eapply Forall_impl; [exact Hs|].
    intros c Hc. simpl. pose proof (asciiUpper_ascii c Hc). lia. }
  rewrite Heq. split; [done|]. split; [apply length_fmap|].
  apply Forall_fmap. eapply Forall_impl; [exact Hs|]. intros c Hc. simpl.
  unfold asciiUpper. destruct ((97 <=? c) && (c <=? 122))%N eqn:Hlow.
  - apply andb_true_iff in Hlow as [?%N.leb_le ?%N.leb_le]. lia.
  - apply andb_false_iff in Hlow as [?%N.leb_gt | ?%N.leb_gt]; lia.
Qed.

Lemma toUpperCase_ascii_witness :
  toUpperCase latinOnly (js "Jane Doe") = js "JANE DOE".
Proof.
  destruct (toUpperCase_ascii latinOnly (js "Jane Doe")) as (Heq & _).
  - simpl. by repeat constructor.
  - rewrite Heq. reflexivity.
Defined.

(** ** File extensions *)

Section Extname.

Import Path.

Lemma scanned_extension (p : list N) (n : nat) (st st' : ExtScan) :
  scanned p n st → startDot st' = startDot st → endPos st' = endPos st →
  startDot st' = (-1)%Z ∨ endPos st' = (-1)%Z ∨ extensionAt p st'.
Proof.
  intros (Hflag & Hnone & Hsome) Hsd He.
  destruct (Z.eq_dec (endPos st) (-1)%Z) as [Hend|Hend]; [right; left; congruence|].
  destruct (Z.eq_dec (startDot st) (-1)%Z) as [Hdot|Hdot]; [left; congruence|].
  right. right. destruct (Hsome Hend) as (Hrange & Htrail & Hslash & _ & Hd).
  destruct (Hd Hdot) as (Hpos & Hat & Hlater).
  unfold extensionAt. rewrite Hsd, He.
  split; [lia|]. split; [lia|]. split; [done|].
  split; [intros j Hj; apply Hslash; lia|]. by split.
Qed.

Lemma scanned_intro (p : list N) (n : nat) (st : ExtScan) :
  matchedSlash st = false →
  (Z.of_nat n <= endPos st <= Z.of_nat (length p))%Z →
  (∀ j, (endPos st <= Z.of_nat j)%Z → j < length p → nth j p 0%N = SLASH) →
  (∀ j, (Z.of_nat n <= Z.of_nat j < endPos st)%Z → nth j p 0%N ≠ SLASH) →
  (startDot st = (-1)%Z →
     ∀ j, (Z.of_nat n <= Z.of_nat j < endPos st)%Z → nth j p 0%N ≠ DOT) →
  (startDot st ≠ (-1)%Z →
     (Z.of_nat n <= startDot st < endPos st)%Z ∧
     nth (Z.to_nat (startDot st)) p 0%N = DOT ∧
     ∀ j, (startDot st < Z.of_nat j < endPos st)%Z → nth j p 0%N ≠ DOT) →
  scanned p n st.
Proof.
  intros Hm Hrange Htrail Hslash Hnodot Hdot.
  split; [rewrite Hm; split; [done | lia]|]. split; [lia|]. by intros _.
Qed.

Lemma scanned_same (p : list N) (n : nat) (st st' : ExtScan) :
  scanned p n st → startDot st' = startDot st → endPos st' = endPos st →
  matchedSlash st' = matchedSlash st → scanned p n st'.
Proof. unfold scanned. intros H -> -> ->. exact H. Qed.

Lemma extScan_extension (p : list N) (n : nat) (st : ExtScan) :
  n ≤ length p → scanned p n st →
  startDot (extScan p n st) = (-1)%Z ∨ endPos (extScan p n st) = (-1)%Z ∨
  extensionAt p (extScan p n st).
Proof.
  revert st. induction n as [|i IH]; intros st Hn Hsc;
    pose proof Hsc as (Hflag & Hnone & Hsome).
  - simpl. by apply (scanned_extension p 0 st).
  - simpl. destruct (N.eqb_spec (nth i p 0%N) SLASH) as [Hcode|Hcode].
    + destruct (matchedSlash st) eqn:Hm; simpl.
      * apply IH; [lia|]. pose proof (proj1 Hflag eq_refl) as He.
        destruct (Hnone He) as [Hsd Hall].
        split; [done|]. split; [|done]. intros _. split; [done|].
        intros j Hj. destruct (decide (j = i)) as [->|]; [done|]. apply Hall. lia.
      * match goal with
        | |- _ ∨ _ ∨ extensionAt p ?s =>
            exact (scanned_extension p (S i) st s Hsc eq_refl eq_refl)
        end.
    + apply IH; [lia|].
      destruct (Z.eqb_spec (endPos st) (-1)%Z) as [He|He].
      * (* the first character that is no slash *)
        destruct (Hnone He) as [Hsd Hall]. rewrite Hsd. simpl Z.eqb. cbv iota.
        cbn [startDot endPos matchedSlash preDotState startPart negb].
        assert (∀ j, (Z.of_nat i + 1 <= Z.of_nat j)%Z → j < length p →
                     nth j p 0%N = SLASH) as Htrail
          by (intros j Hj Hlt; apply Hall; lia).
        assert (∀ j, (Z.of_nat i <= Z.of_nat j < Z.of_nat i + 1)%Z →
                     nth j p 0%N ≠ SLASH) as Hslash
          by (intros j Hj; by replace j with i by lia).
        destruct (N.eqb_spec (nth i p 0%N) DOT) as [Hdotc|Hdotc];
          apply scanned_intro; cbn [startDot endPos matchedSlash preDotState startPart];
          try done; try lia.
        -- intros _. split; [lia|]. split; [by rewrite Nat2Z.id | intros j Hj; lia].
        -- intros _ j Hj. by replace j with i by lia.
      * destruct (Hsome He) as (Hrange & Htrail & Hslash & Hnodot & Hdot).
        assert (matchedSlash st = false) as Hm.
        { destruct (matchedSlash st); [|done]. by destruct He; apply Hflag. }
        assert (∀ j, (Z.of_nat i <= Z.of_nat j < endPos st)%Z → nth j p 0%N ≠ SLASH)
          as Hslash'.
        { intros j Hj. destruct (decide (j = i)) as [->|]; [done|]. apply Hslash. lia. }
        destruct (Z.eqb_spec (startDot st) (-1)%Z) as [Hsd|Hsd];
          destruct (N.eqb_spec (nth i p 0%N) DOT) as [Hdotc|Hdotc]; cbn [negb].
        -- apply scanned_intro; cbn [startDot endPos matchedSlash]; try done; try lia.
           intros _. split; [lia|]. split; [by rewrite Nat2Z.id|].
           intros j Hj. apply Hnodot; [done | lia].
        -- apply scanned_intro; try done; try lia.
           intros _ j Hj. destruct (decide (j = i)) as [->|]; [done|].
           apply Hnodot; [done | lia].
        -- destruct (Hdot Hsd) as (Hpos & Hat & Hlater).
           apply (scanned_same p i st); [|by destruct (negb _)..].
           apply scanned_intro; try done; try lia. intros _. split; [lia | done].
        -- destruct (Hdot Hsd) as (Hpos & Hat & Hlater).
           apply (scanned_same p i st); [|done..].
           apply scanned_intro; try done; try lia. intros _. split; [lia | done].
Qed.

Lemma extInit_scanned (p : list N) : scanned p (length p) extInit.
Proof.
  split; [done|]. split; [|done]. intros _. split; [done|]. intros j Hj. lia.
Qed.

Lemma nth_elem (l : list N) (P : N → Prop) (from : nat) :
  (∀ j, from ≤ j < length l → P (nth j l 0%N)) → Forall P (drop from l).
Proof.
  intros H. apply Forall_lookup. intros k c Hk. rewrite lookup_drop in Hk.
  pose proof (lookup_lt_Some _ _ _ Hk) as Hlt.
  specialize (H (from + k) ltac:(lia)). by rewrite (nth_lookup_Some _ _ _ _ Hk) in H.
Qed.

Lemma extensionAt_parts (p : list N) (st : ExtScan) :
  extensionAt p st →
  ∃ a name z,
    p = a ++ (DOT :: name) ++ z ∧ slice p (startDot st) (endPos st) = DOT :: name ∧
    (SLASH ∉ name) ∧ (DOT ∉ name) ∧ Forall (λ c, c = SLASH) z.
Proof.
  intros (Hpos & Hlen & Hat & Hslash & Hdot & Htrail).
  set (s := Z.to_nat (startDot st)) in *. set (e := Z.to_nat (endPos st)).
  assert (s < e ≤ length p) as Hse by lia.
  assert (startDot st = Z.of_nat s) as Hs by lia.
  assert (endPos st = Z.of_nat e) as He by lia.
  rewrite Hs, He in *. clearbody s e. clear Hs He Hpos Hlen.
  exists (take s p), (take (e - S s) (drop (S s) p)), (drop e p).
  assert (slice p (Z.of_nat s) (Z.of_nat e) = DOT :: take (e - S s) (drop (S s) p))
    as Hslice.
  { unfold slice. replace (Z.to_nat (Z.of_nat e - Z.of_nat s)) with (S (e - S s)) by lia.
    rewrite Nat2Z.id.
    destruct (p !! s) as [c|] eqn:Hc; [|apply lookup_ge_None in Hc; lia].
    rewrite (drop_S _ _ _ Hc). simpl. f_equal.
    by rewrite (nth_lookup_Some _ _ _ _ Hc) in Hat. }
  split.
  { rewrite <- Hslice. unfold slice. rewrite Nat2Z.id.
    replace (Z.to_nat (Z.of_nat e - Z.of_nat s)) with (e - s) by lia.
    rewrite <- (take_drop s p) at 1. f_equal.
    rewrite <- (take_drop (e - s) (drop s p)) at 1. f_equal.
    rewrite drop_drop. f_equal. lia. }
  split; [done|].
  assert (∀ c, c ∈ take (e - S s) (drop (S s) p) →
               ∃ j, S s ≤ j < e ∧ nth j p 0%N = c) as Hin.
  { intros c [k Hk]%list_elem_of_lookup. apply lookup_take_Some in Hk as [Hk Hlt].
    rewrite lookup_drop in Hk. exists (S s + k). split; [lia|].
    by apply nth_lookup_Some. }
  split; [|split].
  - intros (j & Hj & Hc)%Hin. apply (Hslash j); [lia | done].
  - intros (j & Hj & Hc)%Hin. apply (Hdot j); [lia | done].
  - apply (nth_elem p (λ c, c = SLASH) e). intros j Hj. apply Htrail; lia.
Qed.

(** What [path.extname] answers, and where it lies in the path. *)
Lemma extname_parts (p : list N) :
  extname p = [] ∨
  ∃ a name z,
    p = a ++ extname p ++ z ∧ extname p = DOT :: name ∧
    (SLASH ∉ name) ∧ (DOT ∉ name) ∧ Forall (λ c, c = SLASH) z.
Proof.
  unfold extname.
  destruct (extScan_extension p (length p) extInit (le_n _) (extInit_scanned p))
    as [Hsd|[He|Hext]].
  - left. by rewrite Hsd.
  - left. rewrite He. by rewrite orb_true_r.
  - destruct (_ || _ || _ || _)%bool; [by left|]. right.
    destruct (extensionAt_parts p _ Hext) as (a & name & z & Hp & Hs & H1 & H2 & H3).
    exists a, name, z. by rewrite Hs.
Qed.

(** X7. [path.extname] answers the empty string, or the last dot of the path
    with what follows it up to the slashes that end the path.  The answer is
    a piece of the path, holds no slash, and holds no dot but its first
    character. *)
Theorem extname_shape (p : list N) :
  (SLASH ∉ extname p) ∧ length (extname p) ≤ length p ∧
  (extname p = [] ∨
   ∃ a name z,
     p = a ++ (DOT :: name) ++ z ∧ extname p = DOT :: name ∧
     (DOT ∉ name) ∧ Forall (λ c, c = SLASH) z).
Proof.
  destruct (extname_parts p) as [Hnil|(a & name & z & Hp & He & Hs & Hd & Hz)].
  - rewrite Hnil. split; [by apply not_elem_of_nil|]. split; [simpl; lia | by left].
  - split; [|split].
    + rewrite He. by intros [?|?]%elem_of_cons.
    + rewrite Hp at 2. rewrite !length_app. lia.
    + right. exists a, name, z. by rewrite <- He.
Qed.

End Extname.

(** ** The extension of a well-formed file name *)

Section ExtnameOf.

Import Path.

(** Once the scan has found the dot and the end of the last segment, it
    keeps them. *)
Lemma extScan_found (p : list N) (n : nat) (st : ExtScan) :
  startDot st ≠ (-1)%Z → endPos st ≠ (-1)%Z →
  startDot (extScan p n st) = startDot st ∧ endPos (extScan p n st) = endPos st ∧
  (preDotState st ≠ 0%Z → preDotState (extScan p n st) ≠ 0%Z).
Proof.
  revert st. induction n as [|i IH]; intros st Hsd He; [done|].
  simpl. destruct (nth i p 0%N =? SLASH)%N.
  - destruct (negb (matchedSlash st)); [done | by apply IH].
  - apply Z.eqb_neq in He as He'. rewrite He'. apply Z.eqb_neq in Hsd as Hsd'.
    rewrite Hsd'. cbn [negb].
    destruct (nth i p 0%N =? DOT)%N; [destruct (negb (preDotState st =? 1)%Z) eqn:Hpre|].
    + destruct (IH {| startDot := startDot st; startPart := startPart st;
                      endPos := endPos st; matchedSlash := matchedSlash st;
                      preDotState := 1 |} Hsd He) as (H1 & H2 & H3).
      split; [done|]. split; [done|]. intros _. by apply H3.
    + by apply IH.
    + destruct (IH {| startDot := startDot st; startPart := startPart st;
                      endPos := endPos st; matchedSlash := matchedSlash st;
                      preDotState := -1 |} Hsd He) as (H1 & H2 & H3).
      split; [done|]. split; [done|]. intros _. by apply H3.
Qed.

(** Characters that are no slash and no dot, met after the end of the
    segment and before its last dot, leave the scan as it is. *)
Lemma extScan_skip (p : list N) (k n : nat) (st : ExtScan) :
  startDot st = (-1)%Z → endPos st ≠ (-1)%Z →
  (∀ j, k ≤ j < k + n → nth j p 0%N ≠ SLASH ∧ nth j p 0%N ≠ DOT) →
  extScan p (k + n) st = extScan p k st.
Proof.
  intros Hsd He. induction n as [|i IH]; intros Hp; [by rewrite Nat.add_0_r|].
  replace (k + S i) with (S (k + i)) by lia. simpl.
  destruct (Hp (k + i) ltac:(lia)) as [Hs Hd].
  apply N.eqb_neq in Hs as ->. apply N.eqb_neq in Hd as ->.
  apply Z.eqb_neq in He as ->. rewrite Hsd. simpl Z.eqb. cbn [negb].
  apply IH. intros j Hj. apply Hp. lia.
Qed.

(** A character of the segment met after its last dot settles that the dot
    is not the first character of the segment. *)
Lemma extScan_before_dot (p : list N) (i : nat) (st : ExtScan) :
  nth i p 0%N ≠ SLASH → startDot st ≠ (-1)%Z → endPos st ≠ (-1)%Z →
  ∃ st', extScan p (S i) st = extScan p i st' ∧ startDot st' = startDot st ∧
         endPos st' = endPos st ∧ preDotState st' ≠ 0%Z.
Proof.
  intros Hc Hsd He. simpl.
  apply N.eqb_neq in Hc as ->. apply Z.eqb_neq in He as ->. apply Z.eqb_neq in Hsd as ->.
  cbn [negb]. destruct (nth i p 0%N =? DOT)%N.
  - destruct (Z.eqb_spec (preDotState st) 1) as [H1|H1]; cbn [negb];
      eexists; (split; [reflexivity|]); cbn; repeat split; lia.
  - eexists. split; [reflexivity|]. cbn. repeat split; lia.
Qed.

Lemma nth_suffix (stem ext : list N) (j : nat) :
  nth (length stem + j) (stem ++ ext) 0%N = nth j ext 0%N.
Proof. rewrite app_nth2 by lia. f_equal. lia. Qed.

Lemma nth_not_elem (l : list N) (c : N) (j : nat) :
  c ∉ l → j < length l → nth j l 0%N ≠ c.
Proof.
  intros Hc Hj Heq. apply Hc. rewrite <- Heq.
  apply list_elem_of_In, nth_In. lia.
Qed.

(** The extension of a name that ends in a dot and a non-empty run of
    characters other than dots and slashes, the dot not being the first
    character of its segment. *)
Lemma extname_of_suffix (stem : list N) (c : N) (ext : list N) :
  c ≠ SLASH → ext ≠ [] → SLASH ∉ ext → DOT ∉ ext →
  extname ((stem ++ [c]) ++ DOT :: ext) = DOT :: ext.
Proof.
  intros Hc Hne Hslash Hdot.
  set (base := stem ++ [c]). set (p := base ++ DOT :: ext).
  assert (length base = S (length stem)) as Hbase
    by (unfold base; rewrite length_app; simpl; lia).
  assert (length p = length base + 1 + length ext) as Hlen
    by (unfold p; rewrite length_app; simpl; lia).
  assert (∀ j, j < length ext → nth (length base + 1 + j) p 0%N = nth j ext 0%N) as Hext.
  { intros j Hj. unfold p. replace (length base + 1 + j) with (length base + S j) by lia.
    by rewrite nth_suffix. }
  assert (nth (length base) p 0%N = DOT) as Hat.
  { unfold p. replace (length base) with (length base + 0) at 1 by lia.
    by rewrite nth_suffix. }
  assert (nth (length stem) p 0%N = c) as Hlast.
  { unfold p, base. rewrite <- app_assoc.
    replace (length stem) with (length stem + 0) at 1 by lia. by rewrite nth_suffix. }
  destruct (length ext) as [|m] eqn:Hm; [by destruct ext|].
  (* the last character of the name *)
  set (st1 := {| startDot := -1; startPart := 0; endPos := Z.of_nat (length p);
                 matchedSlash := false; preDotState := 0 |}).
  assert (extScan p (length p) extInit = extScan p (length base + 1 + m) st1) as H1.
  { rewrite Hlen. replace (length base + 1 + S m) with (S (length base + 1 + m)) by lia.
    simpl extScan. rewrite (Hext m) by lia.
    assert (nth m ext 0%N ≠ SLASH) as ->%N.eqb_neq by (apply nth_not_elem; [done | lia]).
    assert (nth m ext 0%N ≠ DOT) as ->%N.eqb_neq by (apply nth_not_elem; [done | lia]).
    simpl. unfold st1. do 2 f_equal. lia. }
  (* the rest of the extension *)
  assert (extScan p (length base + 1 + m) st1 = extScan p (length base + 1) st1) as H2.
  { apply extScan_skip; [done | simpl; lia |].
    intros j Hj. replace j with (length base + 1 + (j - (length base + 1))) by lia.
    rewrite Hext by lia. split; apply nth_not_elem; (done || lia). }
  (* the dot *)
  set (st2 := {| startDot := Z.of_nat (length base); startPart := 0;
                 endPos := Z.of_nat (length p); matchedSlash := false;
                 preDotState := 0 |}).
  assert (extScan p (length base + 1) st1 = extScan p (length base) st2) as H3.
  { replace (length base + 1) with (S (length base)) by lia. simpl extScan.
    rewrite Hat. simpl. replace (Z.pos (Pos.of_succ_nat (length p)))
      with (Z.of_nat (S (length p))) by lia.
    by destruct (length p). }
  (* the character before the dot, and what precedes it *)
  assert (∃ st3, extScan p (length base) st2 = extScan p (length stem) st3 ∧
                 startDot st3 = Z.of_nat (length base) ∧
                 endPos st3 = Z.of_nat (length p) ∧ preDotState st3 ≠ 0%Z)
    as (st3 & H4 & Hsd3 & He3 & Hpre3).
  { destruct (extScan_before_dot p (length stem) st2) as (st3 & Ha & Hb & Hd & He);
      [by rewrite Hlast | simpl; lia | simpl; lia |].
    exists st3. split; [by rewrite Hbase|]. split; [exact Hb|]. split; [exact Hd | exact He]. }
  destruct (extScan_found p (length stem) st3) as (Hsd & He & Hpre); [lia..|].
  specialize (Hpre Hpre3).
  unfold extname. rewrite H1, H2, H3, H4, Hsd, He, Hsd3, He3.
  replace (Z.of_nat (length base) =? -1)%Z with false by (symmetry; apply Z.eqb_neq; lia).
  replace (Z.of_nat (length p) =? -1)%Z with false by (symmetry; apply Z.eqb_neq; lia).
  apply Z.eqb_neq in Hpre as ->.
  replace (Z.of_nat (length base) =? Z.of_nat (length p) - 1)%Z with false
    by (symmetry; apply Z.eqb_neq; lia).
  rewrite andb_false_r. simpl orb. cbv iota.
  unfold slice. rewrite Nat2Z.id.
  replace (Z.to_nat (Z.of_nat (length p) - Z.of_nat (length base)))
    with (length (DOT :: ext)) by (simpl; lia).
  unfold p. rewrite drop_app_length. apply firstn_all.
Qed.

End ExtnameOf.

(** ** The upload filter *)

Lemma asciiLower_ascii (c : N) : (c < 128)%N → (asciiLower c < 128)%N.
Proof.
  intros Hc. unfold asciiLower. destruct ((65 <=? c) && (c <=? 90))%N eqn:H; [|done].
  apply andb_true_iff in H as [?%N.leb_le ?%N.leb_le]. lia.
Qed.

Lemma toLowerCase_basic (U : CaseTable) (s : list N) :
  Forall (fun c => (c < 128)%N) s → toLowerCase U s = asciiLower <$> s.
Proof.
  intros Hs. unfold toLowerCase. rewrite (codePoints_ascii s Hs).
  assert (flat_map (lowerCodePoint U) s = asciiLower <$> s) as ->.
  { induction Hs as [|c s Hc Hs IH]; [done|]. simpl. rewrite IH.
    unfold lowerCodePoint. by destruct (N.ltb_spec c 128); [|lia]. }
  apply fromCodePoints_bmp, Forall_fmap. eapply Forall_impl; [exact Hs|].
  intros c Hc. simpl. pose proof (asciiLower_ascii c Hc). lia.
Qed.

Lemma asciiLower_separator (c d : N) :
  asciiLower c = d → (d < 65 ∨ 122 < d)%N → c = d.
Proof.
  unfold asciiLower. destruct ((65 <=? c) && (c <=? 90))%N eqn:H; [|done].
  apply andb_true_iff in H as [?%N.leb_le ?%N.leb_le]. lia.
Qed.

Lemma asciiLower_free (s : list N) (d : N) :
  (d < 65 ∨ 122 < d)%N → d ∉ asciiLower <$> s → d ∉ s.
Proof.
  intros Hd Hfree Hin. apply Hfree, list_elem_of_fmap. exists d. split; [|done].
  unfold asciiLower. destruct ((65 <=? d) && (d <=? 90))%N eqn:H; [|done].
  apply andb_true_iff in H as [?%N.leb_le ?%N.leb_le]. lia.
Qed.

Lemma allowList_cases (e : list N) :
  e ∈ allowList → e = js "jpeg" ∨ e = js "jpg" ∨ e = js "png" ∨ e = js "gif".
Proof. unfold allowList. rewrite !elem_of_cons, elem_of_nil. tauto. Qed.

(** X8. A photo whose name ends in [.jpeg], [.jpg], [.png] or [.gif], in
    small or capital letters, after at least one character of the file's own
    name, and whose declared type is the matching [image/...] type, passes
    the upload filter. *)
Theorem fileFilter_accepts_images (U : CaseTable) (file : FilePart)
    (stem : list N) (c : N) (ext : list N) :
  originalname file = (stem ++ [c]) ++ Path.DOT :: ext →
  c ≠ Path.SLASH →
  Forall (fun c => (c < 128)%N) ext →
  asciiLower <$> ext ∈ allowList →
  mimetype file ∈ (fun t => js "image/" ++ t) <$> allowList →
  Path.extname (originalname file) = Path.DOT :: ext ∧
  fileFilter U file = true.
Proof.
  intros Hname Hc Hascii Hext Hmime.
  assert (Path.extname (originalname file) = Path.DOT :: ext) as Hextname.
  { rewrite Hname. apply extname_of_suffix; [done | | |].
    - intros ->. by apply allowList_cases in Hext as [?|[?|[?|?]]].
    - apply (asciiLower_free ext); [unfold Path.SLASH; lia|].
      intros Hin. by apply allowList_cases in Hext as [H|[H|[H|H]]];
        rewrite H in Hin; revert Hin; apply (bool_decide_eq_false_1 _); vm_compute.
    - apply (asciiLower_free ext); [unfold Path.DOT; lia|].
      intros Hin. by apply allowList_cases in Hext as [H|[H|[H|H]]];
        rewrite H in Hin; revert Hin; apply (bool_decide_eq_false_1 _); vm_compute. }
  split; [done|]. unfold fileFilter. rewrite Hextname.
  rewrite toLowerCase_basic by (apply Forall_cons; split; [unfold Path.DOT; lia | done]).
  rewrite fmap_cons. apply andb_true_iff. split.
  - apply list_elem_of_fmap in Hmime as (t & Ht & Hin). rewrite Ht.
    by apply allowList_cases in Hin as [-> | [-> | [-> | ->]]]; vm_compute.
  - by apply allowList_cases in Hext as [-> | [-> | [-> | ->]]]; vm_compute.
Qed.

Lemma fileFilter_accepts_images_witness :
  let file := {| originalname := js "Jane.Doe.PNG"; mimetype := js "image/png";
                 content := [] |} in
  Path.extname (originalname file) = Path.DOT :: js "PNG" ∧
  fileFilter latinOnly file = true.
Proof.
  intros file.
  apply (fileFilter_accepts_images latinOnly file (js "Jane.Do") 101%N (js "PNG")).
  - by vm_compute.
  - by vm_compute.
  - by apply (bool_decide_unpack _); vm_compute.
  - by apply (bool_decide_unpack _); vm_compute.
  - by apply (bool_decide_unpack _); vm_compute.
Defined.

(** X9. What the upload filter lets through has a name with an extension,
    a dot and at least one character that is no dot and no slash, and a
    declared type that holds one of the four words.  A name without a dot
    never passes. *)
Theorem fileFilter_needs_extension (U : CaseTable) (file : FilePart) :
  fileFilter U file = true →
  allowedTypes_test (mimetype file) = true ∧
  ∃ a name z,
    originalname file = a ++ (Path.DOT :: name) ++ z ∧
    Path.extname (originalname file) = Path.DOT :: name ∧
    name ≠ [] ∧ (Path.SLASH ∉ name) ∧ (Path.DOT ∉ name) ∧
    Forall (λ c, c = Path.SLASH) z.
Proof.
  unfold fileFilter. intros [Hm He]%andb_true_iff. split; [done|].
  destruct (extname_parts (originalname file))
    as [Hnil|(a & name & z & Hp & Hext & Hs & Hd & Hz)].
  - rewrite Hnil in He. by vm_compute in He.
  - exists a, name, z. rewrite <- Hext. split; [done|]. split; [done|].
    split; [|done]. intros ->. rewrite Hext in He. by vm_compute in He.
Qed.

Lemma fileFilter_needs_extension_witness :
  allowedTypes_test (mimetype samplePhoto) = true ∧
  ∃ a name z,
    originalname samplePhoto = a ++ (Path.DOT :: name) ++ z ∧
    Path.extname (originalname samplePhoto) = Path.DOT :: name ∧
    name ≠ [] ∧ (Path.SLASH ∉ name) ∧ (Path.DOT ∉ name) ∧
    Forall (λ c, c = Path.SLASH) z.
Proof. apply (fileFilter_needs_extension latinOnly samplePhoto). reflexivity. Defined.

(** ** Where the disk version stores an uploaded photo *)

Section UploadFolder.

Import Path.

Lemma uploads_plain : plainName (js "uploads").
Proof. by apply literal_plain. Qed.

Lemma upload_folder_install (E : Env) :
  head (dirname E) = Some SLASH →
  Disk.UPLOAD_FOLDER E
  = SLASH :: joinSegments (installSegments E ++ [js "static"; js "uploads"]).
Proof.
  intros Habs. apply join_below_install2;
    [done | apply static_plain | apply uploads_plain].
Qed.

Lemma not_dots (seg : list N) (c : N) :
  c ∈ seg → c ≠ DOT → isDot seg = false ∧ isDotDot seg = false.
Proof.
  intros Hin Hc. destruct seg as [|a [|b [|d seg]]]; [by apply elem_of_nil in Hin| | |done].
  - apply list_elem_of_singleton in Hin as <-. split; [|done]. by apply N.eqb_neq.
  - split; [done|]. simpl. apply andb_false_iff.
    apply elem_of_cons in Hin as [<-|Hin]; [left; by apply N.eqb_neq|].
    apply list_elem_of_singleton in Hin as <-. right. by apply N.eqb_neq.
Qed.

(** The name multer's storage engine gives the photo is a plain file name. *)
Lemma filename_plain (seen : gmap string (list N)) (file : FilePart) :
  plainName (Disk.filename seen file).
Proof.
  unfold Disk.filename.
  set (reg := if truthy_prop (seen !! "reg") then prop seen "reg" else js "temp").
  assert (SLASH ∉ extname (originalname file)) as Hext.
  { destruct (extname_parts (originalname file)) as [->|(a & name & z & _ & -> & Hs & _)];
      [apply not_elem_of_nil|]. by intros [?|?]%elem_of_cons. }
  split; [|split].
  - intros [_ [H _]%app_eq_nil]%app_eq_nil. done.
  - rewrite !elem_of_app. intros [H|[H|H]]; [| |done].
    + revert H. by apply safe_free; [apply sanitizeReg_safe|].
    + revert H. by apply (bool_decide_eq_false_1 _); vm_compute.
  - apply (not_dots _ 95%N); [|done]. rewrite !elem_of_app. right. left.
    by apply (bool_decide_unpack _); vm_compute.
Qed.

Lemma folders_plain (E : Env) :
  Forall plainName (installSegments E ++ [js "static"; js "uploads"]) ∧
  Forall plainName (installSegments E ++ [js "static"; js "id_cards"]) ∧
  Forall plainName (installSegments E ++ [js "static"]).
Proof.
  pose proof (installSegments_plain E) as Hinst.
  pose proof static_plain as Hst. pose proof id_cards_plain as Hid.
  pose proof uploads_plain as Hup.
  repeat split; (apply Forall_app; split; [done|]); by repeat (apply Forall_cons; split).
Qed.

Lemma plain_snoc (G : list (list N)) (f : list N) :
  Forall plainName G → plainName f → Forall plainName (G ++ [f]).
Proof. intros HG Hf. apply Forall_app. split; [done|]. by apply Forall_cons. Qed.

(** The path of a file of the upload folder, and of a file of the output
    folder, as a list of segments. *)
Lemma upload_path_segments (E : Env) (name : list N) :
  head (dirname E) = Some SLASH → plainName name →
  join [Disk.UPLOAD_FOLDER E; name]
  = SLASH :: joinSegments ((installSegments E ++ [js "static"; js "uploads"]) ++ [name]).
Proof.
  intros Habs Hname. destruct (folders_plain E) as (H1 & _ & _).
  rewrite upload_folder_install by done.
  rewrite join_inside by (done || by apply snoc_nonempty).
  by rewrite joinSegments_snoc by (by apply snoc_nonempty).
Qed.

Lemma output_path_segments (E : Env) (name : list N) :
  head (dirname E) = Some SLASH → plainName name →
  join [Disk.OUTPUT_FOLDER E; name]
  = SLASH :: joinSegments ((installSegments E ++ [js "static"; js "id_cards"]) ++ [name]).
Proof.
  intros Habs Hname. destruct (folders_plain E) as (_ & H2 & _).
  rewrite output_folder_install by done.
  rewrite join_inside by (done || by apply snoc_nonempty).
  by rewrite joinSegments_snoc by (by apply snoc_nonempty).
Qed.

Lemma template_path_segments (E : Env) (name : list N) :
  head (dirname E) = Some SLASH → plainName name →
  join [TEMPLATES_FOLDER E; name]
  = SLASH :: joinSegments ((installSegments E ++ [js "static"]) ++ [name]).
Proof.
  intros Habs Hname. destruct (folders_plain E) as (_ & _ & H3).
  rewrite templates_folder_install by done.
  rewrite join_inside by (done || by apply snoc_nonempty).
  by rewrite (joinSegments_snoc (installSegments E ++ [js "static"]) name)
    by (by apply snoc_nonempty).
Qed.

Lemma upload_path_directly (E : Env) (name : list N) :
  head (dirname E) = Some SLASH → plainName name →
  directlyInside (Disk.UPLOAD_FOLDER E) name (join [Disk.UPLOAD_FOLDER E; name]).
Proof.
  intros Habs Hname. split; [done|]. rewrite upload_path_segments by done.
  rewrite upload_folder_install by done.
  by rewrite joinSegments_snoc by (by apply snoc_nonempty).
Qed.

Lemma output_path_directly (E : Env) (name : list N) :
  head (dirname E) = Some SLASH → plainName name →
  directlyInside (Disk.OUTPUT_FOLDER E) name (join [Disk.OUTPUT_FOLDER E; name]).
Proof.
  intros Habs Hname. split; [done|]. rewrite output_path_segments by done.
  rewrite output_folder_install by done.
  by rewrite joinSegments_snoc by (by apply snoc_nonempty).
Qed.

(** An uploaded photo and a template never share a path. *)
Lemma uploaded_file_not_template (E : Env) (name template : list N) :
  head (dirname E) = Some SLASH → plainName name → plainName template →
  join [Disk.UPLOAD_FOLDER E; name] ≠ join [TEMPLATES_FOLDER E; template].
Proof.
  intros Habs Hname Htpl. destruct (folders_plain E) as (H1 & _ & H3).
  rewrite upload_path_segments, template_path_segments by done.
  intros [= Heq]. apply (f_equal segments) in Heq.
  rewrite !segments_joinSegments in Heq;
    [| by apply snoc_nonempty | by apply plain_snoc
     | by apply snoc_nonempty | by apply plain_snoc].
  apply (f_equal length) in Heq. rewrite !length_app in Heq. simpl in Heq. lia.
Qed.

(** An uploaded photo and a file of the output folder never share a path. *)
Lemma uploaded_file_not_generated (E : Env) (name card : list N) :
  head (dirname E) = Some SLASH → plainName name → plainName card →
  join [Disk.UPLOAD_FOLDER E; name] ≠ join [Disk.OUTPUT_FOLDER E; card].
Proof.
  intros Habs Hname Hcard. destruct (folders_plain E) as (H1 & H2 & _).
  rewrite upload_path_segments, output_path_segments by done.
  intros [= Heq]. apply (f_equal segments) in Heq.
  rewrite !segments_joinSegments in Heq;
    [| by apply snoc_nonempty | by apply plain_snoc
     | by apply snoc_nonempty | by apply plain_snoc].
  rewrite <- !app_assoc in Heq. apply app_inv_head in Heq.
  by injection Heq as _ Heq _.
Qed.

(** Two files of the output folder share a path only if they share the
    name. *)
Lemma output_path_inj (E : Env) (a b : list N) :
  head (dirname E) = Some SLASH → plainName a → plainName b →
  join [Disk.OUTPUT_FOLDER E; a] = join [Disk.OUTPUT_FOLDER E; b] → a = b.
Proof.
  intros Habs Ha Hb. rewrite !output_path_segments by done.
  rewrite !joinSegments_snoc by (by apply snoc_nonempty).
  intros [= Heq]. apply app_inv_head in Heq. by injection Heq.
Qed.

(** X10. Whatever the form and the name of the uploaded file, the disk
    version stores the photo directly inside the upload folder, under a
    plain file name: never at the path of a template, and never at the path
    of a file of the output folder. *)
Theorem upload_path_inside (E : Env) (seen : gmap string (list N)) (file : FilePart) :
  head (dirname E) = Some SLASH →
  let name := Disk.filename seen file in
  let p := join [Disk.UPLOAD_FOLDER E; name] in
  directlyInside (Disk.UPLOAD_FOLDER E) name p ∧
  (∀ template, plainName template → p ≠ join [TEMPLATES_FOLDER E; template]) ∧
  (∀ card, plainName card → p ≠ join [Disk.OUTPUT_FOLDER E; card]).
Proof.
  intros Habs name p. pose proof (filename_plain seen file) as Hname.
  split; [by apply upload_path_directly|].
  split; intros other Hother;
    [by apply uploaded_file_not_template | by apply uploaded_file_not_generated].
Qed.

Lemma upload_path_inside_witness :
  let E := sampleEnv (fun _ => true) in
  let name := Disk.filename (<["reg" := js "../../etc"]> ∅)
                {| originalname := js "../../passwd.png"; mimetype := js "image/png";
                   content := [] |} in
  let p := join [Disk.UPLOAD_FOLDER E; name] in
  directlyInside (Disk.UPLOAD_FOLDER E) name p ∧
  (∀ template, plainName template → p ≠ join [TEMPLATES_FOLDER E; template]) ∧
  (∀ card, plainName card → p ≠ join [Disk.OUTPUT_FOLDER E; card]).
Proof. intros E. apply (upload_path_inside E). reflexivity. Defined.

(** X11. The name of the stored photo for a file name with a proper
    extension.  It is made of the registration number as sanitized, when the
    form field [reg] has reached the server before the file and is not
    empty, and of [temp] otherwise, whatever the rest of the form says; the
    extension is kept as the client wrote it. *)
Theorem upload_filename_of_image (seen : gmap string (list N)) (file : FilePart)
    (stem : list N) (c : N) (ext : list N) :
  originalname file = (stem ++ [c]) ++ DOT :: ext →
  c ≠ SLASH → ext ≠ [] → SLASH ∉ ext → DOT ∉ ext →
  (∀ reg, seen !! "reg" = Some reg → reg ≠ [] →
     Disk.filename seen file = sanitizeReg reg ++ js "_photo." ++ ext) ∧
  (seen !! "reg" = None ∨ seen !! "reg" = Some [] →
     Disk.filename seen file = js "temp_photo." ++ ext).
Proof.
  intros Hname Hc Hne Hs Hd. unfold Disk.filename.
  rewrite Hname, extname_of_suffix by done. split.
  - intros reg Hreg Hreg'. unfold prop. rewrite Hreg. by destruct reg.
  - by intros [->| ->].
Qed.

Lemma upload_filename_of_image_witness :
  Disk.filename (<["reg" := js "2020/1"]> ∅) samplePhoto = js "2020_1_photo.png" ∧
  Disk.filename (<["name" := js "Jane Doe"]> ∅) samplePhoto = js "temp_photo.png".
Proof.
  split.
  - destruct (upload_filename_of_image (<["reg" := js "2020/1"]> ∅) samplePhoto
                (js "jan") 101%N (js "png")) as [H _];
      [by vm_compute | by vm_compute | by vm_compute
      | by apply (bool_decide_eq_false_1 _); vm_compute
      | by apply (bool_decide_eq_false_1 _); vm_compute |].
    by rewrite (H (js "2020/1")).
  - destruct (upload_filename_of_image (<["name" := js "Jane Doe"]> ∅) samplePhoto
                (js "jan") 101%N (js "png")) as [_ H];
      [by vm_compute | by vm_compute | by vm_compute
      | by apply (bool_decide_eq_false_1 _); vm_compute
      | by apply (bool_decide_eq_false_1 _); vm_compute |].
    rewrite H; [done | by left].
Defined.

End UploadFolder.

(** ** The Cloudinary version: what a request leaves at the provider *)

Section CloudRuns.

Variable E : Env.

(** The ways [generateIDCard] can end, by what it has stored. *)
Lemma cloud_generateIDCard_cases (d : CardData) (photoUrl : list N) (w w' : World)
    (out : Outcome (list N * list N)) :
  let frontObj fb := {| folder := Cloud.GENERATED;
                        public_id := Cloud.frontId (sanitizeReg (reg d));
                        transformation := None; data := fb |} in
  let backObj bb := {| folder := Cloud.GENERATED;
                       public_id := Cloud.backId (sanitizeReg (reg d));
                       transformation := None; data := bb |} in
  Cloud.generateIDCard E d photoUrl w = (out, w') →
  files w' = files w ∧
  ((∃ e, out = Thrown e ∧ cloud w' = cloud w ∧
         upload_calls w ≤ upload_calls w' ≤ S (upload_calls w)) ∨
   (∃ e fb, out = Thrown e ∧ pngDimensions fb = Some (1012, 638)%Z ∧
         cloud w' = cloud w ++ [frontObj fb] ∧
         S (upload_calls w) ≤ upload_calls w' ≤ S (S (upload_calls w))) ∨
   (∃ fb bb, out = Returned (cloud_secure_url E (frontObj fb),
                             cloud_secure_url E (backObj bb)) ∧
         pngDimensions fb = Some (1012, 638)%Z ∧
         pngDimensions bb = Some (1012, 638)%Z ∧
         cloud w' = cloud w ++ [frontObj fb; backObj bb] ∧
         upload_calls w' = S (S (upload_calls w)))).
Proof.
  intros frontObj backObj Hrun.
  destruct (cloud_front_phase E d photoUrl w w' _ Hrun)
    as [(e' & -> & (Hf & Hc & Hn)) | (fc & w3 & Hcw & Hch & (Hf3 & Hc3 & Hn3) & Hrest)].
  { split; [done|]. left. exists e'. split; [done|]. split; [done | lia]. }
  cbv zeta in Hrest.
  step_in Hrest Hup; rewrite upload_stream_run in Hup;
    destruct (cloud_accepts E (upload_calls w3)); try discriminate Hup;
    injection Hup as <- <-.
  2:{ injection Hrest as <- <-. simpl. split; [done|]. left. eexists.
      split; [done|]. split; [done | lia]. }
  match type of Hrest with
  | context [bind (drawBack E ?p ?d') _ ?w5] =>
      pose proof (drawBack_sameStores E p d' w5) as (Hf5 & Hc5 & Hn5)
  end.
  pose proof (toBuffer_png_card E fc Hcw Hch) as [Hfdim _].
  step_in Hrest Hback; rewrite Hback in Hf5, Hc5, Hn5; simpl in Hf5, Hc5, Hn5.
  - pose proof (drawBack_canvas _ _ _ _ _ _ Hback) as [Hbw Hbh].
    pose proof (toBuffer_png_card E _ Hbw Hbh) as [Hbdim _].
    step_in Hrest Hbuf; [|discriminate Hbuf]. injection Hbuf as <- <-.
    step_in Hrest Hup2; rewrite upload_stream_run in Hup2; simpl upload_calls in Hup2;
      destruct (cloud_accepts E _); try discriminate Hup2; injection Hup2 as <- <-;
      injection Hrest as <- <-; simpl; rewrite Hc5, Hc3, Hf5, Hf3, Hn5, Hn3.
    + split; [done|]. right. right. eexists _, _. split; [reflexivity|].
      split; [exact Hfdim|]. split; [exact Hbdim|].
      split; [by rewrite <- app_assoc | done].
    + split; [done|]. right. left. eexists _, _. split; [reflexivity|].
      split; [exact Hfdim|]. split; [done | lia].
  - injection Hrest as <- <-. rewrite Hc5, Hc3, Hf5, Hf3, Hn5, Hn3.
    split; [done|]. right. left. eexists _, _. split; [reflexivity|].
    split; [exact Hfdim|]. split; [done | lia].
Qed.

(** The run of the [/generate] handler: either it answers an error and
    leaves the world as it was, or it has a validated form and an accepted
    photo and makes the upload call for the photo. *)
Lemma cloud_generate_run (r : Request) (w w' : World) (resp : Response) :
  Cloud.generate E r w = (resp, w') →
  (w' = w ∧ status resp ≠ 200%Z) ∨
  ∃ file d,
    photo r = Some file ∧ photoAccepted (unicode E) r = true ∧
    validateFormInput (body r) = Valid ∧ cardData (body r) = Some d ∧
    reg d = prop (body r) "reg" ∧
    let photoObj := {| folder := Cloud.UPLOADS;
                       public_id := cloud_random_id E (upload_calls w);
                       transformation := Some {| width := 280; height := 280 |};
                       data := content file |} in
    (cloud_accepts E (upload_calls w) = false ∧
     resp = {| status := 500; payload := JsonException UploadError |} ∧
     w' = refused Cloud.UPLOADS None w
     ∨
     cloud_accepts E (upload_calls w) = true ∧
     ∃ out, Cloud.generateIDCard E d (cloud_secure_url E photoObj)
              (uploaded None photoObj w) = (out, w') ∧
            resp = match out with
                   | Returned (frontUrl, backUrl) =>
                       {| status := 200; payload := JsonSuccess frontUrl backUrl |}
                   | Thrown e => {| status := 500; payload := JsonException e |}
                   end).
Proof.
  unfold Cloud.generate. intros Hrun.
  destruct (photoAccepted (unicode E) r) eqn:Hacc.
  2:{ left. unfold Cloud.upload_single in Hrun. unfold photoAccepted in Hacc.
      destruct (photo r) as [file|]; [|done].
      destruct (fileFilter (unicode E) file); simpl in Hacc, Hrun.
      - apply N.leb_gt in Hacc. apply N.ltb_lt in Hacc. rewrite Hacc in Hrun.
        by injection Hrun as <- <-.
      - by injection Hrun as <- <-. }
  rewrite (cloud_upload_single_accepted E r w Hacc) in Hrun.
  destruct (validateFormInput (body r)) eqn:Hvalid;
    [|left; by injection Hrun as <- <-].
  destruct (photo r) as [file|] eqn:Hphoto; simpl in Hrun;
    [|left; by injection Hrun as <- <-].
  destruct (valid_cardData (body r) Hvalid) as (d & Hd & _ & Hreg & _).
  right. exists file, d. do 5 (split; [done|]). cbv zeta.
  unfold Cloud.uploadAndGenerate, bind in Hrun. rewrite upload_stream_run in Hrun.
  cbv zeta in Hrun. destruct (cloud_accepts E (upload_calls w)).
  - right. split; [done|]. rewrite Hd in Hrun.
    destruct (Cloud.generateIDCard E d _ _) as [out w2] eqn:Hgen.
    exists out. destruct out as [[frontUrl backUrl]|e]; injection Hrun as <- <-; by split.
  - left. by injection Hrun as <- <-.
Qed.

(** X12. An answer with status 200 is given only after three objects have
    been stored at the provider: the photo as uploaded, in the photo folder
    with the 280 by 280 transformation, and behind it the front and the back
    card, PNG images of 1012 by 638 pixels named after the sanitized
    registration number.  The answer carries the URLs of the two cards, and
    the local disk is as it was. *)
Theorem cloud_success_stores_three (r : Request) (w w' : World) (resp : Response) :
  Cloud.generate E r w = (resp, w') → status resp = 200%Z →
  ∃ file fb bb,
    let safeReg := sanitizeReg (prop (body r) "reg") in
    let photoObj := {| folder := Cloud.UPLOADS;
                       public_id := cloud_random_id E (upload_calls w);
                       transformation := Some {| width := 280; height := 280 |};
                       data := content file |} in
    let frontObj := {| folder := Cloud.GENERATED; public_id := Cloud.frontId safeReg;
                       transformation := None; data := fb |} in
    let backObj := {| folder := Cloud.GENERATED; public_id := Cloud.backId safeReg;
                      transformation := None; data := bb |} in
    photo r = Some file ∧ fileFilter (unicode E) file = true ∧
    (fileSize file <= FILE_SIZE_LIMIT)%N ∧ validateFormInput (body r) = Valid ∧
    pngDimensions fb = Some (1012, 638)%Z ∧ pngDimensions bb = Some (1012, 638)%Z ∧
    cloud w' = cloud w ++ [photoObj; frontObj; backObj] ∧
    upload_calls w' = upload_calls w + 3 ∧ files w' = files w ∧
    payload resp = JsonSuccess (cloud_secure_url E frontObj) (cloud_secure_url E backObj).
Proof.
  intros Hrun Hok.
  destruct (cloud_generate_run r w w' resp Hrun)
    as [[_ Hno]|(file & d & Hphoto & Hacc & Hvalid & Hd & Hreg & Hrest)]; [done|].
  cbv zeta in Hrest.
  destruct Hrest as [(_ & -> & _)|(Hup & out & Hgen & ->)]; [done|].
  destruct (cloud_generateIDCard_cases d _ _ _ _ Hgen) as [Hfiles Hcases].
  destruct Hcases as [(e & -> & _)|[(e & fb & -> & _)|(fb & bb & -> & Hfb & Hbb & Hc & Hn)]];
    [done..|].
  exists file, fb, bb. cbv zeta. rewrite <- Hreg.
  unfold photoAccepted in Hacc. rewrite Hphoto in Hacc.
  apply andb_true_iff in Hacc as [Hfilter Hsize%N.leb_le].
  do 6 (split; [done|]). simpl in Hc, Hn, Hfiles.
  split; [by rewrite Hc, <- app_assoc|]. split; [lia|]. by split.
Qed.

(** X13. Whatever the request and whatever the answer, the Cloudinary version
    leaves the local disk alone and only adds to what the provider stores:
    at most three objects, one for each accepted upload call, in the two
    folders of the application; at most two when the answer is an error, and
    none when the form is not valid. *)
Theorem cloud_store_append_only (r : Request) (w : World) :
  let resp := (Cloud.generate E r w).1 in
  let w' := (Cloud.generate E r w).2 in
  files w' = files w ∧
  ∃ added,
    cloud w' = cloud w ++ added ∧
    upload_calls w + length added ≤ upload_calls w' ≤ upload_calls w + 3 ∧
    Forall (fun o => folder o = Cloud.UPLOADS ∨ folder o = Cloud.GENERATED) added ∧
    (status resp ≠ 200%Z → length added ≤ 2) ∧
    (validateFormInput (body r) ≠ Valid → added = []).
Proof.
  intros resp w'. destruct (Cloud.generate E r w) as [resp0 w0] eqn:Hrun.
  subst resp w'. simpl.
  destruct (cloud_generate_run r w w0 resp0 Hrun)
    as [[-> Hno]|(file & d & Hphoto & Hacc & Hvalid & Hd & Hreg & Hrest)].
  { split; [done|]. exists []. rewrite app_nil_r. simpl.
    split; [done|]. split; [lia|]. split; [done|]. split; [lia | done]. }
  cbv zeta in Hrest. destruct Hrest as [(_ & -> & ->)|(Hup & out & Hgen & ->)].
  { split; [done|]. exists []. rewrite app_nil_r. simpl.
    split; [done|]. split; [lia|]. split; [done|]. split; [lia | done]. }
  destruct (cloud_generateIDCard_cases d _ _ _ _ Hgen) as [Hfiles Hcases].
  simpl in Hfiles, Hcases. split; [done|].
  destruct Hcases as [(e & -> & Hc & Hn)|[(e & fb & -> & _ & Hc & Hn)
                                         |(fb & bb & -> & _ & _ & Hc & Hn)]];
    eexists; (split; [rewrite Hc, <- ?app_assoc; reflexivity|]); simpl;
    (split; [lia|]);
    (split; [repeat (apply Forall_cons; split; [by auto|]); apply Forall_nil_2|]);
    (split; [intros; (lia || done) | done]).
Qed.



End CloudRuns.

Lemma cloud_success_stores_three_witness :
  let run := Cloud.generate (sampleEnv (fun _ => true)) janeRequest sampleWorld in
  ∃ photoObj frontObj backObj,
    cloud run.2 = [photoObj; frontObj; backObj] ∧
    folder photoObj = js "futo-id-cards/uploads" ∧
    public_id frontObj = js "futo_2020_1234567_front" ∧
    public_id backObj = js "futo_2020_1234567_back".
Proof.
  intros run.
  destruct (cloud_success_stores_three (sampleEnv (fun _ => true)) janeRequest
              sampleWorld run.2 run.1) as (file & fb & bb & H);
    [apply surjective_pairing | by vm_compute |].
  cbv zeta in H. destruct H as (_ & _ & _ & _ & _ & _ & Hc & _).
  eexists _, _, _. split; [exact Hc|]. split; [reflexivity|]. split; by vm_compute.
Defined.


(** ** The disk version: what a request leaves on the disk *)

Section DiskRuns.

Variable E : Env.

Lemma writeFile_run (p bytes : list N) (w : World) :
  writeFile E p bytes w
  = if fs_write_ok E p then (Returned tt, written p bytes w)
    else (Thrown (WriteError p), emit (EvWriteFile p) w).
Proof. done. Qed.

(** The ways [generateIDCard] can end, by what it has written. *)
Lemma disk_generateIDCard_cases (d : CardData) (photoPath : list N) (w w' : World)
    (out : Outcome (list N * list N)) :
  let safeReg := sanitizeReg (reg d) in
  let qrPath := Path.join [Disk.OUTPUT_FOLDER E; Disk.qrFile safeReg] in
  let frontOutput := Path.join [Disk.OUTPUT_FOLDER E; Disk.frontFile safeReg] in
  let backOutput := Path.join [Disk.OUTPUT_FOLDER E; Disk.backFile safeReg] in
  Disk.generateIDCard E d photoPath w = (out, w') →
  cloud w' = cloud w ∧ upload_calls w' = upload_calls w ∧
  match out with
  | Returned (f, b) =>
      f = frontOutput ∧ b = backOutput ∧
      ∃ qr fb bb,
        qr_png E (qrText (name d) (reg d) (dept d)) qrOptions = Some qr ∧
        pngDimensions fb = Some (1012, 638)%Z ∧ pngDimensions bb = Some (1012, 638)%Z ∧
        files w' = <[backOutput := bb]> (<[frontOutput := fb]> (<[qrPath := qr]> (files w)))
  | Thrown e =>
      files w' = files w ∨
      (∃ qr, files w' = <[qrPath := qr]> (files w)) ∨
      (∃ qr fb, files w' = <[frontOutput := fb]> (<[qrPath := qr]> (files w)))
  end.
Proof.
  intros safeReg qrPath frontOutput backOutput Hrun.
  unfold Disk.generateIDCard in Hrun. cbv zeta in Hrun.
  fold safeReg qrPath frontOutput backOutput in Hrun.
  step_in Hrun Hqr; unfold Disk.generateQRCode, QRCode_toFile in Hqr.
  2:{ injection Hrun as <- <-.
      step_in Hqr Hq; rewrite QRCode_toBuffer_run in Hq; injection Hq as Hq <-.
      - rewrite writeFile_run in Hqr. destruct (fs_write_ok E qrPath); [done|].
        injection Hqr as _ <-. by repeat split; try left.
      - injection Hqr as _ <-. by repeat split; try left. }
  step_in Hqr Hq; rewrite QRCode_toBuffer_run in Hq; injection Hq as Hq <-; [|done].
  destruct (qr_png E _ qrOptions) as [qr|] eqn:Hpng; [|done]. injection Hq as <-.
  rewrite writeFile_run in Hqr. destruct (fs_write_ok E qrPath); [|done].
  injection Hqr as _ <-.
  step_in Hrun Hf; [|discriminate Hf]. apply existsSync_run in Hf as [-> ->].
  lazymatch type of Hrun with context [negb ?b] => destruct b end;
    cbn [negb] in Hrun;
    [|injection Hrun as <- <-; repeat split; right; left; by eexists].
  step_in Hrun Hb; [|discriminate Hb]. apply existsSync_run in Hb as [-> ->].
  lazymatch type of Hrun with context [negb ?b] => destruct b end;
    cbn [negb] in Hrun;
    [|injection Hrun as <- <-; repeat split; right; left; by eexists].
  match type of Hrun with
  | context [bind (drawFront E ?p ?q ?ph) _ ?w1] =>
      pose proof (drawFront_sameStores E p q ph w1) as (Hf1 & Hc1 & Hn1)
  end.
  step_in Hrun Hd; rewrite Hd in Hf1, Hc1, Hn1; simpl in Hf1, Hc1, Hn1.
  2:{ injection Hrun as <- <-. rewrite Hf1, Hc1, Hn1.
      repeat split; right; left; by eexists. }
  pose proof (drawFront_canvas _ _ _ _ _ _ _ Hd) as [Hcw Hch].
  pose proof (toBuffer_png_card E _ Hcw Hch) as [Hfdim _].
  step_in Hrun Hbuf; [|discriminate Hbuf]. injection Hbuf as <- <-.
  step_in Hrun Hwf; rewrite writeFile_run in Hwf;
    destruct (fs_write_ok E frontOutput); try discriminate Hwf; injection Hwf as <- <-.
  2:{ injection Hrun as <- <-. simpl. rewrite Hf1, Hc1, Hn1.
      repeat split; right; left; by eexists. }
  match type of Hrun with
  | context [bind (drawBack E ?p ?d') _ ?w5] =>
      pose proof (drawBack_sameStores E p d' w5) as (Hf5 & Hc5 & Hn5)
  end.
  step_in Hrun Hback; rewrite Hback in Hf5, Hc5, Hn5; simpl in Hf5, Hc5, Hn5.
  2:{ injection Hrun as <- <-. rewrite Hf5, Hc5, Hn5, Hf1, Hc1, Hn1.
      repeat split; right; right; by eexists _, _. }
  pose proof (drawBack_canvas _ _ _ _ _ _ Hback) as [Hbw Hbh].
  pose proof (toBuffer_png_card E _ Hbw Hbh) as [Hbdim _].
  step_in Hrun Hbuf; [|discriminate Hbuf]. injection Hbuf as <- <-.
  step_in Hrun Hwb; rewrite writeFile_run in Hwb;
    destruct (fs_write_ok E backOutput); try discriminate Hwb; injection Hwb as <- <-.
  2:{ injection Hrun as <- <-. simpl. rewrite Hf5, Hc5, Hn5, Hf1, Hc1, Hn1.
      repeat split; right; right; by eexists _, _. }
  injection Hrun as <- <-. simpl. rewrite Hf5, Hc5, Hn5, Hf1, Hc1, Hn1.
  do 4 (split; [done|]). eexists _, _, _. by repeat split.
Qed.

(** The run of the [/generate] handler of the disk version. *)
Lemma disk_generate_run (r : Request) (w w' : World) (resp : Response) :
  Disk.generate E r w = (resp, w') →
  (w' = w ∧ status resp ≠ 200%Z) ∨
  (∃ file,
    photo r = Some file ∧ photoAccepted (unicode E) r = true ∧
    let p := Path.join [Disk.UPLOAD_FOLDER E; Disk.filename (fields_before r) file] in
    (fs_write_ok E p = false ∧ status resp ≠ 200%Z ∧ w' = emit (EvWriteFile p) w
     ∨
     fs_write_ok E p = true ∧
     (validateFormInput (body r) ≠ Valid ∧ status resp ≠ 200%Z ∧
      w' = written p (content file) w
      ∨
      ∃ d out,
        validateFormInput (body r) = Valid ∧ cardData (body r) = Some d ∧
        reg d = prop (body r) "reg" ∧
        Disk.generateIDCard E d p (written p (content file) w) = (out, w') ∧
        resp = match out with
               | Returned (frontOutput, _) =>
                   {| status := 200; payload := File frontOutput |}
               | Thrown e => {| status := 500; payload := JsonException e |}
               end))) ∨
  (∃ file,
    photo r = Some file ∧ fileFilter (unicode E) file = true ∧
    (FILE_SIZE_LIMIT < fileSize file)%N ∧ status resp ≠ 200%Z ∧
    let p := Path.join [Disk.UPLOAD_FOLDER E; Disk.filename (fields_before r) file] in
    let w1 := written p (firstBytes FILE_SIZE_LIMIT (content file)) w in
    (fs_write_ok E p = false ∧ w' = emit (EvWriteFile p) w
     ∨ fs_write_ok E p = true ∧ fs_unlink_ok E p = false ∧ w' = emit (EvUnlink p) w1
     ∨ fs_write_ok E p = true ∧ fs_unlink_ok E p = true ∧ w' = unlinked p w1)).
Proof.
  unfold Disk.generate. intros Hrun.
  destruct (disk_upload_single_cases E r w)
    as [(o & Hup & [[Hnone ->]|(Hacc & -> & _)])
       |[(file & Hphoto & Hacc & [[Hok Hup]|[Hok Hup]])
        |(file & Hphoto & Hacc & Hf & Hbig & Hup)]].
  - rewrite Hup in Hrun.
    left. destruct (validateFormInput (body r)); by injection Hrun as <- <-.
  - rewrite Hup in Hrun. left. by injection Hrun as <- <-.
  - rewrite Hup in Hrun.
    right. left. exists file. do 2 (split; [done|]). cbv zeta. right. split; [done|].
    destruct (validateFormInput (body r)) eqn:Hvalid.
    + right. destruct (valid_cardData (body r) Hvalid) as (d & Hd & _ & Hreg & _).
      rewrite Hd in Hrun.
      destruct (Disk.generateIDCard E d _ _) as [out w2] eqn:Hgen.
      exists d, out. do 3 (split; [done|]).
      destruct out as [[frontOutput backOutput]|e]; injection Hrun as <- <-; by split.
    + left. by injection Hrun as <- <-.
  - rewrite Hup in Hrun.
    right. left. exists file. do 2 (split; [done|]). cbv zeta. left.
    by injection Hrun as <- <-.
  - right. right. exists file. do 3 (split; [done|]). cbv zeta in Hup |- *.
    destruct Hup as [[Hok Hup]|[Hok Hup]]; rewrite Hup in Hrun; injection Hrun as <- <-.
    + split; [done|]. right.
      destruct (fs_unlink_ok E _); [right | left]; by repeat split.
    + split; [done|]. by left.
Qed.

Lemma output_names_plain (reg : list N) :
  plainName (Disk.qrFile (sanitizeReg reg)) ∧
  plainName (Disk.frontFile (sanitizeReg reg)) ∧
  plainName (Disk.backFile (sanitizeReg reg)).
Proof.
  repeat split; try done;
    (apply futo_name_plain; [apply sanitizeReg_safe|]);
    by apply (bool_decide_eq_false_1 _); vm_compute.
Qed.

Lemma output_names_distinct (s : list N) :
  Disk.qrFile s ≠ Disk.frontFile s ∧ Disk.qrFile s ≠ Disk.backFile s ∧
  Disk.frontFile s ≠ Disk.backFile s.
Proof.
  unfold Disk.qrFile, Disk.frontFile, Disk.backFile.
  repeat split; intros H; by do 2 apply app_inv_head in H.
Qed.

(** X15. The disk version answers 200 only after it has written four files:
    the photo into the upload folder, and the QR code, the front card and
    the back card into the output folder, the cards being PNG images of 1012
    by 638 pixels.  The four paths differ, so all four files are on the disk
    afterwards; the answer is the front card, and the back card is what
    [/download-back] then sends for the same registration number. *)
Theorem disk_success_leaves_cards (r : Request) (w w' : World) (resp : Response) :
  head (dirname E) = Some Path.SLASH →
  Disk.generate E r w = (resp, w') → status resp = 200%Z →
  ∃ file qr fb bb,
    let reg := prop (body r) "reg" in
    let safeReg := sanitizeReg reg in
    let photoPath :=
      Path.join [Disk.UPLOAD_FOLDER E; Disk.filename (fields_before r) file] in
    let qrPath := Path.join [Disk.OUTPUT_FOLDER E; Disk.qrFile safeReg] in
    let frontOutput := Path.join [Disk.OUTPUT_FOLDER E; Disk.frontFile safeReg] in
    let backOutput := Path.join [Disk.OUTPUT_FOLDER E; Disk.backFile safeReg] in
    photo r = Some file ∧ fileFilter (unicode E) file = true ∧
    (fileSize file <= FILE_SIZE_LIMIT)%N ∧ validateFormInput (body r) = Valid ∧
    payload resp = File frontOutput ∧
    files w' = <[backOutput := bb]> (<[frontOutput := fb]> (<[qrPath := qr]>
                 (<[photoPath := content file]> (files w)))) ∧
    files w' !! photoPath = Some (content file) ∧ files w' !! qrPath = Some qr ∧
    files w' !! frontOutput = Some fb ∧ files w' !! backOutput = Some bb ∧
    pngDimensions fb = Some (1012, 638)%Z ∧ pngDimensions bb = Some (1012, 638)%Z ∧
    Disk.download_back E reg w' = {| status := 200; payload := File backOutput |} ∧
    cloud w' = cloud w.
Proof.
  intros Habs Hrun Hok.
  destruct (disk_generate_run r w w' resp Hrun)
    as [[_ Hno]|[(file & Hphoto & Hacc & Hrest)|(_ & _ & _ & _ & Hno & _)]]; [done| |done].
  cbv zeta in Hrest.
  destruct Hrest as [(_ & Hno & _)|(Hw & [(_ & Hno & _)|(d & out & Hvalid & Hd & Hreg & Hgen & ->)])];
    [done..|].
  destruct (disk_generateIDCard_cases d _ _ _ _ Hgen) as (Hc & _ & Hcases).
  destruct out as [[f b]|e]; [|done].
  destruct Hcases as (-> & -> & qr & fb & bb & Hqr & Hfb & Hbb & Hfiles).
  rewrite Hreg in Hfiles |- *. simpl in Hfiles, Hc.
  exists file, qr, fb, bb. cbv zeta.
  unfold photoAccepted in Hacc. rewrite Hphoto in Hacc.
  apply andb_true_iff in Hacc as [Hfilter Hsize%N.leb_le].
  destruct (output_names_plain (prop (body r) "reg")) as (Hpq & Hpf & Hpb).
  destruct (output_names_distinct (sanitizeReg (prop (body r) "reg"))) as (Hqf & Hqb & Hfb').
  pose proof (filename_plain (fields_before r) file) as Hname.
  assert (∀ a b, plainName a → plainName b → a ≠ b →
            Path.join [Disk.OUTPUT_FOLDER E; a] ≠ Path.join [Disk.OUTPUT_FOLDER E; b])
    as Hout by (intros a b Ha Hb Hab Heq; by apply Hab, (output_path_inj E)).
  assert (∀ a, plainName a →
            Path.join [Disk.OUTPUT_FOLDER E; a]
            ≠ Path.join [Disk.UPLOAD_FOLDER E; Disk.filename (fields_before r) file])
    as Hup by (intros a Ha; by apply not_eq_sym, uploaded_file_not_generated).
  do 5 (split; [done|]). split; [done|].
  assert (files w' !! Path.join [Disk.OUTPUT_FOLDER E;
                                  Disk.backFile (sanitizeReg (prop (body r) "reg"))]
          = Some bb) as Hback by (by rewrite Hfiles, lookup_insert_eq).
  split; [|split; [|split; [|split]]].
  - rewrite Hfiles. rewrite !lookup_insert_ne by (by apply Hup). apply lookup_insert_eq.
  - rewrite Hfiles. rewrite !lookup_insert_ne by (by apply not_eq_sym, Hout).
    apply lookup_insert_eq.
  - rewrite Hfiles. rewrite lookup_insert_ne by (by apply not_eq_sym, Hout).
    apply lookup_insert_eq.
  - done.
  - do 2 (split; [done|]). split; [|done].
    unfold Disk.download_back, Disk.backPath. rewrite Hback.
    by rewrite bool_decide_eq_true_2.
Qed.







End DiskRuns.

Lemma disk_success_leaves_cards_witness :
  let E := sampleEnv (fun _ => true) in
  let run := Disk.generate E janeRequest sampleWorld in
  status (Disk.download_back E (prop (body janeRequest) "reg") run.2) = 200%Z.
Proof.
  intros E run.
  destruct (disk_success_leaves_cards E janeRequest sampleWorld run.2 run.1)
    as (file & qr & fb & bb & H);
    [reflexivity | apply surjective_pairing | by vm_compute |].
  cbv zeta in H. destruct H as (_ & _ & _ & _ & _ & _ & _ & _ & _ & _ & _ & _ & Hdl & _).
  by rewrite Hdl.
Defined.



(** ** Answers that both versions give without rendering *)

Section EarlyAnswers.

Variable E : Env.



End EarlyAnswers.



Lemma largePhoto_oversized : (FILE_SIZE_LIMIT < fileSize largePhoto)%N.
Proof.
  unfold fileSize.
  assert (length (content largePhoto) = N.to_nat (FILE_SIZE_LIMIT + 1)) as ->
    by apply repeat_length.
  rewrite N2Nat.id. by apply N.lt_add_pos_r.
Qed.

(** A photo over the limit on the disk version: the request is answered
    with 413, and the photo an earlier request had stored under the same
    name is gone.  The Cloudinary version answers 413 and changes nothing. *)
Example oversized_photo_removes_earlier_upload :
  let E := sampleEnv (fun _ => true) in
  let p := js "/srv/app/static/uploads/2020_1234567_photo.png" in
  files earlierUpload !! p = Some (content samplePhoto) ∧
  status (Disk.generate E largeRequest earlierUpload).1 = 413%Z ∧
  files (Disk.generate E largeRequest earlierUpload).2 !! p = None ∧
  Cloud.generate E largeRequest earlierUpload
  = ({| status := 413; payload := JsonError "File too large (max 16MB)" |}, earlierUpload).
Proof.
  intros E p.
  assert (fileFilter (unicode E) largePhoto = true) as Hf by (lazy; reflexivity).
  assert (Path.join [Disk.UPLOAD_FOLDER E; Disk.filename (fields_before largeRequest) largePhoto]
          = p) as Hp.
  { change (fields_before largeRequest) with janeForm.
    assert (Disk.filename janeForm largePhoto = Disk.filename janeForm samplePhoto) as ->
      by reflexivity.
    vm_compute. reflexivity. }
  pose proof (disk_generate_oversized E largeRequest largePhoto earlierUpload eq_refl Hf
                largePhoto_oversized) as Hrun.
  cbv zeta in Hrun. rewrite Hp in Hrun.
  change (fs_write_ok E p) with true in Hrun. change (fs_unlink_ok E p) with true in Hrun.
  cbv iota in Hrun.
  split; [apply lookup_insert_eq|]. rewrite Hrun. split; [reflexivity|]. split.
  - cbn [snd files unlinked]. apply lookup_delete_eq.
  - unfold Cloud.generate, Cloud.upload_single. cbn [photo largeRequest]. rewrite Hf.
    rewrite (proj2 (N.ltb_lt _ _) largePhoto_oversized). reflexivity.
Qed.

(** ** The back card by its registration number *)

Lemma sanitizeReg_idempotent (reg : list N) :
  sanitizeReg (sanitizeReg reg) = sanitizeReg reg.
Proof.
  unfold sanitizeReg. rewrite <- list_fmap_compose. apply list_fmap_ext.
  intros i c _. simpl. by destruct (safeChar c) eqn:Hc; [rewrite Hc|].
Qed.

(** X20. [/download-back] sends a file only if the file is on the disk, and
    then it is a file directly inside the output folder, never a template,
    whatever the registration number of the URL holds; otherwise the answer
    is 404 with [Back card not found].  The sanitized number gets the same
    answer as the number itself. *)
Theorem download_back_answer (E : Env) (reg : list N) (w : World) :
  head (dirname E) = Some Path.SLASH →
  let resp := Disk.download_back E reg w in
  (status resp = 200%Z ∧
   (∃ p name, payload resp = File p ∧ is_Some (files w !! p) ∧
              directlyInside (Disk.OUTPUT_FOLDER E) name p ∧
              ∀ template, plainName template →
                          p ≠ Path.join [TEMPLATES_FOLDER E; template])
   ∨
   resp = {| status := 404; payload := JsonError "Back card not found" |} ∧
   files w !! Disk.backPath E reg = None) ∧
  Disk.download_back E (sanitizeReg reg) w = resp.
Proof.
  intros Habs resp. subst resp. split.
  - unfold Disk.download_back.
    destruct (files w !! Disk.backPath E reg) as [bytes|] eqn:Hp.
    + left. rewrite bool_decide_eq_true_2 by done. split; [done|].
      destruct (output_names_plain reg) as (_ & _ & Hplain).
      exists (Disk.backPath E reg), (Disk.backFile (sanitizeReg reg)).
      split; [done|]. split; [by rewrite Hp|].
      split; [by apply output_path_directly|].
      intros template Htpl. by apply generated_file_not_template.
    + right. rewrite bool_decide_eq_false_2; [done|]. by intros [? ?].
  - unfold Disk.download_back, Disk.backPath. by rewrite sanitizeReg_idempotent.
Qed.

Lemma download_back_answer_witness :
  let E := sampleEnv (fun _ => true) in
  Disk.download_back E (sanitizeReg (js "../front_template")) sampleWorld
  = Disk.download_back E (js "../front_template") sampleWorld.
Proof.
  intros E.
  by destruct (download_back_answer E (js "../front_template") sampleWorld) as [_ H].
Defined.

(** ** Start-up: the font *)

Section FontLoop.

Variable register_ok : list N → bool.

Lemma registerFonts_spec (disk : gmap (list N) (list N)) (candidates : list (list N)) :
  match registerFonts register_ok disk candidates with
  | (Some p, log) =>
      ∃ before after,
        candidates = before ++ p :: after ∧ usable register_ok disk p ∧
        Forall (fun q => ¬ usable register_ok disk q) before ∧
        log = (FontFailed <$> List.filter
                 (fun q => bool_decide (is_Some (disk !! q))) before)
              ++ [FontLoadedFrom p]
  | (None, log) =>
      Forall (fun q => ¬ usable register_ok disk q) candidates ∧
      log = FontFailed <$> List.filter
              (fun q => bool_decide (is_Some (disk !! q))) candidates
  end.
Proof.
  induction candidates as [|c rest IH]; [done|]. cbn [registerFonts List.filter].
  destruct (decide (is_Some (disk !! c))) as [Hex|Hex].
  - rewrite !(bool_decide_eq_true_2 _ Hex).
    destruct (register_ok c) eqn:Hreg.
    + exists [], rest. by repeat split.
    + destruct (registerFonts register_ok disk rest) as [[p|] log].
      * destruct IH as (before & after & -> & Hp & Hbefore & ->).
        exists (c :: before), after. split; [done|]. split; [done|].
        split; [apply Forall_cons; split; [|done]; intros [_ ?]; congruence|].
        cbn [List.filter]. by rewrite (bool_decide_eq_true_2 _ Hex).
      * destruct IH as [Hall ->]. split; [|done].
        apply Forall_cons. split; [|done]. intros [_ ?]. congruence.
  - rewrite !(bool_decide_eq_false_2 _ Hex).
    destruct (registerFonts register_ok disk rest) as [[p|] log].
    + destruct IH as (before & after & -> & Hp & Hbefore & ->).
      exists (c :: before), after. split; [done|]. split; [done|].
      split; [apply Forall_cons; split; [|done]; by intros [? _]|].
      cbn [List.filter]. by rewrite (bool_decide_eq_false_2 _ Hex).
    + destruct IH as [Hall ->]. split; [|done].
      apply Forall_cons. split; [|done]. by intros [? _].
Qed.

(** X21. The font loop registers the first candidate, in the order of the
    list, whose file is on the disk and whose registration goes through, and
    stops there: [fontLoaded] is true exactly when there is such a
    candidate.  Of the candidates before it, those whose file is on the disk
    are reported as failed, in order; the candidates after it are not
    looked at.  Without a usable candidate the warning is printed last. *)
Theorem loadFont_first_usable (E : Env) (disk : gmap (list N) (list N)) :
  let present q := bool_decide (is_Some (disk !! q)) in
  match loadFont E register_ok disk with
  | (true, log) =>
      ∃ before p after,
        fontPaths E = before ++ p :: after ∧ usable register_ok disk p ∧
        Forall (fun q => ¬ usable register_ok disk q) before ∧
        log = (FontFailed <$> List.filter present before) ++ [FontLoadedFrom p]
  | (false, log) =>
      Forall (fun q => ¬ usable register_ok disk q) (fontPaths E) ∧
      log = (FontFailed <$> List.filter present (fontPaths E)) ++ [NoCustomFont]
  end.
Proof.
  intros present. unfold loadFont.
  pose proof (registerFonts_spec disk (fontPaths E)) as Hspec.
  destruct (registerFonts register_ok disk (fontPaths E)) as [[p|] log].
  - destruct Hspec as (before & after & Hsplit & Hp & Hbefore & ->).
    by exists before, p, after.
  - by destruct Hspec as [Hall ->].
Qed.

End FontLoop.

(** ** The hourly cleanup *)

Section CleanupRuns.

Variable E : Env.
Variable readdir : list N → option (list (list N)).
Variable unlink_ok : list N → bool.

Lemma expired_test (now m : Q) :
  negb (Qle_bool (now - m) maxAge) = true ↔ expired now m.
Proof.
  unfold expired. rewrite negb_true_iff. split.
  - intros H. apply Qnot_le_lt. intros Hle. apply Qle_bool_iff in Hle. congruence.
  - intros H. destruct (Qle_bool (now - m) maxAge) eqn:Hle; [|done].
    apply Qle_bool_iff in Hle. by apply Qlt_not_le in H.
Qed.

(** What the loop over one folder does to the disk: it adds and changes
    nothing, and a file it removes is an expired file that the folder lists
    and that it reports. *)
Lemma cleanupFiles_sound (folder : list N) (entries : list (list N)) (now : Q)
    (disk : gmap (list N) Q) :
  let '(ok, disk', log) := cleanupFiles unlink_ok folder entries now disk in
  (∀ p m, disk' !! p = Some m → disk !! p = Some m) ∧
  (∀ p m, disk !! p = Some m → disk' !! p = None →
     expired now m ∧
     ∃ file, file ∈ entries ∧ p = Path.join [folder; file] ∧ unlink_ok p = true ∧
             CleanedUp file ∈ log) ∧
  (∀ file, CleanedUp file ∈ log → file ∈ entries).
Proof.
  revert disk. induction entries as [|file rest IH]; intros disk.
  { simpl. split; [done|]. split; [intros p m H1 H2; congruence|].
    intros file H. by apply elem_of_nil in H. }
  cbn [cleanupFiles]. cbv zeta.
  destruct (disk !! Path.join [folder; file]) as [mtime|] eqn:Hstat.
  2:{ split; [done|]. split; [intros p m H1 H2; congruence|].
      intros f H. by apply elem_of_nil in H. }
  destruct (negb (Qle_bool (now - mtime) maxAge)) eqn:Hold.
  - apply expired_test in Hold.
    destruct (unlink_ok (Path.join [folder; file])) eqn:Hunlink.
    2:{ split; [done|]. split; [intros p m H1 H2; congruence|].
        intros f H. by apply elem_of_nil in H. }
    specialize (IH (delete (Path.join [folder; file]) disk)).
    destruct (cleanupFiles unlink_ok folder rest now _) as [[ok disk'] log].
    destruct IH as (Hsub & Hrem & Hlog). split; [|split].
    + intros p m Hp. apply Hsub in Hp. by apply lookup_delete_Some in Hp as [_ ?].
    + intros p m Hp Hgone.
      destruct (decide (p = Path.join [folder; file])) as [->|Hne].
      * rewrite Hstat in Hp. injection Hp as <-. split; [done|].
        exists file. split; [by left|]. split; [done|]. split; [done | by left].
      * destruct (Hrem p m) as (Hexp & f & Hf & Hpath & Hun & Hin); [|done|].
        { by rewrite lookup_delete_ne. }
        split; [done|]. exists f. split; [by right|]. split; [done|].
        split; [done | by right].
    + intros f [[= ->]|Hin]%elem_of_cons; [by left | right; by apply Hlog].
  - specialize (IH disk).
    destruct (cleanupFiles unlink_ok folder rest now disk) as [[ok disk'] log].
    destruct IH as (Hsub & Hrem & Hlog). split; [done|]. split.
    + intros p m Hp Hgone. destruct (Hrem p m Hp Hgone) as (Hexp & f & Hf & Hrest).
      split; [done|]. exists f. split; [by right | done].
    + intros f Hin. right. by apply Hlog.
Qed.

Lemma cleanupFolder_sound (folder : list N) (now : Q) (disk : gmap (list N) Q) :
  let (disk', log) := cleanupFolder readdir unlink_ok folder now disk in
  (∀ p m, disk' !! p = Some m → disk !! p = Some m) ∧
  (∀ p m, disk !! p = Some m → disk' !! p = None →
     expired now m ∧
     ∃ entries file, readdir folder = Some entries ∧ file ∈ entries ∧
                     p = Path.join [folder; file] ∧ unlink_ok p = true ∧
                     CleanedUp file ∈ log).
Proof.
  unfold cleanupFolder. destruct (readdir folder) as [entries|] eqn:Hdir.
  2:{ split; [done|]. intros p m H1 H2. congruence. }
  pose proof (cleanupFiles_sound folder entries now disk) as Hsound.
  destruct (cleanupFiles unlink_ok folder entries now disk) as [[ok disk'] log].
  destruct Hsound as (Hsub & Hrem & _). split; [done|].
  intros p m Hp Hgone. destruct (Hrem p m Hp Hgone) as (Hexp & f & Hf & Hpath & Hun & Hin).
  split; [done|]. exists entries, f. do 4 (split; [done|]).
  destruct ok; [done|]. apply elem_of_app. by left.
Qed.

Lemma cleanupOldFiles_unfold (now : Q) (disk : gmap (list N) Q) :
  cleanupOldFiles E readdir unlink_ok now disk
  = let (d1, l1) := cleanupFolder readdir unlink_ok (Disk.UPLOAD_FOLDER E) now disk in
    let (d2, l2) := cleanupFolder readdir unlink_ok (Disk.OUTPUT_FOLDER E) now d1 in
    (d2, l1 ++ l2).
Proof.
  unfold cleanupOldFiles. simpl.
  destruct (cleanupFolder readdir unlink_ok (Disk.UPLOAD_FOLDER E) now disk) as [d1 l1].
  simpl. by destruct (cleanupFolder readdir unlink_ok (Disk.OUTPUT_FOLDER E) now d1).
Qed.

Lemma cleanupOldFiles_sound (now : Q) (disk : gmap (list N) Q) :
  let (disk', log) := cleanupOldFiles E readdir unlink_ok now disk in
  (∀ p m, disk' !! p = Some m → disk !! p = Some m) ∧
  (∀ p m, disk !! p = Some m → disk' !! p = None →
     expired now m ∧
     ∃ folder entries file,
       folder ∈ [Disk.UPLOAD_FOLDER E; Disk.OUTPUT_FOLDER E] ∧
       readdir folder = Some entries ∧ file ∈ entries ∧
       p = Path.join [folder; file] ∧ unlink_ok p = true ∧ CleanedUp file ∈ log).
Proof.
  rewrite cleanupOldFiles_unfold.
  pose proof (cleanupFolder_sound (Disk.UPLOAD_FOLDER E) now disk) as H1.
  destruct (cleanupFolder readdir unlink_ok (Disk.UPLOAD_FOLDER E) now disk) as [d1 l1].
  pose proof (cleanupFolder_sound (Disk.OUTPUT_FOLDER E) now d1) as H2.
  destruct (cleanupFolder readdir unlink_ok (Disk.OUTPUT_FOLDER E) now d1) as [d2 l2].
  destruct H1 as [Hsub1 Hrem1]. destruct H2 as [Hsub2 Hrem2].
  split; [intros p m Hp; by apply Hsub1, Hsub2|].
  intros p m Hp Hgone. destruct (d1 !! p) as [m1|] eqn:Hd1.
  - pose proof (Hsub1 p m1 Hd1) as Hm. rewrite Hp in Hm. injection Hm as <-.
    destruct (Hrem2 p m Hd1 Hgone) as (Hexp & entries & f & Hdir & Hf & Hpath & Hun & Hin).
    split; [done|]. exists (Disk.OUTPUT_FOLDER E), entries, f.
    split; [by right; left|]. do 4 (split; [done|]). apply elem_of_app. by right.
  - destruct (Hrem1 p m Hp Hd1) as (Hexp & entries & f & Hdir & Hf & Hpath & Hun & Hin).
    split; [done|]. exists (Disk.UPLOAD_FOLDER E), entries, f.
    split; [by left|]. do 4 (split; [done|]). apply elem_of_app. by left.
Qed.

(** X22. The cleanup adds no file and changes no time stamp, keeps every
    file that is not older than 24 hours, and removes a file only if it is
    older than that, is listed in the upload folder or in the output folder,
    and is reported as cleaned up; this holds whatever fails on the way. *)
Theorem cleanup_removes_only_expired (now : Q) (disk : gmap (list N) Q) :
  let disk' := (cleanupOldFiles E readdir unlink_ok now disk).1 in
  let log := (cleanupOldFiles E readdir unlink_ok now disk).2 in
  (∀ p m, disk' !! p = Some m → disk !! p = Some m) ∧
  (∀ p m, disk !! p = Some m → ¬ expired now m → disk' !! p = Some m) ∧
  (∀ p m, disk !! p = Some m → disk' !! p = None →
     expired now m ∧
     ∃ folder entries file,
       folder ∈ [Disk.UPLOAD_FOLDER E; Disk.OUTPUT_FOLDER E] ∧
       readdir folder = Some entries ∧ file ∈ entries ∧
       p = Path.join [folder; file] ∧ unlink_ok p = true ∧ CleanedUp file ∈ log).
Proof.
  intros disk' log. pose proof (cleanupOldFiles_sound now disk) as Hsound.
  subst disk' log. destruct (cleanupOldFiles E readdir unlink_ok now disk) as [disk' log].
  destruct Hsound as [Hsub Hrem]. simpl. split; [done|]. split; [|done].
  intros p m Hp Hfresh. destruct (disk' !! p) as [m'|] eqn:Hp'.
  - apply Hsub in Hp'. congruence.
  - by destruct (Hrem p m Hp Hp') as [Hexp _].
Qed.

(** X23. The cleanup never removes a template, nor any other file that is
    not an entry of the upload folder or of the output folder. *)
Theorem cleanup_spares_templates (now : Q) (disk : gmap (list N) Q) :
  head (dirname E) = Some Path.SLASH →
  (∀ folder entries, readdir folder = Some entries → Forall plainName entries) →
  let disk' := (cleanupOldFiles E readdir unlink_ok now disk).1 in
  (∀ template, plainName template →
     disk' !! Path.join [TEMPLATES_FOLDER E; template]
     = disk !! Path.join [TEMPLATES_FOLDER E; template]) ∧
  (∀ p, (∀ name, ¬ directlyInside (Disk.UPLOAD_FOLDER E) name p ∧
                 ¬ directlyInside (Disk.OUTPUT_FOLDER E) name p) →
        disk' !! p = disk !! p).
Proof.
  intros Habs Hplain disk'. pose proof (cleanupOldFiles_sound now disk) as Hsound.
  subst disk'. destruct (cleanupOldFiles E readdir unlink_ok now disk) as [disk' log].
  destruct Hsound as [Hsub Hrem]. simpl.
  assert (∀ p, (∀ folder file, folder ∈ [Disk.UPLOAD_FOLDER E; Disk.OUTPUT_FOLDER E] →
                  plainName file → p ≠ Path.join [folder; file]) →
               disk' !! p = disk !! p) as Hkeep.
  { intros p Hp. destruct (disk !! p) as [m|] eqn:Hd.
    - destruct (disk' !! p) as [m'|] eqn:Hd'; [apply Hsub in Hd'; congruence|].
      destruct (Hrem p m Hd Hd') as (_ & folder & entries & f & Hin & Hdir & Hf & Hpath & _).
      destruct (Hp folder f); [done| |done].
      apply Hplain in Hdir. rewrite Forall_forall in Hdir. by apply Hdir.
    - destruct (disk' !! p) as [m'|] eqn:Hd'; [|done]. apply Hsub in Hd'. congruence. }
  split.
  - intros template Htpl. apply Hkeep. intros folder file Hin Hfile.
    apply elem_of_cons in Hin as [->|Hin].
    + by apply not_eq_sym, uploaded_file_not_template.
    + apply list_elem_of_singleton in Hin as ->.
      by apply not_eq_sym, generated_file_not_template.
  - intros p Hp. apply Hkeep. intros folder file Hin Hfile ->.
    destruct (Hp file) as [H1 H2]. apply elem_of_cons in Hin as [->|Hin].
    + by apply H1, upload_path_directly.
    + apply list_elem_of_singleton in Hin as ->. by apply H2, output_path_directly.
Qed.

Lemma upload_path_inj (a b : list N) :
  head (dirname E) = Some Path.SLASH → plainName a → plainName b →
  Path.join [Disk.UPLOAD_FOLDER E; a] = Path.join [Disk.UPLOAD_FOLDER E; b] → a = b.
Proof.
  intros Habs Ha Hb. rewrite !upload_path_segments by done.
  rewrite !joinSegments_snoc by (by apply snoc_nonempty).
  intros [= Heq]. apply app_inv_head in Heq. by injection Heq.
Qed.

(** The loop over one folder when nothing fails: every listed file is
    there, and every expired one can be unlinked. *)
Lemma cleanupFiles_complete (folder : list N) (entries : list (list N)) (now : Q)
    (disk : gmap (list N) Q) :
  NoDup ((fun file => Path.join [folder; file]) <$> entries) →
  (∀ file, file ∈ entries →
     ∃ m, disk !! Path.join [folder; file] = Some m ∧
          (expired now m → unlink_ok (Path.join [folder; file]) = true)) →
  let '(ok, disk', log) := cleanupFiles unlink_ok folder entries now disk in
  ok = true ∧
  ∀ file m, file ∈ entries → disk !! Path.join [folder; file] = Some m →
            expired now m → disk' !! Path.join [folder; file] = None.
Proof.
  revert disk. induction entries as [|file rest IH]; intros disk Hnodup Hall.
  { simpl. split; [done|]. intros file m H. by apply elem_of_nil in H. }
  cbn [cleanupFiles]. cbv zeta. rewrite fmap_cons in Hnodup.
  apply NoDup_cons in Hnodup as [Hfresh Hnodup].
  destruct (Hall file ltac:(by left)) as (mtime & Hstat & Hunlink). rewrite Hstat.
  destruct (negb (Qle_bool (now - mtime) maxAge)) eqn:Hold.
  - apply expired_test in Hold. rewrite (Hunlink Hold).
    specialize (IH (delete (Path.join [folder; file]) disk) Hnodup).
    pose proof (cleanupFiles_sound folder rest now
                  (delete (Path.join [folder; file]) disk)) as Hsound.
    destruct (cleanupFiles unlink_ok folder rest now _) as [[ok disk'] log].
    destruct Hsound as (Hsub & _).
    assert (∀ f, f ∈ rest → Path.join [folder; f] ≠ Path.join [folder; file]) as Hne.
    { intros f Hf Heq. apply Hfresh. rewrite <- Heq. apply list_elem_of_fmap.
      by exists f. }
    destruct IH as [-> Hgone].
    { intros f Hf. destruct (Hall f ltac:(by right)) as (m & Hm & Hun).
      exists m. split; [|done]. rewrite lookup_delete_ne; [done|].
      by apply not_eq_sym, Hne. }
    split; [done|]. intros f m [->|Hf]%elem_of_cons Hm Hexp.
    + destruct (disk' !! Path.join [folder; file]) as [m'|] eqn:Hd; [|done].
      apply Hsub in Hd. by rewrite lookup_delete_eq in Hd.
    + apply (Hgone f m); [done| |done]. rewrite lookup_delete_ne; [done|].
      by apply not_eq_sym, Hne.
  - assert (¬ expired now mtime) as Hfresh'
      by (intros Hexp%expired_test; congruence).
    specialize (IH disk Hnodup).
    destruct (cleanupFiles unlink_ok folder rest now disk) as [[ok disk'] log].
    destruct IH as [-> Hgone]; [intros f Hf; apply Hall; by right|].
    split; [done|]. intros f m [->|Hf]%elem_of_cons Hm Hexp.
    + rewrite Hstat in Hm. by injection Hm as <-.
    + by apply (Hgone f m).
Qed.

Lemma cleanupFolder_complete (folder : list N) (entries : list (list N)) (now : Q)
    (disk : gmap (list N) Q) :
  readdir folder = Some entries →
  NoDup ((fun file => Path.join [folder; file]) <$> entries) →
  (∀ file, file ∈ entries →
     ∃ m, disk !! Path.join [folder; file] = Some m ∧
          (expired now m → unlink_ok (Path.join [folder; file]) = true)) →
  ∀ file m, file ∈ entries → disk !! Path.join [folder; file] = Some m →
            expired now m →
            (cleanupFolder readdir unlink_ok folder now disk).1
              !! Path.join [folder; file] = None.
Proof.
  intros Hdir Hnodup Hall. unfold cleanupFolder. rewrite Hdir.
  pose proof (cleanupFiles_complete folder entries now disk Hnodup Hall) as Hc.
  destruct (cleanupFiles unlink_ok folder entries now disk) as [[ok disk'] log].
  by destruct Hc as [_ Hgone].
Qed.

(** X24. When the listing of one of the two folders can be read, every
    listed file is there, and every expired one can be unlinked, the cleanup
    removes all the expired files of that folder, whatever happens in the
    other folder: an error there is caught and does not stop the cleanup. *)
Theorem cleanup_removes_expired (now : Q) (disk : gmap (list N) Q)
    (folder : list N) (entries : list (list N)) :
  head (dirname E) = Some Path.SLASH →
  (∀ folder entries, readdir folder = Some entries → Forall plainName entries) →
  folder ∈ [Disk.UPLOAD_FOLDER E; Disk.OUTPUT_FOLDER E] →
  readdir folder = Some entries → NoDup entries →
  (∀ file, file ∈ entries →
     ∃ m, disk !! Path.join [folder; file] = Some m ∧
          (expired now m → unlink_ok (Path.join [folder; file]) = true)) →
  ∀ file m, file ∈ entries → disk !! Path.join [folder; file] = Some m →
            expired now m →
            (cleanupOldFiles E readdir unlink_ok now disk).1
              !! Path.join [folder; file] = None.
Proof.
  intros Habs Hplain Hfolder Hdir Hnodup Hall file m Hfile Hm Hexp.
  pose proof (Hplain folder entries Hdir) as Hnames. rewrite Forall_forall in Hnames.
  rewrite cleanupOldFiles_unfold.
  pose proof (cleanupFolder_sound (Disk.UPLOAD_FOLDER E) now disk) as H1.
  pose proof (cleanupFolder_complete (Disk.UPLOAD_FOLDER E) entries now disk) as C1.
  destruct (cleanupFolder readdir unlink_ok (Disk.UPLOAD_FOLDER E) now disk) as [d1 l1].
  pose proof (cleanupFolder_sound (Disk.OUTPUT_FOLDER E) now d1) as H2.
  pose proof (cleanupFolder_complete (Disk.OUTPUT_FOLDER E) entries now d1) as C2.
  destruct (cleanupFolder readdir unlink_ok (Disk.OUTPUT_FOLDER E) now d1) as [d2 l2].
  destruct H1 as [Hsub1 Hrem1]. destruct H2 as [Hsub2 _]. simpl in *.
  apply elem_of_cons in Hfolder as [->|Hfolder].
  - (* the upload folder: removed by the first pass, and not brought back *)
    assert (d1 !! Path.join [Disk.UPLOAD_FOLDER E; file] = None) as Hgone.
    { apply (C1 Hdir) with (m := m); [|done..]. apply NoDup_fmap_2_strong; [|done].
      intros a b Ha Hb. apply upload_path_inj; [done|by apply Hnames..]. }
    destruct (d2 !! _) as [m'|] eqn:Hd2; [|done]. apply Hsub2 in Hd2. congruence.
  - apply list_elem_of_singleton in Hfolder as ->.
    (* the output folder: the first pass has left its files alone *)
    assert (∀ f m', f ∈ entries → disk !! Path.join [Disk.OUTPUT_FOLDER E; f] = Some m' →
                    d1 !! Path.join [Disk.OUTPUT_FOLDER E; f] = Some m') as Hleft.
    { intros f m' Hf Hd. destruct (d1 !! _) as [m1|] eqn:Hd1.
      - apply Hsub1 in Hd1. congruence.
      - destruct (Hrem1 _ _ Hd Hd1) as (_ & entries' & f' & Hdir' & Hf' & Hpath & _).
        apply Hplain in Hdir'. rewrite Forall_forall in Hdir'.
        symmetry in Hpath. by apply uploaded_file_not_generated in Hpath;
          [|done|apply Hdir'|apply Hnames]. }
    apply (C2 Hdir) with (m := m); [| |done|by apply Hleft|done].
    + apply NoDup_fmap_2_strong; [|done].
      intros a b Ha Hb. apply output_path_inj; [done|by apply Hnames..].
    + intros f Hf. destruct (Hall f Hf) as (m' & Hm' & Hun). exists m'.
      split; [by apply Hleft | done].
Qed.

End CleanupRuns.

Lemma sampleReaddir_plain (folder : list N) (entries : list (list N)) :
  sampleReaddir folder = Some entries → Forall plainName entries.
Proof.
  unfold sampleReaddir. destruct (bool_decide _); [|done]. intros [= <-].
  repeat (apply Forall_cons; split; [by apply literal_plain|]). apply Forall_nil_2.
Qed.

Lemma cleanup_spares_templates_witness :
  let E := sampleEnv (fun _ => true) in
  let front := Path.join [TEMPLATES_FOLDER E; js "front_template.png"] in
  (cleanupOldFiles E sampleReaddir (fun _ => true) 100000000 sampleTimes).1 !! front
  = sampleTimes !! front.
Proof.
  intros E front.
  destruct (cleanup_spares_templates E sampleReaddir (fun _ => true) 100000000
              sampleTimes) as [Ht _]; [reflexivity | apply sampleReaddir_plain |].
  apply Ht, template_names_plain.
Defined.

Lemma cleanup_removes_expired_witness :
  let E := sampleEnv (fun _ => true) in
  (cleanupOldFiles E sampleReaddir (fun _ => true) 100000000 sampleTimes).1
    !! Path.join [Disk.UPLOAD_FOLDER E; js "a.png"] = None.
Proof.
  intros E.
  apply (cleanup_removes_expired E sampleReaddir (fun _ => true) 100000000 sampleTimes
           (Disk.UPLOAD_FOLDER E) [js "a.png"; js "b.png"]) with (m := 0%Q).
  - reflexivity.
  - apply sampleReaddir_plain.
  - by left.
  - by vm_compute.
  - by apply (bool_decide_unpack _); vm_compute.
  - intros file [->|[->|[]%elem_of_nil]%elem_of_cons]%elem_of_cons;
      eexists; (split; [by vm_compute | done]).
  - by left.
  - by vm_compute.
  - by vm_compute.
Defined.

(** ** Start-up of the Cloudinary version: the credentials *)

Section CredentialsFacts.

Variable new_URL : list N → option UrlParts.

(** X25. [parseCloudinaryUrl] gives credentials only for a URL that starts
    with [cloudinary://] and that [new URL] accepts: the host is the cloud
    name, the user name the key and the password the secret.  In every other
    case it gives the empty object.  For a URL that is unset or empty it
    prints nothing: the warning that the URL is set but empty is never
    printed, its test being reached only by non-empty strings. *)
Theorem parseCloudinaryUrl_cases (url : option (list N)) :
  let cfg := (parseCloudinaryUrl new_URL url).1 in
  let log := (parseCloudinaryUrl new_URL url).2 in
  (WarnEmptyUrl ∉ log) ∧
  (url = None ∨ url = Some [] → cfg = noCredentials ∧ log = []) ∧
  (cfg = noCredentials ∨
   ∃ u urlObj,
     url = Some u ∧ startsWith (js "cloudinary://") u = true ∧
     new_URL u = Some urlObj ∧ log = [] ∧
     cfg = {| cloud_name := Some (hostname urlObj); api_key := Some (username urlObj);
              api_secret := Some (password urlObj) |}).
Proof.
  intros cfg log. subst cfg log. unfold parseCloudinaryUrl.
  destruct url as [[|c u]|]; cbn [truthy_prop truthy negb]; cbv zeta.
  - split; [apply not_elem_of_nil|]. split; [done | by left].
  - rewrite bool_decide_eq_false_2 by done.
    change (default [] (Some (c :: u))) with (c :: u).
    destruct (startsWith (js "cloudinary://") (c :: u)) eqn:Hstart; cbn [negb].
    + destruct (new_URL (c :: u)) as [urlObj|] eqn:Hparse; cbn [fst snd].
      * split; [apply not_elem_of_nil|]. split; [by intros [?|?]|].
        right. by exists (c :: u), urlObj.
      * split; [by intros [?|?%elem_of_nil]%elem_of_cons|].
        split; [by intros [?|?] | by left].
    + cbn [fst snd]. split; [by intros [?|?%elem_of_nil]%elem_of_cons|].
      split; [by intros [?|?] | by left].
  - split; [apply not_elem_of_nil|]. split; [done | by left].
Qed.

(** X26. A credential named by its own environment variable, with a value
    that is not empty, is taken from that variable, whatever the URL says;
    otherwise it is what the URL gives.  When all three variables are set,
    the URL has no influence on the object handed to [cloudinary.config]. *)
Theorem cloudinaryOptions_precedence (env : gmap string (list N)) :
  let opts := (cloudinaryOptions new_URL env).1 in
  let parsed := (parseCloudinaryUrl new_URL (env !! "CLOUDINARY_URL")).1 in
  (∀ v, env !! "CLOUDINARY_CLOUD_NAME" = Some v → v ≠ [] → cloud_name opts = Some v) ∧
  (∀ v, env !! "CLOUDINARY_API_KEY" = Some v → v ≠ [] → api_key opts = Some v) ∧
  (∀ v, env !! "CLOUDINARY_API_SECRET" = Some v → v ≠ [] → api_secret opts = Some v) ∧
  (truthy_prop (env !! "CLOUDINARY_CLOUD_NAME") = false →
     cloud_name opts = cloud_name parsed) ∧
  (truthy_prop (env !! "CLOUDINARY_API_KEY") = false → api_key opts = api_key parsed) ∧
  (truthy_prop (env !! "CLOUDINARY_API_SECRET") = false →
     api_secret opts = api_secret parsed) ∧
  (truthy_prop (env !! "CLOUDINARY_CLOUD_NAME") = true →
   truthy_prop (env !! "CLOUDINARY_API_KEY") = true →
   truthy_prop (env !! "CLOUDINARY_API_SECRET") = true →
   ∀ url, (cloudinaryOptions new_URL (<["CLOUDINARY_URL" := url]> env)).1 = opts).
Proof.
  intros opts parsed. subst opts parsed. unfold cloudinaryOptions.
  destruct (parseCloudinaryUrl new_URL (env !! "CLOUDINARY_URL")) as [cfg log].
  cbn [fst cloud_name api_key api_secret]. unfold orElse.
  split; [intros v -> Hv; by destruct v|].
  split; [intros v -> Hv; by destruct v|].
  split; [intros v -> Hv; by destruct v|].
  split; [by intros ->|]. split; [by intros ->|]. split; [by intros ->|].
  intros H1 H2 H3 url.
  destruct (parseCloudinaryUrl new_URL (<["CLOUDINARY_URL" := url]> env !! "CLOUDINARY_URL"))
    as [cfg' log'].
  cbn [fst]. rewrite !lookup_insert_ne by done. by rewrite H1, H2, H3.
Qed.

End CredentialsFacts.

Lemma parseCloudinaryUrl_cases_witness :
  parseCloudinaryUrl (fun _ => None) (Some []) = (noCredentials, []).
Proof.
  destruct (parseCloudinaryUrl_cases (fun _ => None) (Some [])) as (_ & H & _).
  cbv zeta in H. destruct H as [H1 H2]; [by right|].
  rewrite (surjective_pairing (parseCloudinaryUrl _ _)). by rewrite H1, H2.
Defined.

Lemma cloudinaryOptions_precedence_witness :
  let env : gmap string (list N) :=
    <["CLOUDINARY_CLOUD_NAME" := js "demo"]> (<["CLOUDINARY_URL" := js "cloudinary://k:s@other"]> ∅) in
  cloud_name (cloudinaryOptions
                (fun _ => Some {| hostname := js "other"; username := js "k";
                                  password := js "s" |}) env).1 = Some (js "demo").
Proof.
  intros env.
  destruct (cloudinaryOptions_precedence
              (fun _ => Some {| hostname := js "other"; username := js "k";
                                password := js "s" |}) env) as (H & _).
  by apply H.
Defined.

(** ** Layout of the two cards *)

Lemma drawn_fillText (t : list N) (tx ty : Q) (c : Canvas) :
  drawn (fillText t tx ty c) = drawn c ++ [FillText t tx ty (ctx_font c) (ctx_fillStyle c)].
Proof. done. Qed.

Lemma drawn_set_font (f : Font) (c : Canvas) : drawn (set_font f c) = drawn c.
Proof. done. Qed.

Lemma drawn_set_fillStyle (s : string) (c : Canvas) : drawn (set_fillStyle s c) = drawn c.
Proof. done. Qed.

Lemma font_fillText (t : list N) (tx ty : Q) (c : Canvas) :
  ctx_font (fillText t tx ty c) = ctx_font c.
Proof. done. Qed.

Lemma font_set_font (f : Font) (c : Canvas) : ctx_font (set_font f c) = f.
Proof. done. Qed.

Lemma style_fillText (t : list N) (tx ty : Q) (c : Canvas) :
  ctx_fillStyle (fillText t tx ty c) = ctx_fillStyle c.
Proof. done. Qed.

Lemma style_set_font (f : Font) (c : Canvas) :
  ctx_fillStyle (set_font f c) = ctx_fillStyle c.
Proof. done. Qed.

Lemma style_set_fillStyle (s : string) (c : Canvas) :
  ctx_fillStyle (set_fillStyle s c) = s.
Proof. done. Qed.

(** What [backText] draws, run by run. *)
Lemma drawn_backText (E : Env) (d : CardData) (c0 : Canvas) :
  let font px := {| font_px := px; font_family := fontFamily E |} in
  let run t tx ty px := FillText t tx ty (font px) "#000000" in
  let px7 := ptToPx_pixels (binary64_of_Z 7) in
  let px4 := ptToPx_pixels (binary64_literal 4319 1000) in
  let px6 := ptToPx_pixels (binary64_of_Z 6) in
  drawn (backText E d c0)
  = drawn c0 ++
    [run (toUpperCase (unicode E) (name d)) (0.74 * CM_TO_PX)
       (0.60 * CM_TO_PX + inject_Z px7) px7;
     run (faculty d) (1.81 * CM_TO_PX) (1.03 * CM_TO_PX + inject_Z px4) px4;
     run (dept d) (1.81 * CM_TO_PX) (1.38 * CM_TO_PX + inject_Z px4) px4;
     run (reg d) (1.81 * CM_TO_PX) (1.73 * CM_TO_PX + inject_Z px4) px4;
     run (gender d) (1.81 * CM_TO_PX) (2.08 * CM_TO_PX + inject_Z px4) px4;
     run (js "EXPIRY") (0.74 * CM_TO_PX) (3.87 * CM_TO_PX + inject_Z px6) px6;
     run (expiry d) (0.74 * CM_TO_PX) (4.17 * CM_TO_PX + inject_Z px6) px6]%Q.
Proof.
  intros font run px7 px4 px6. unfold backText. cbv zeta.
  repeat (rewrite drawn_fillText || rewrite drawn_set_font || rewrite drawn_set_fillStyle
          || rewrite font_fillText || rewrite font_set_font || rewrite style_fillText
          || rewrite style_set_font || rewrite style_set_fillStyle).
  by rewrite <- !app_assoc.
Qed.

(** X27. The back card shows seven lines of text, all in black and in the
    one font family, at sizes of 29, 18 and 25 pixels.  Every line starts
    within the card, and each line stands below the one before it by at
    least its own height, so no two lines are printed over each other. *)
Theorem back_layout (E : Env) (d : CardData) (c0 : Canvas) :
  canvas_width c0 = CARD_WIDTH → canvas_height c0 = CARD_HEIGHT →
  ∃ texts,
    drawn (backText E d c0) = drawn c0 ++ texts ∧ length texts = 7 ∧
    Forall (withinCanvas (backText E d c0)) texts ∧ stacked texts ∧
    Forall (fun op => match op with
                      | FillText _ _ _ f style =>
                          style = "#000000"%string ∧ font_family f = fontFamily E ∧
                          font_px f ∈ [29; 18; 25]%Z
                      | DrawImage _ _ _ _ _ => False
                      end) texts.
Proof.
  intros Hw Hh. eexists. split; [apply drawn_backText|]. split; [done|].
  assert (ptToPx_pixels (binary64_of_Z 7) = 29%Z) as -> by (by vm_compute).
  assert (ptToPx_pixels (binary64_literal 4319 1000) = 18%Z) as -> by (by vm_compute).
  assert (ptToPx_pixels (binary64_of_Z 6) = 25%Z) as -> by (by vm_compute).
  destruct (backText_size E d c0) as [Hw' Hh'].
  split; [|split].
  - repeat (apply Forall_cons; split;
            [cbn [withinCanvas]; rewrite Hw', Hh', Hw, Hh; by vm_compute|]).
    apply Forall_nil_2.
  - by vm_compute.
  - repeat (apply Forall_cons; split;
            [split; [done|]; split; [done|]; by apply (bool_decide_unpack _); vm_compute|]).
    apply Forall_nil_2.
Qed.

Lemma back_layout_witness :
  ∃ texts,
    drawn (backText (sampleEnv (fun _ => true)) janeDoe (createCanvas 1012 638))
    = texts ∧ length texts = 7 ∧ stacked texts.
Proof.
  destruct (back_layout (sampleEnv (fun _ => true)) janeDoe (createCanvas 1012 638))
    as (texts & Hd & Hl & _ & Hs & _); [done..|].
  exists texts. by rewrite Hd.
Defined.

Lemma loadImage_returns (E : Env) (src : ImageSource) (w w' : World) (img : Image) :
  loadImage E src w = (Returned img, w') →
  sourceBytes E src w = Some (image_bytes img) ∧ image_decodes E (image_bytes img) = true ∧
  w' = emit (EvLoadImage src) w.
Proof.
  rewrite loadImage_run. destruct (sourceBytes E src w) as [bytes|]; [|done].
  destruct (image_decodes E bytes) eqn:Hd; [|done]. by intros [= <- <-].
Qed.

(** X28. The front card is the template drawn over the whole canvas, then
    the QR code, then the photo, each decoded from its source.  The QR code
    and the photo lie within the card and share no pixel, and nothing is
    drawn over them. *)
Theorem front_layout (E : Env) (p : list N) (qr ph : ImageSource) (w w' : World)
    (c : Canvas) :
  drawFront E p qr ph w = (Returned c, w') →
  ∃ template qrImage photo,
    drawn c = [DrawImage template 0 0 (canvas_width c) (canvas_height c);
               DrawImage qrImage 470 419 150 150;
               DrawImage photo 640 280 280 280] ∧
    files w !! p = Some (image_bytes template) ∧
    sourceBytes E qr w = Some (image_bytes qrImage) ∧
    sourceBytes E ph w = Some (image_bytes photo) ∧
    Forall (withinCanvas c) (drawn c) ∧
    apart (DrawImage qrImage 470 419 150 150) (DrawImage photo 640 280 280 280).
Proof.
  intros Hrun. unfold drawFront in Hrun.
  step_in Hrun Hc; [|discriminate Hc]. injection Hc as <- <-.
  step_in Hrun Ht; [|discriminate Hrun].
  apply loadImage_returns in Ht as (Ht & _ & ->).
  step_in Hrun Hq; [|discriminate Hrun].
  apply loadImage_returns in Hq as (Hq & _ & ->).
  step_in Hrun Hp; [|discriminate Hrun].
  apply loadImage_returns in Hp as (Hp & _ & ->).
  injection Hrun as <- <-.
  eexists _, _, _. split; [reflexivity|].
  split; [exact Ht|]. split; [by destruct qr|]. split; [by destruct ph|].
  split; [|cbn [apart]; lia].
  repeat (apply Forall_cons; split; [by vm_compute|]). apply Forall_nil_2.
Qed.

Lemma front_layout_witness :
  let E := sampleEnv (fun _ => true) in
  let run := drawFront E (js "/srv/app/static/front_template.png")
               (FromBuffer (pngHeader 150 150)) (FromUrl (js "https://x/photo"))
               sampleWorld in
  ∃ c, run.1 = Returned c ∧ length (drawn c) = 3.
Proof.
  intros E run.
  assert (∃ c, run.1 = Returned c) as [c Hc] by (eexists; by vm_compute).
  exists c. split; [done|].
  destruct (front_layout E (js "/srv/app/static/front_template.png")
              (FromBuffer (pngHeader 150 150)) (FromUrl (js "https://x/photo"))
              sampleWorld run.2 c) as (t & q & f & -> & _); [|done].
  rewrite <- Hc. apply surjective_pairing.
Defined.

(** ** Requests that fail after the photo has been taken *)

Section LateFailures.

Variable E : Env.



End LateFailures.



